(** * Buzz-Tracker back end: the COA field extraction engine

    A shallow embedding of [coa-scraper.cjs] (strain, type, terpene and THC
    parsers) and of the type helper [parseType] of the server, together
    with the properties the specification states about them.

    - JavaScript strings are lists of UTF-16 code units ([N]).
    - JavaScript regular expressions are a small abstract syntax run by a
      backtracking matcher that follows the ECMAScript matching rules
      (leftmost match, ordered alternation, greedy and lazy quantifiers,
      capture groups, [\b], lookahead, the [i] flag).
    - JavaScript numbers are IEEE 754 binary64 values, [spec_float] with
      precision 53 and maximal exponent 1024. *)

From Stdlib Require Import ZArith NArith PArith List String Ascii Bool Lia.
From Stdlib Require Import Permutation Sorted.
From Stdlib Require Import Floats.SpecFloat.
Import ListNotations.

(* ===================================================================== *)
(** ** Strings as sequences of UTF-16 code units *)
(* ===================================================================== *)

Module JsString.

Local Open Scope N_scope.

Definition char := N.
Definition str := list char.

(** Source literals are written as Rocq strings (UTF-8 bytes) and decoded
    to code units; only the Basic Multilingual Plane is needed. *)
Fixpoint utf8_decode (bs : list N) : str :=
  match bs with
  | [] => []
  | b0 :: t0 =>
      if b0 <? 128 then b0 :: utf8_decode t0
      else if b0 <? 224 then
        match t0 with
        | b1 :: t1 => ((b0 - 192) * 64 + (b1 - 128)) :: utf8_decode t1
        | [] => [b0]
        end
      else
        match t0 with
        | b1 :: b2 :: t2 =>
            ((b0 - 224) * 4096 + (b1 - 128) * 64 + (b2 - 128)) :: utf8_decode t2
        | _ => [b0]
        end
  end.

Definition js (s : string) : str :=
  utf8_decode (map N_of_ascii (list_ascii_of_string s)).

Arguments js s%_string.

Definition in_range (lo hi c : char) : bool := (lo <=? c) && (c <=? hi).

Fixpoint str_eqb (a b : str) : bool :=
  match a, b with
  | [], [] => true
  | x :: a', y :: b' => (x =? y) && str_eqb a' b'
  | _, _ => false
  end.

(** [String.prototype.toUpperCase] and [toLowerCase] on one code unit.
    The tables cover ASCII, Latin-1 and the basic Greek letters (the
    alphabets the scraper's patterns mention); other code units are left
    unchanged. On text of units below U+0100 [toLowerCase] is the
    lower-casing of JavaScript; beyond them JavaScript lower-cases more
    (U+0130, U+212A, a capital sigma at the end of a word, other scripts).
    What is stated below about lower-cased text is stated for text that a
    pattern restricts to these tables or for text below U+0100. *)
Definition toUpperUnit (c : char) : char :=
  if in_range 97 122 c then c - 32
  else if c =? 181 then 924
  else if in_range 224 254 c && negb (c =? 247) then c - 32
  else if c =? 255 then 376
  else if c =? 962 then 931
  else if in_range 945 969 c then c - 32
  else if c =? 976 then 914
  else c.

Definition toLowerUnit (c : char) : char :=
  if in_range 65 90 c then c + 32
  else if in_range 192 222 c && negb (c =? 215) then c + 32
  else if in_range 913 937 c && negb (c =? 930) then c + 32
  else c.

Definition toLowerCase (s : str) : str := map toLowerUnit s.
Definition toUpperCase (s : str) : str := map toUpperUnit s.

(** WhiteSpace and LineTerminator code units: the set of [\s] and of
    [String.prototype.trim]. *)
Definition is_space (c : char) : bool :=
  in_range 9 13 c || (c =? 32) || (c =? 160) || (c =? 5760)
  || in_range 8192 8202 c || (c =? 8232) || (c =? 8233) || (c =? 8239)
  || (c =? 8287) || (c =? 12288) || (c =? 65279).

Definition is_digit (c : char) : bool := in_range 48 57 c.

Definition is_word (c : char) : bool :=
  in_range 97 122 c || in_range 65 90 c || is_digit c || (c =? 95).

Definition is_line_terminator (c : char) : bool :=
  (c =? 10) || (c =? 13) || (c =? 8232) || (c =? 8233).

Fixpoint trimStart (s : str) : str :=
  match s with
  | c :: t => if is_space c then trimStart t else s
  | [] => []
  end.

Definition trimEnd (s : str) : str := rev (trimStart (rev s)).
Definition trim (s : str) : str := trimEnd (trimStart s).

Fixpoint startsWith (p s : str) : bool :=
  match p, s with
  | [], _ => true
  | x :: p', y :: s' => (x =? y) && startsWith p' s'
  | _ :: _, [] => false
  end.

(** [s.includes(p)] *)
Fixpoint includes (s p : str) : bool :=
  startsWith p s ||
  match s with
  | [] => false
  | _ :: t => includes t p
  end.

End JsString.

(* ===================================================================== *)
(** ** Regular expressions *)
(* ===================================================================== *)

Module Regex.

Import JsString.
Local Open Scope N_scope.

(** Members of a character class. *)
Inductive cset :=
| CChar (c : char)
| CRange (lo hi : char)
| CDigit                      (* \d *)
| CSpace                      (* \s *)
| CWord.                      (* \w *)

Inductive regex :=
| Eps
| Chr (c : char)                                   (* a literal *)
| Dot                                              (* .  *)
| Cls (neg : bool) (items : list cset)             (* [...] and [^...] *)
| Seq (r1 r2 : regex)
| Alt (r1 r2 : regex)                              (* r1|r2 *)
| Rep (greedy : bool) (lo : nat) (hi : option nat) (r : regex)
| Grp (i : nat) (r : regex)                        (* i-th capture group *)
| WordB                                            (* \b *)
| Look (r : regex)                                 (* (?=r) *)
| Eos.                                             (* $ without the m flag *)

(** [Canonicalize] of the specification for non-unicode patterns. *)
Definition canon (ic : bool) (c : char) : char :=
  if ic then
    let u := toUpperUnit c in
    if (128 <=? c) && (u <? 128) then c else u
  else c.

Fixpoint units_from (lo : char) (n : nat) : list char :=
  match n with
  | O => []
  | S n' => lo :: units_from (lo + 1) n'
  end.

Definition units (lo hi : char) : list char :=
  units_from lo (N.to_nat (hi + 1 - lo)).

(** A class member accepts [ch] when some unit of the member has the same
    canonical form as [ch]. *)
Definition cset_mem (ic : bool) (it : cset) (ch : char) : bool :=
  match it with
  | CChar a => canon ic a =? canon ic ch
  | CRange lo hi =>
      if ic then existsb (fun a => canon ic a =? canon ic ch) (units lo hi)
      else in_range lo hi ch
  | CDigit => is_digit ch
  | CSpace => is_space ch
  | CWord => is_word ch
  end.

Definition cls_mem (ic neg : bool) (items : list cset) (ch : char) : bool :=
  xorb neg (existsb (fun it => cset_mem ic it ch) items).

Local Close Scope N_scope.

(** Matcher state: the unit before the current position (for [\b]), the
    rest of the input and the captures so far. *)
Record mstate := MState {
  ms_prev : option char;
  ms_rest : str;
  ms_caps : list (nat * str)
}.

Definition cont := mstate -> option mstate.

Fixpoint cap_remove (i : nat) (caps : list (nat * str)) : list (nat * str) :=
  match caps with
  | [] => []
  | (j, s) :: t => if Nat.eqb i j then cap_remove i t else (j, s) :: cap_remove i t
  end.

Definition cap_set (i : nat) (s : str) (caps : list (nat * str)) :=
  (i, s) :: cap_remove i caps.

Fixpoint cap_get (i : nat) (caps : list (nat * str)) : option str :=
  match caps with
  | [] => None
  | (j, s) :: t => if Nat.eqb i j then Some s else cap_get i t
  end.

Fixpoint groups_of (r : regex) : list nat :=
  match r with
  | Seq a b | Alt a b => groups_of a ++ groups_of b
  | Rep _ _ _ a | Look a => groups_of a
  | Grp i a => i :: groups_of a
  | _ => []
  end.

Definition caps_clear (gs : list nat) (caps : list (nat * str)) :=
  fold_right cap_remove caps gs.

Definition eat (st : mstate) (ok : char -> bool) (k : cont) : option mstate :=
  match ms_rest st with
  | ch :: tl => if ok ch then k (MState (Some ch) tl (ms_caps st)) else None
  | [] => None
  end.

Definition opt_word (o : option char) : bool :=
  match o with Some c => is_word c | None => false end.

Definition at_boundary (st : mstate) : bool :=
  xorb (opt_word (ms_prev st)) (opt_word (hd_error (ms_rest st))).

(** The units consumed between two states of one match. *)
Definition consumed (st st' : mstate) : str :=
  firstn (List.length (ms_rest st) - List.length (ms_rest st')) (ms_rest st).

(** RepeatMatcher: [m] is the matcher of the quantified atom. An
    iteration that consumes nothing once the lower bound is met is
    rejected, so [fuel] = lower bound + remaining input + 1 is enough. *)
Fixpoint repeat (m : cont -> cont) (gs : list nat) (greedy : bool)
    (fuel lo : nat) (hi : option nat) (k : cont) (st : mstate)
    {struct fuel} : option mstate :=
  match fuel with
  | O => None
  | S fuel' =>
      match hi with
      | Some O => k st
      | _ =>
          let hi' := option_map Nat.pred hi in
          let d : cont := fun st' =>
            if Nat.eqb lo 0 && Nat.eqb (List.length (ms_rest st')) (List.length (ms_rest st))
            then None
            else repeat m gs greedy fuel' (Nat.pred lo) hi' k st' in
          let xr := MState (ms_prev st) (ms_rest st) (caps_clear gs (ms_caps st)) in
          if negb (Nat.eqb lo 0) then m d xr
          else if greedy then
            match m d xr with
            | Some z => Some z
            | None => k st
            end
          else
            match k st with
            | Some z => Some z
            | None => m d xr
            end
      end
  end.

Fixpoint rmatch (ic : bool) (r : regex) (k : cont) (st : mstate)
    {struct r} : option mstate :=
  match r with
  | Eps => k st
  | Chr c => eat st (fun ch => N.eqb (canon ic c) (canon ic ch)) k
  | Dot => eat st (fun ch => negb (is_line_terminator ch)) k
  | Cls neg items => eat st (cls_mem ic neg items) k
  | Seq r1 r2 => rmatch ic r1 (rmatch ic r2 k) st
  | Alt r1 r2 =>
      match rmatch ic r1 k st with
      | Some z => Some z
      | None => rmatch ic r2 k st
      end
  | Rep greedy lo hi r' =>
      repeat (rmatch ic r') (groups_of r') greedy
             (S (lo + List.length (ms_rest st))) lo hi k st
  | Grp i r' =>
      rmatch ic r'
        (fun st' => k (MState (ms_prev st') (ms_rest st')
                              (cap_set i (consumed st st') (ms_caps st'))))
        st
  | WordB => if at_boundary st then k st else None
  | Look r' =>
      match rmatch ic r' Some st with
      | Some z => k (MState (ms_prev st) (ms_rest st) (ms_caps z))
      | None => None
      end
  | Eos => match ms_rest st with [] => k st | _ => None end
  end.

(** The result of [RegExp.prototype.exec]. *)
Record mres := MRes {
  m_index : nat;              (* index of the match *)
  m_text : str;               (* m[0] *)
  m_caps : list (nat * str);  (* m[1], m[2], ...; absent = undefined *)
  m_last : option char;       (* the unit before the end of the match *)
  m_after : str               (* the input after the match *)
}.

Definition group (i : nat) (m : mres) : option str := cap_get i (m_caps m).

Definition match_here (ic : bool) (r : regex) (prev : option char) (s : str)
    (idx : nat) : option mres :=
  let st := MState prev s [] in
  match rmatch ic r Some st with
  | Some st' => Some (MRes idx (consumed st st') (ms_caps st') (ms_prev st') (ms_rest st'))
  | None => None
  end.

(** Leftmost match at or after the current position. *)
Fixpoint search (ic : bool) (r : regex) (prev : option char) (s : str)
    (idx : nat) : option mres :=
  match match_here ic r prev s idx with
  | Some m => Some m
  | None =>
      match s with
      | [] => None
      | c :: t => search ic r (Some c) t (S idx)
      end
  end.

(** [s.match(re)] for a pattern without the [g] flag, and [re.test(s)]. *)
Definition exec (ic : bool) (r : regex) (s : str) : option mres :=
  search ic r None s 0.

Definition test (ic : bool) (r : regex) (s : str) : bool :=
  match exec ic r s with Some _ => true | None => false end.

(** All matches of a global pattern, left to right ([matchAll] and the
    loop of [replace] and [split]); after an empty match the scan moves on
    by one unit. *)
Fixpoint all_matches (fuel : nat) (ic : bool) (r : regex) (prev : option char)
    (s : str) (idx : nat) : list mres :=
  match fuel with
  | O => []
  | S fuel' =>
      match search ic r prev s idx with
      | None => []
      | Some m =>
          match m_text m, m_after m with
          | [], [] => [m]
          | [], c :: t =>
              m :: all_matches fuel' ic r (Some c) t (S (m_index m))
          | _ :: _, rest =>
              m :: all_matches fuel' ic r (m_last m) rest
                     (m_index m + List.length (m_text m))
          end
      end
  end.

Definition matchAll (ic : bool) (r : regex) (s : str) : list mres :=
  all_matches (S (List.length s)) ic r None s 0.

(** [s.replace(re, f)] for a global pattern; [f] builds the replacement
    from the match (a template such as ['$1.$2']). *)
Fixpoint replace_loop (f : mres -> str) (s : str) (pos : nat) (ms : list mres) : str :=
  match ms with
  | [] => skipn pos s
  | m :: ms' =>
      firstn (m_index m - pos) (skipn pos s) ++ f m
        ++ replace_loop f s (m_index m + List.length (m_text m)) ms'
  end.

Definition replaceAll (ic : bool) (r : regex) (f : mres -> str) (s : str) : str :=
  replace_loop f s 0 (matchAll ic r s).

(** [s.split(re)] for a pattern without captures that never matches the
    empty string. *)
Fixpoint split_loop (s : str) (pos : nat) (ms : list mres) : list str :=
  match ms with
  | [] => [skipn pos s]
  | m :: ms' =>
      firstn (m_index m - pos) (skipn pos s)
        :: split_loop s (m_index m + List.length (m_text m)) ms'
  end.

Definition split (ic : bool) (r : regex) (s : str) : list str :=
  split_loop s 0 (matchAll ic r s).

(** What the fuel of [repeat] and [all_matches] rests on: a matcher
    hands its continuation only states with no more input left than it
    was given ([local]), and what it returns its continuation returned
    ([answers]). *)
Definition shorter (st' st : mstate) : Prop :=
  List.length (ms_rest st') <= List.length (ms_rest st).

Definition local (m : cont -> cont) : Prop :=
  forall k1 k2 st,
    (forall st', shorter st' st -> k1 st' = k2 st') -> m k1 st = m k2 st.

Definition answers (m : cont -> cont) : Prop :=
  forall k st z, m k st = Some z -> exists st', shorter st' st /\ k st' = Some z.

(** The unit before position [length pre] of [pre ++ s], when [prev] is
    the unit before [pre]. *)
Definition unit_before (prev : option char) (pre : str) : option char :=
  last (map Some pre) prev.

(** Pattern building blocks. *)
Definition lit (s : string) : regex :=
  fold_right (fun c r => Seq (Chr c) r) Eps (js s).
Definition seqs (rs : list regex) : regex := fold_right Seq Eps rs.
Fixpoint alts (rs : list regex) : regex :=
  match rs with
  | [] => Cls false []
  | [r] => r
  | r :: rs' => Alt r (alts rs')
  end.
Definition opt (r : regex) : regex := Rep true 0 (Some 1) r.
Definition star (r : regex) : regex := Rep true 0 None r.
Definition plus (r : regex) : regex := Rep true 1 None r.
Definition between (lo hi : nat) (r : regex) : regex := Rep true lo (Some hi) r.
Definition atleast (lo : nat) (r : regex) : regex := Rep true lo None r.
Definition chr (s : string) : regex :=
  match js s with c :: _ => Chr c | [] => Eps end.
Definition c1 (s : string) : cset :=
  match js s with c :: _ => CChar c | [] => CChar 0%N end.
Definition rng (a b : string) : cset :=
  match js a, js b with
  | x :: _, y :: _ => CRange x y
  | _, _ => CChar 0%N
  end.
Arguments lit s%_string.
Arguments chr s%_string.
Arguments c1 s%_string.
Arguments rng (a b)%_string.

Definition digit : regex := Cls false [CDigit].
Definition space : regex := Cls false [CSpace].

End Regex.

(* ===================================================================== *)
(** ** Numbers: IEEE 754 binary64 *)
(* ===================================================================== *)

Module Num.

Import JsString.
Local Open Scope Z_scope.

Definition prec : Z := 53.
Definition emax : Z := 1024.

Definition float := spec_float.

Definition fadd : float -> float -> float := SFadd prec emax.
Definition fsub : float -> float -> float := SFsub prec emax.
Definition fmul : float -> float -> float := SFmul prec emax.
Definition fdiv : float -> float -> float := SFdiv prec emax.
Definition flt : float -> float -> bool := SFltb.
Definition fle : float -> float -> bool := SFleb.
Definition valid : float -> bool := valid_binary prec emax.

Definition isNaN (x : float) : bool :=
  match x with S754_nan => true | _ => false end.

Definition pinf : float := S754_infinity false.

(** The binary64 value nearest to [n / d] (ties to even) for integers
    [n] and [d > 0]: the division of the specification applied to the two
    integers, which rounds the exact quotient once. *)
Definition ratio (neg : bool) (n : Z) (d : positive) : float :=
  match n with
  | Zpos p => fdiv (S754_finite neg p 0) (S754_finite false d 0)
  | _ => S754_zero neg
  end.

Definition of_Z (n : Z) : float := ratio (n <? 0) (Z.abs n) 1.

Fixpoint pow10 (k : nat) : positive :=
  match k with
  | O => 1%positive
  | S k' => (10 * pow10 k')%positive
  end.

Fixpoint digits_value (acc : Z) (s : str) : option Z :=
  match s with
  | [] => Some acc
  | c :: t =>
      if is_digit c then digits_value (10 * acc + (Z.of_N c - 48)) t else None
  end.

Fixpoint split_dot (s : str) : str * option str :=
  match s with
  | [] => ([], None)
  | c :: t =>
      if N.eqb c 46 then ([], Some t)
      else let '(a, b) := split_dot t in (c :: a, b)
  end.

(** [parseFloat] and [Number] on the decimal literals [-?\d+(\.\d+)?],
    the only strings the scraper hands to them: the binary64 value nearest
    to the decimal. Other strings are not read (they give [NaN] here). *)
Definition parseFloat (s : str) : float :=
  let '(neg, body) :=
    match s with
    | c :: t => if N.eqb c 45 then (true, t) else (false, s)
    | [] => (false, s)
    end in
  let '(ip, fp) := split_dot body in
  let fp' := match fp with Some f => f | None => [] end in
  match ip, fp with
  | [], _ | _, Some [] => S754_nan
  | _, _ =>
      match digits_value 0 (ip ++ fp') with
      | Some n => ratio neg n (pow10 (List.length fp'))
      | None => S754_nan
      end
  end.

(** [+x.toFixed(2)]: [toFixed] prints the integer [n] for which
    [n / 100 - |x|] is closest to zero (the larger [n] on a tie) with two
    decimals and the sign of [x] (both zeros print as "0.00"); unary plus
    reads the string back. Values that are not finite, or of magnitude 1e21
    and above, are printed by [ToString] and read back unchanged. *)
Definition nearest_hundredths (m : positive) (e : Z) : Z :=
  match e with
  | Zneg p => (2 * (Zpos m * 100) + 2 ^ Zpos p) / 2 ^ (Zpos p + 1)
  | _ => Zpos m * 100 * 2 ^ e
  end.

Definition toFixed2 (x : float) : float :=
  match x with
  | S754_finite s m e =>
      if flt (S754_finite false m e) (of_Z (10 ^ 21))
      then ratio s (nearest_hundredths m e) 100
      else x
  | S754_zero _ => S754_zero false
  | _ => x
  end.

End Num.

(* ===================================================================== *)
(** ** coa-scraper.cjs *)
(* ===================================================================== *)

Module Coa.

Import JsString Regex Num.

(** *** Known terpenes and synonyms *)

Definition KNOWN_TERPENES : list str := map js
  [ "myrcene"; "limonene"; "linalool"; "terpinolene"; "caryophyllene"; "humulene";
    "alpha-pinene"; "beta-pinene"; "pinene"; "ocimene"; "farnesene"; "nerolidol";
    "bisabolol"; "eucalyptol"; "camphene"; "borneol"; "caryophyllene-oxide"; "cedrol";
    "guaiol"; "sabinene"; "terpineol"; "geraniol"; "isopulegol"; "pulegone"; "phytol";
    "fenchyl alcohol" ]%string.

Definition SYN : list (str * str) :=
  map (fun kv => (js (fst kv), js (snd kv)))
  [ ("β-caryophyllene", "caryophyllene");
    ("b-caryophyllene", "caryophyllene");
    ("beta-caryophyllene", "caryophyllene");
    ("caryophyllene oxide", "caryophyllene-oxide");
    ("α-humulene", "humulene");
    ("a-humulene", "humulene");
    ("d-limonene", "limonene");
    ("1,8-cineole", "eucalyptol");
    ("α-pinene", "alpha-pinene");
    ("a-pinene", "alpha-pinene");
    ("β-pinene", "beta-pinene");
    ("b-pinene", "beta-pinene");
    ("trans-caryophyllene", "caryophyllene");
    ("fenchol", "fenchyl alcohol");
    ("β-myrcene", "myrcene");
    ("b-myrcene", "myrcene") ]%string.

(** [SYN[raw]]: the own properties of the frozen object. Under the
    names a plain object inherits (of the lower-case ones, [constructor]
    and [__proto__]) JavaScript finds a value too; no pattern of the
    scraper reads such a name from a text, and what is stated below about
    [canonTerp] on every name leaves them out. *)
Fixpoint lookup (k : str) (tbl : list (str * str)) : option str :=
  match tbl with
  | [] => None
  | (k', v) :: t => if str_eqb k k' then Some v else lookup k t
  end.

(** *** Utils *)

(* /-?\d+(?:\.\d+)?/ *)
Definition re_float : regex :=
  seqs [opt (chr "-"); plus digit; opt (Seq (chr ".") (plus digit))].

Definition toFloatSafe (x : option str) : option float :=
  match x with
  | None => None
  | Some s =>
      match exec false re_float (replaceAll false (chr ",") (fun _ => []) s) with
      | Some m => Some (parseFloat (m_text m))
      | None => None
      end
  end.

Inductive unit_ := Percent | MgPerG | UgPerG.

(* \s*\/\s*g *)
Definition re_per_g : regex := seqs [star space; chr "/"; star space; chr "g"].

Definition unitFrom (s : str) : option unit_ :=
  match s with
  | [] => None
  | _ =>
      let t := toLowerCase s in
      if test false (chr "%") t then Some Percent
      else if test false (Seq (lit "mg") re_per_g) t then Some MgPerG
      else if test false (Alt (Seq (lit "µg") re_per_g) (Seq (lit "ug") re_per_g)) t
      then Some UgPerG
      else None
  end.

Definition ten : float := of_Z 10.
Definition hundred : float := of_Z 100.

Definition mgPerGToPercent (x : option float) : option float :=
  option_map (fun v => fdiv v ten) x.
Definition ugPerGToPercent (x : option float) : option float :=
  option_map (fun v => fdiv v (of_Z 10000)) x.

(* /alpha[-\s]?pinene|a[-\s]?pinene/i *)
Definition re_alpha_pinene : regex :=
  Alt (seqs [lit "alpha"; opt (Cls false [c1 "-"; CSpace]); lit "pinene"])
      (seqs [lit "a"; opt (Cls false [c1 "-"; CSpace]); lit "pinene"]).
(* /beta[-\s]?pinene|b[-\s]?pinene/i *)
Definition re_beta_pinene : regex :=
  Alt (seqs [lit "beta"; opt (Cls false [c1 "-"; CSpace]); lit "pinene"])
      (seqs [lit "b"; opt (Cls false [c1 "-"; CSpace]); lit "pinene"]).
(* /\bpinene\b/i *)
Definition re_pinene : regex := seqs [WordB; lit "pinene"; WordB].

Definition canonTerp (name : str) : option str :=
  match name with
  | [] => None
  | _ =>
      let raw := trim (toLowerCase name) in
      match lookup raw SYN with
      | Some v => Some v
      | None =>
          if test true re_alpha_pinene name then Some (js "alpha-pinene")
          else if test true re_beta_pinene name then Some (js "beta-pinene")
          else if test true re_pinene name then Some (js "pinene")
          else
            let greek :=
              replaceAll false (chr "β") (fun _ => js "beta-")
                (replaceAll false (chr "α") (fun _ => js "alpha-") raw) in
            match find (fun t => includes greek t) KNOWN_TERPENES with
            | Some t => Some t
            | None => Some raw
            end
      end
  end.

(** [canonTerp (canonTerp x) = canonTerp x], decided. *)
Definition idempotent_at (x : str) : bool :=
  match canonTerp x with
  | Some y => match canonTerp y with Some z => str_eqb z y | None => false end
  | None => true
  end.

(* /(Result\s*%\s*\(total\)|Amount\s*\(%\s*(?:w\/w|wt\/wt)?\)|%\s*(?:w\/w|wt\/wt)
     |% of total terpenes|percent of total)/i *)
Definition re_percent_context : regex :=
  let ww := Alt (lit "w/w") (lit "wt/wt") in
  Grp 1 (alts
    [ seqs [lit "Result"; star space; chr "%"; star space; lit "(total)"];
      seqs [lit "Amount"; star space; lit "(%"; star space; opt ww; chr ")"];
      seqs [chr "%"; star space; ww];
      lit "% of total terpenes";
      lit "percent of total" ]).

Definition hasPercentContext (text : str) : bool := test true re_percent_context text.

(** The loop [while (v > 100) v = v / 10] with a bound on the number of
    iterations; [fixPercentOverflow_runs] below is the loop itself. *)
Fixpoint fixLoop (fuel : nat) (v : float) : float :=
  match fuel with
  | O => v
  | S fuel' => if flt hundred v then fixLoop fuel' (fdiv v ten) else v
  end.

Definition fixPercentOverflow (v : option float) : option float :=
  match v with
  | None => None
  | Some x => Some (fixLoop 400 x)
  end.

(** The executions of the loop body of [fixPercentOverflow] on a number:
    [fixPercentOverflow_runs v r] when the loop started at [v] exits with
    [r]. *)
Inductive fixPercentOverflow_runs : float -> float -> Prop :=
| runs_exit v : flt hundred v = false -> fixPercentOverflow_runs v v
| runs_step v r :
    flt hundred v = true ->
    fixPercentOverflow_runs (fdiv v ten) r ->
    fixPercentOverflow_runs v r.

(** One round of the loop, as a relation from the next value to the
    current one. *)
Definition loop_step (v' v : float) : Prop :=
  flt hundred v = true /\ v' = fdiv v ten.

(* '$1.$2' *)
Definition tmpl_1_dot_2 (m : mres) : str :=
  match group 1 m, group 2 m with
  | Some a, Some b => a ++ js "." ++ b
  | Some a, None => a ++ js "."
  | None, Some b => js "." ++ b
  | None, None => js "."
  end.

(* /(\d)\s*[.,]\s*(\d{2,4})/g *)
Definition re_split_decimal : regex :=
  seqs [Grp 1 digit; star space; Cls false [c1 "."; c1 ","]; star space;
        Grp 2 (between 2 4 digit)].
(* /(\d)\s+(\d{2,4})(?=\s*[%\b])/g, where [\b] inside a class is U+0008 *)
Definition re_spaced_decimal : regex :=
  seqs [Grp 1 digit; plus space; Grp 2 (between 2 4 digit);
        Look (Seq (star space) (Cls false [c1 "%"; CChar 8%N]))].

Definition joinWeirdDecimals (s : str) : str :=
  replaceAll false re_spaced_decimal tmpl_1_dot_2
    (replaceAll false re_split_decimal tmpl_1_dot_2 s).

(* /\s{2,}/g *)
Definition re_spaces2 : regex := atleast 2 space.

Definition collapse_spaces (s : str) : str :=
  replaceAll false re_spaces2 (fun _ => js " ") s.

(** *** Parsers *)

(* [:\-] *)
Definition sep : regex := Cls false [c1 ":"; c1 "-"].

(* LABEL\s*[:\-]\s*(.+) *)
Definition labelled (label : regex) : regex :=
  seqs [WordB; label; star space; sep; star space; Grp 1 (plus Dot)].

Definition strain_patterns : list regex :=
  [ (* /\bStrain\s*[:\-]\s*(.+)/i *)
    labelled (lit "Strain");
    (* /\bCultivar\(s\)?\s*[:\-]\s*(.+)/i *)
    labelled (Seq (lit "Cultivar(s") (opt (chr ")")));
    (* /\bSample\s*Alias\s*[:\-]\s*(.+)/i *)
    labelled (seqs [lit "Sample"; star space; lit "Alias"]);
    (* /\bProduct\s*Name\s*[:\-]\s*(.+)/i *)
    labelled (seqs [lit "Product"; star space; lit "Name"]);
    (* /\bCultivars?\s*[:\-]\s*(.+)/i *)
    labelled (Seq (lit "Cultivar") (opt (chr "s"))) ].

(* m[1].replace(/\r|\n/g,' ').replace(/\s{2,}/g,' ').trim() *)
Definition clean_value (v : str) : str :=
  trim (collapse_spaces
          (replaceAll false (Alt (Chr 13%N) (Chr 10%N)) (fun _ => js " ") v)).

Definition capture1 (m : mres) : str :=
  match group 1 m with Some v => v | None => [] end.

Fixpoint first_match (text : str) (pats : list regex) : option str :=
  match pats with
  | [] => None
  | re :: pats' =>
      match exec true re text with
      | Some m => Some (clean_value (capture1 m))
      | None => first_match text pats'
      end
  end.

Definition parseStrain (text : str) : option str := first_match text strain_patterns.

(* /([A-Za-zµβα\-\.\/\(\)\s]*?(?:caryophyllene|pinene|myrcene|limonene|linalool
     |humulene|terpinolene|ocimene|farnesene|nerolidol|bisabolol|eucalyptol
     |fenchyl(?:\s+alcohol)?))/i *)
Definition nameRegex : regex :=
  Grp 1 (Seq
    (Rep false 0 None
       (Cls false [rng "A" "Z"; rng "a" "z"; c1 "µ"; c1 "β"; c1 "α"; c1 "-";
                   c1 "."; c1 "/"; c1 "("; c1 ")"; CSpace]))
    (alts [ lit "caryophyllene"; lit "pinene"; lit "myrcene"; lit "limonene";
            lit "linalool"; lit "humulene"; lit "terpinolene"; lit "ocimene";
            lit "farnesene"; lit "nerolidol"; lit "bisabolol"; lit "eucalyptol";
            Seq (lit "fenchyl") (opt (Seq (plus space) (lit "alcohol"))) ])).

(* /(-?\d{1,3})(?:\s*[.,]\s*(\d{1,4}))?\s*(%|mg\s*\/\s*g|µg\s*\/\s*g|ug\s*\/\s*g)?/gi *)
Definition re_nums : regex :=
  seqs [ Grp 1 (Seq (opt (chr "-")) (between 1 3 digit));
         opt (seqs [star space; Cls false [c1 "."; c1 ","]; star space;
                    Grp 2 (between 1 4 digit)]);
         star space;
         opt (Grp 3 (alts [ chr "%"; Seq (lit "mg") re_per_g;
                            Seq (lit "µg") re_per_g; Seq (lit "ug") re_per_g ])) ].

Record row := Row { name : str; percent : float }.

(* n[3] || '' *)
Definition unit_text (n : mres) : str :=
  match group 3 n with Some u => u | None => [] end.

Definition or_else {A} (a : option A) (b : option A) : option A :=
  match a with Some _ => a | None => b end.

(** The measurement token of a line: explicit [%], then [mg], then any
    unit with a [g], then (under a percent header) the last number. *)
Definition pick_measure (percentByHeader : bool) (nums : list mres) : option mres :=
  or_else (find (fun n => includes (unit_text n) (js "%")) nums)
  (or_else (find (fun n => includes (toLowerCase (unit_text n)) (js "mg")) nums)
  (or_else (find (fun n => includes (toLowerCase (unit_text n)) (js "g")) nums)
           (if percentByHeader then last (map Some nums) None else None))).

(** One iteration of the loop over the lines: the row pushed for
    [rawLine], or [None] where the loop [continue]s. *)
Definition terpene_row (percentByHeader : bool) (rawLine : str) : option row :=
  let line := joinWeirdDecimals (trim (collapse_spaces rawLine)) in
  match exec true nameRegex line with
  | None => None
  | Some nm =>
      match canonTerp (capture1 nm) with
      | None | Some [] => None
      | Some nam =>
          match pick_measure percentByHeader (matchAll true re_nums line) with
          | None => None
          | Some pick =>
              let whole := capture1 pick in
              let frac := match group 2 pick with Some f => f | None => [] end in
              let val := toFloatSafe
                (Some (match frac with [] => whole | _ => whole ++ js "." ++ frac end)) in
              let unit :=
                or_else (unitFrom (unit_text pick))
                        (if percentByHeader then Some Percent else None) in
              match val, unit with
              | Some _, Some u =>
                  let val' :=
                    match u with
                    | Percent => fixPercentOverflow val
                    | MgPerG => mgPerGToPercent val
                    | UgPerG => ugPerGToPercent val
                    end in
                  match val' with
                  | Some v => if isNaN v then None else Some (Row nam v)
                  | None => None
                  end
              | _, _ => None
              end
          end
      end
  end.

Fixpoint filter_map {A B} (f : A -> option B) (l : list A) : list B :=
  match l with
  | [] => []
  | a :: t => match f a with Some b => b :: filter_map f t | None => filter_map f t end
  end.

(** The [Map] named [best]: keys in insertion order; [set] on a present
    key replaces the value in place. *)
Fixpoint best_get (k : str) (best : list (str * row)) : option row :=
  match best with
  | [] => None
  | (k', r) :: t => if str_eqb k k' then Some r else best_get k t
  end.

Fixpoint best_set (k : str) (r : row) (best : list (str * row)) : list (str * row) :=
  match best with
  | [] => [(k, r)]
  | (k', r') :: t => if str_eqb k k' then (k, r) :: t else (k', r') :: best_set k r t
  end.

Definition keep_best (best : list (str * row)) (r : row) : list (str * row) :=
  match best_get (name r) best with
  | None => best_set (name r) r best
  | Some prev => if flt (percent prev) (percent r) then best_set (name r) r best else best
  end.

(** The invariant of [best]: distinct keys, each row under its name. *)
Definition best_ok (best : list (str * row)) : Prop :=
  NoDup (map fst best) /\ Forall (fun kr => name (snd kr) = fst kr) best.

(* /\r?\n/ *)
Definition re_newline : regex := Seq (opt (Chr 13%N)) (Chr 10%N).

Definition terpene_rows (text : str) : list row :=
  filter_map (terpene_row (hasPercentContext text)) (split false re_newline text).

Definition collectTerpenesAsPercent (text : str) : list row :=
  map snd (fold_left keep_best (terpene_rows text) []).

(** [Array.prototype.sort] with a comparator: stable; [a] goes before [b]
    when the comparator is negative. *)
Definition negative (x : float) : bool := flt x (S754_zero false).

Fixpoint insert_by (cmp : row -> row -> float) (x : row) (l : list row) : list row :=
  match l with
  | [] => [x]
  | y :: t => if negative (cmp x y) then x :: y :: t else y :: insert_by cmp x t
  end.

Definition sort_by (cmp : row -> row -> float) (l : list row) : list row :=
  fold_left (fun acc x => insert_by cmp x acc) l [].

(* (a,b) => b.percent - a.percent *)
Definition by_percent_desc (a b : row) : float := fsub (percent b) (percent a).

(** [a] may stand before [b]: the comparator does not put [b] first. *)
Definition in_order (a b : row) : Prop := negative (by_percent_desc b a) = false.

Definition half : float := parseFloat (js "0.5").

Definition has_name (n : string) (rows : list row) : bool :=
  existsb (fun r => str_eqb (name r) (js n)) rows.

Definition halve_pinene (r : row) : row :=
  if str_eqb (name r) (js "pinene") then Row (name r) (fmul (percent r) half) else r.

Definition pickTopTerpenes (text : str) (limit : nat) : list str :=
  match collectTerpenesAsPercent text with
  | [] => []
  | rows =>
      let rows1 := sort_by by_percent_desc rows in
      let rows2 :=
        if has_name "alpha-pinene" rows1 || has_name "beta-pinene" rows1
        then sort_by by_percent_desc (map halve_pinene rows1)
        else rows1 in
      map name (firstn limit rows2)
  end.

(** *** THC parsing *)

Definition normalizeForTHC (text : str) : str :=
  joinWeirdDecimals
    (collapse_spaces
       (replaceAll false (plus (Cls false [CChar 13%N; CChar 10%N])) (fun _ => js " ") text)).

Definition firstNumber (re : regex) (s : str) : option float :=
  match exec true re s with
  | Some m => toFloatSafe (group 1 m)
  | None => None
  end.

(* LABEL[^0-9]{0,40}(\d{1,n}(?:[.,]\d{1,2})?)\s*UNIT *)
Definition thc_value (label : regex) (n : nat) (unit : regex) : regex :=
  seqs [ label; between 0 40 (Cls true [rng "0" "9"]);
         Grp 1 (Seq (between 1 n digit)
                    (opt (Seq (Cls false [c1 "."; c1 ","]) (between 1 2 digit))));
         star space; unit ].

Definition u_pct : regex := chr "%".
(* mg\s*\/\s*g *)
Definition u_mg : regex := Seq (lit "mg") re_per_g.

(* \bTotal\s+(?:Active\s+)?THC\b *)
Definition l_total : regex :=
  seqs [WordB; lit "Total"; plus space; opt (Seq (lit "Active") (plus space));
        lit "THC"; WordB].
(* \bTHC[\s\-]?A\b *)
Definition l_thca : regex :=
  seqs [WordB; lit "THC"; opt (Cls false [CSpace; c1 "-"]); lit "A"; WordB].
(* \bTHCa\b *)
Definition l_thca' : regex := seqs [WordB; lit "THCa"; WordB].
(* \b(?:Delta|Δ)\s*[-]?\s*9\s*[-]?\s*THC\b *)
Definition l_d9 : regex :=
  seqs [ WordB; Alt (lit "Delta") (chr "Δ"); star space; opt (Cls false [c1 "-"]);
         star space; chr "9"; star space; opt (Cls false [c1 "-"]); star space;
         lit "THC"; WordB ].
(* \bD(?:elta)?-?9\b *)
Definition l_d9' : regex :=
  seqs [WordB; chr "D"; opt (lit "elta"); opt (chr "-"); chr "9"; WordB].

Record thc := Thc { totalPercent : option float }.

Definition coeff : float := parseFloat (js "0.877").
Definition zero : float := S754_zero false.

(* x ?? 0 *)
Definition or_zero (x : option float) : float :=
  match x with Some v => v | None => zero end.

(** The direct readings and the two components, as [parseTHC] computes
    them from the flattened text. *)
Definition total_pct (flat : str) : option float := firstNumber (thc_value l_total 2 u_pct) flat.
Definition total_mg (flat : str) : option float := firstNumber (thc_value l_total 3 u_mg) flat.

Definition thca_of (flat : str) : option float :=
  let thcaPct := or_else (firstNumber (thc_value l_thca 2 u_pct) flat)
                         (firstNumber (thc_value l_thca' 2 u_pct) flat) in
  let thcaMg := or_else (firstNumber (thc_value l_thca 3 u_mg) flat)
                        (firstNumber (thc_value l_thca' 3 u_mg) flat) in
  or_else thcaPct (mgPerGToPercent thcaMg).

Definition d9_of (flat : str) : option float :=
  let d9Pct := or_else (firstNumber (thc_value l_d9 2 u_pct) flat)
                       (firstNumber (thc_value l_d9' 2 u_pct) flat) in
  let d9Mg := or_else (firstNumber (thc_value l_d9 3 u_mg) flat)
                      (firstNumber (thc_value l_d9' 3 u_mg) flat) in
  or_else d9Pct (mgPerGToPercent d9Mg).

(* +(0.877*(thca ?? 0) + (d9 ?? 0)).toFixed(2) *)
Definition computed (thca d9 : option float) : float :=
  toFixed2 (fadd (fmul coeff (or_zero thca)) (or_zero d9)).

Definition parseTHC (text : str) : thc :=
  let flat := normalizeForTHC text in
  match total_pct flat with
  | Some pct => Thc (Some pct)
  | None =>
      match total_mg flat with
      | Some mg => Thc (mgPerGToPercent (Some mg))
      | None =>
          let thca := thca_of flat in
          let d9 := d9_of flat in
          match thca, d9 with
          | None, None => Thc None
          | _, _ => Thc (Some (computed thca d9))
          end
      end
  end.

(** *** Type extractors *)

(* /\b(Sativa|Indica|Hybrid)\b/i *)
Definition re_sih : regex :=
  seqs [WordB; Grp 1 (alts [lit "Sativa"; lit "Indica"; lit "Hybrid"]); WordB].

Definition pickSih (text : str) : option str :=
  match exec true re_sih text with
  | Some m => group 1 m
  | None => None
  end.

(* /\bType\s*[:\-]\s*([^\n]+?)(?=\s{2,}|\n|$)/i *)
Definition re_type_row : regex :=
  seqs [ WordB; lit "Type"; star space; sep; star space;
         Grp 1 (Rep false 1 None (Cls true [CChar 10%N]));
         Look (alts [atleast 2 space; Chr 10%N; Eos]) ].

Definition pickTypeRow (text : str) : option str :=
  match exec true re_type_row text with
  | Some m => Some (trim (capture1 m))
  | None => None
  end.

(** The empty string is falsy: [if (sih)], [if (!row)], [sihTail || row]. *)
Definition truthy (s : option str) : option str :=
  match s with
  | Some (_ :: _) => s
  | _ => None
  end.

Definition extractType (text : str) : option str :=
  match truthy (pickSih text) with
  | Some sih => Some sih
  | None =>
      match truthy (pickTypeRow text) with
      | None => None
      | Some row =>
          match truthy (pickSih row) with
          | Some sihTail => Some sihTail
          | None => Some row
          end
      end
  end.

(** *** parseCoa: the record assembled from the text of the document *)

Record coa := Coa {
  sourceUrl : str;
  strain : option str;
  type : option str;
  dominantTerpene : option str;
  otherTerpenes : list str;
  thc_ : thc
}.

(** [url] is the locator and [text] what [fetchDoc] with [pdfText] or
    cheerio returned for it. *)
Definition parseCoa (url text : str) : coa :=
  let names := pickTopTerpenes text 3 in
  {| sourceUrl := url;
     strain := parseStrain text;
     type := extractType text;
     dominantTerpene := hd_error names;
     otherTerpenes := skipn 1 names;
     thc_ := Thc (totalPercent (parseTHC text)) |}.

End Coa.

(* ===================================================================== *)
(** ** server.mjs: type helpers *)
(* ===================================================================== *)

Module Server.

Import JsString Regex.

Definition TYPE_MAP : list (str * str) :=
  [ (js "I", js "Indica"); (js "H", js "Hybrid"); (js "S", js "Sativa") ].

(* /-([IHS])-[A-Z]{2}\b/ *)
Definition re_code : regex :=
  seqs [ chr "-"; Grp 1 (Cls false [c1 "I"; c1 "H"; c1 "S"]); chr "-";
         between 2 2 (Cls false [rng "A" "Z"]); WordB ].

(** The product-code suffix, in words: at index [i] of [text] stand a
    hyphen, the letter [L] (one of I, H, S), a hyphen and two capitals, and
    the input ends there or goes on with a unit that is no letter, digit or
    underscore. *)
Definition code_suffix_at (text : str) (i : nat) (L : char) : Prop :=
  exists pre a b post,
    text = pre ++ js "-" ++ [L] ++ js "-" ++ [a; b] ++ post /\
    List.length pre = i /\ In L (js "IHS") /\
    in_range 65%N 90%N a = true /\ in_range 65%N 90%N b = true /\
    opt_word (hd_error post) = false.

(* /\b(Indica|Sativa|Hybrid)\b/i *)
Definition re_words : regex :=
  seqs [WordB; Grp 1 (alts [lit "Indica"; lit "Sativa"; lit "Hybrid"]); WordB].

(* m[1][0].toUpperCase() + m[1].slice(1).toLowerCase() *)
Definition capitalize (w : str) : str :=
  match w with
  | [] => []
  | c :: t => toUpperUnit c :: toLowerCase t
  end.

Definition parseType (text : str) : option str :=
  match text with
  | [] => None
  | _ =>
      match exec false re_code text with
      | Some m => Coa.lookup (toUpperCase (Coa.capture1 m)) TYPE_MAP
      | None =>
          match exec true re_words text with
          | Some m => Some (capitalize (Coa.capture1 m))
          | None => None
          end
      end
  end.

(* String(name || '').toLowerCase().replace(/[^a-z0-9]+/g, '') *)
Definition toId (name : option str) : str :=
  replaceAll false (plus (Cls true [rng "a" "z"; rng "0" "9"])) (fun _ => [])
    (toLowerCase (match name with Some s => s | None => [] end)).

(** [String(type || '')]: null, undefined and the empty string give the
    empty string. *)
Definition typeToBucket (type : option str) : str :=
  let t := toLowerCase (match type with Some s => s | None => [] end) in
  if startsWith (js "indi") t then js "indica_leaning"
  else if startsWith (js "sati") t then js "sativa_leaning"
  else js "hybrid".

Definition bucketToLean (bucket : str) : str :=
  if str_eqb bucket (js "indica_leaning") then js "Indica-leaning"
  else if str_eqb bucket (js "sativa_leaning") then js "Sativa-leaning"
  else [].

(** The pattern is [/\b(Sativa|Indica|Hybrid)\b/i], that of [pickSih]. *)
Definition guessBucketFromText (text : str) : str :=
  match exec true Coa.re_sih text with
  | None => js "hybrid"
  | Some m =>
      let v := toLowerCase (Coa.capture1 m) in
      if str_eqb v (js "sativa") then js "sativa_leaning"
      else if str_eqb v (js "indica") then js "indica_leaning"
      else js "hybrid"
  end.

Definition bucketFromType (t : option str) : str :=
  match Coa.truthy t with
  | None => js "hybrid"
  | Some t =>
      if str_eqb t (js "Indica") then js "indica_leaning"
      else if str_eqb t (js "Sativa") then js "sativa_leaning"
      else js "hybrid"
  end.

(** The [bucket] field of the record [scrapeTrulieveLabPdf] returns, from
    the text of the PDF:
    [type ? typeToBucket(type) : guessBucketFromText(text)] with
    [type = parseType(text)]. *)
Definition scraped_bucket (text : str) : str :=
  match Coa.truthy (parseType text) with
  | Some type => typeToBucket (Some type)
  | None => guessBucketFromText text
  end.

End Server.

(* ===================================================================== *)
(** ** Sample documents *)
(* ===================================================================== *)

Module Samples.

Import JsString Num.

Definition LF : str := [10%N].

Definition doc_total_and_parts : str :=
  js "Total THC: 18.5%" ++ LF ++ js "THCA: 20%, Delta-9 THC: 0.5%".


Definition doc_item_row : str := js "Item: Wedding Cake".

Definition doc_product_code : str := js "TRU-Flower-I-FL".

Definition doc_short_code : str := js "LOT-I-7".

Definition overflowed : float := parseFloat (js "1050").

End Samples.

(* ===================================================================== *)
(** ** server.mjs: the terpene ranking of the PDF scraper *)
(* ===================================================================== *)

Module Lab.

Import JsString Num.

(** A pair [{ name, pct }] of [extractTerpenesSmart]: the record of the
    scraper's rows, [pct] being its [percent]. *)
Definition pair := Coa.row.
Definition pct : pair -> float := Coa.percent.

(* Number.isFinite *)
Definition isFinite (x : float) : bool :=
  match x with
  | S754_zero _ | S754_finite _ _ _ => true
  | _ => false
  end.

(* p => Number.isFinite(p.pct) && p.pct > 0 *)
Definition positive_pct (p : pair) : bool := isFinite (pct p) && flt Coa.zero (pct p).

(* (a, b) => b.pct - a.pct *)
Definition by_pct_desc (a b : pair) : float := fsub (pct b) (pct a).

Definition pickTopTerpenes (pairs : list pair) (max : nat) : list str :=
  let sorted := Coa.sort_by by_pct_desc (filter positive_pct pairs) in
  map Coa.name (firstn max sorted).

End Lab.

(* ===================================================================== *)
(** ** server.mjs: the array STRAINS *)
(* ===================================================================== *)

Module Db.

Import JsString.

Section Store.

(** A stored object and the string form of its [id] field,
    [String(x.id)]. *)
Variable strain : Type.
Variable id : strain -> str.

(* STRAINS.findIndex(p) *)
Fixpoint findIndex (p : strain -> bool) (l : list strain) : option nat :=
  match l with
  | [] => None
  | x :: t => if p x then Some 0 else option_map S (findIndex p t)
  end.

(* STRAINS[i] = s, for an index inside the array *)
Fixpoint assign (i : nat) (s : strain) (l : list strain) : list strain :=
  match l, i with
  | [], _ => []
  | _ :: t, O => s :: t
  | x :: t, S i' => x :: assign i' s t
  end.

(* (x) => String(x.id) === String(s.id) *)
Definition same_id (s x : strain) : bool := str_eqb (id x) (id s).

(** [upsertStrain] as a function of the array [STRAINS]; the write of the
    JSON file that follows is not part of the state modelled. *)
Definition upsertStrain (s : strain) (STRAINS : list strain) : list strain :=
  match findIndex (same_id s) STRAINS with
  | Some i => assign i s STRAINS
  | None => s :: STRAINS
  end.

(** The lookup of [GET /api/strains/:id]:
    [STRAINS.find(x => String(x.id).toLowerCase() === id)] with
    [id = String(req.params.id || '').trim().toLowerCase()]. *)
Definition getStrain (param : str) (STRAINS : list strain) : option strain :=
  let key := toLowerCase (trim param) in
  find (fun x => str_eqb (toLowerCase (id x)) key) STRAINS.

(** The first entry stored under an id, by exact comparison. *)
Definition stored (k : str) (STRAINS : list strain) : option strain :=
  find (fun x => str_eqb (id x) k) STRAINS.

End Store.

Arguments findIndex {strain} p l.
Arguments assign {strain} i s l.
Arguments same_id {strain} id s x.
Arguments upsertStrain {strain} id s STRAINS.
Arguments getStrain {strain} id param STRAINS.
Arguments stored {strain} id k STRAINS.

End Db.

(* ===================================================================== *)
(** ** server.mjs: ids *)
(* ===================================================================== *)

Module Ids.

Import JsString Regex.

(* s.split(sep) for a separator of one unit *)
Fixpoint split_on (sep : char) (s : str) : list str :=
  match s with
  | [] => [[]]
  | c :: t =>
      if N.eqb c sep then [] :: split_on sep t
      else match split_on sep t with
           | h :: r => (c :: h) :: r
           | [] => [[c]]
           end
  end.

(* x => Boolean(x), on strings *)
Definition nonempty (s : str) : bool := match s with [] => false | _ => true end.

Section Url.

(** [new URL(code).pathname], or [None] where the constructor throws. *)
Variable pathname : str -> option str.

(* (u.pathname.split('/').filter(Boolean).pop() || '') *)
Definition last_segment (path : str) : str :=
  last (filter nonempty (split_on 47%N path)) [].

(** [makeId(s)] from the fields it reads: [id] is [String(s.id)] when
    [s.id] is truthy, [code] is [String(s.code)] when [s.code] is truthy,
    [name] is [s.name]. *)
Definition makeId (id code name : option str) : str :=
  match id with
  | Some i => i
  | None =>
      let by_name := Server.toId name in
      match code with
      | Some c =>
          match pathname c with
          | Some path =>
              let digits :=
                replaceAll false (plus (Cls true [CDigit])) (fun _ => [])
                           (last_segment path) in
              match digits with
              | [] => by_name
              | _ => digits
              end
          | None => by_name
          end
      | None => by_name
      end
  end.

End Url.
End Ids.

(* ===================================================================== *)
(** ** Notions used in the statements and proofs *)
(* ===================================================================== *)

Module Scan.

Import JsString Regex.

Fixpoint take_while (ok : char -> bool) (s : str) : str :=
  match s with
  | c :: t => if ok c then c :: take_while ok t else []
  | [] => []
  end.

Fixpoint drop_while (ok : char -> bool) (s : str) : str :=
  match s with
  | c :: t => if ok c then drop_while ok t else s
  | [] => []
  end.

(** What a pattern matches at the head of an input: the text of the match
    and its captures. *)
Definition scanner := str -> option (str * list (nat * str)).

(** [at_] describes the matches of [r]: they depend on the input ahead
    only, are never empty and are a prefix of the input. *)
Definition scans (ic : bool) (r : regex) (at_ : scanner) : Prop :=
  (forall prev s idx,
     match_here ic r prev s idx =
       match at_ s with
       | Some (u, caps) =>
           Some (MRes idx u caps (unit_before prev u) (skipn (List.length u) s))
       | None => None
       end) /\
  (forall s u caps, at_ s = Some (u, caps) -> u <> [] /\ firstn (List.length u) s = u).

(** The left-to-right rewriting [replace] does with a global pattern
    described by [at_]: [g] builds the replacement of a match. *)
Fixpoint rewrite_with (at_ : scanner) (g : str -> list (nat * str) -> str)
    (fuel : nat) (s : str) : str :=
  match fuel with
  | O => s
  | S fuel' =>
      match at_ s with
      | Some (u, caps) => g u caps ++ rewrite_with at_ g fuel' (skipn (List.length u) s)
      | None =>
          match s with
          | [] => []
          | c :: t => c :: rewrite_with at_ g fuel' t
          end
      end
  end.

(* one unit accepted by [ok] *)
Definition unit_scan (ok : char -> bool) : scanner := fun s =>
  match s with
  | c :: _ => if ok c then Some ([c], []) else None
  | [] => None
  end.

(* a longest run of at least [lo] units accepted by [ok] *)
Definition run_scan (ok : char -> bool) (lo : nat) : scanner := fun s =>
  let u := take_while ok s in
  if Nat.leb lo (List.length u) then Some (u, []) else None.

(** The unit test of a one-unit pattern. *)
Definition unit_test (ic : bool) (r : regex) : option (char -> bool) :=
  match r with
  | Chr c => Some (fun ch => N.eqb (canon ic c) (canon ic ch))
  | Dot => Some (fun ch => negb (is_line_terminator ch))
  | Cls neg items => Some (cls_mem ic neg items)
  | _ => None
  end.

(** The state after the literal [w], read at the head of the input. *)
Fixpoint lit_prefix (ic : bool) (w : str) (st : mstate) : option mstate :=
  match w with
  | [] => Some st
  | c :: w' =>
      match ms_rest st with
      | ch :: tl =>
          if N.eqb (canon ic c) (canon ic ch)
          then lit_prefix ic w' (MState (Some ch) tl (ms_caps st))
          else None
      | [] => None
      end
  end.

(** [u] spells [w], unit by unit, up to the case folding of the [i]
    flag. *)
Definition same_letters (ic : bool) (w u : str) : Prop :=
  Forall2 (fun c ch => canon ic c = canon ic ch) w u.

Definition is_letter (c : char) : bool := in_range 65%N 90%N c || in_range 97%N 122%N c.

Definition lit_of (w : str) : regex := fold_right (fun c r => Seq (Chr c) r) Eps w.

(* /\b(a|b|c)\b/ *)
Definition word3 (a b c : str) : regex :=
  seqs [WordB; Grp 1 (alts [lit_of a; lit_of b; lit_of c]); WordB].

Definition word_end (st st' : mstate) : option mstate :=
  let st'' := MState (ms_prev st') (ms_rest st')
                     (cap_set 1 (consumed st st') (ms_caps st')) in
  if at_boundary st'' then Some st'' else None.

Definition word_at (w : str) (st : mstate) : option mstate :=
  match lit_prefix true w st with
  | Some st' => word_end st st'
  | None => None
  end.

End Scan.

Module Notions.

Import JsString Num.

(** The three lineage names [parseType] can return. *)
Definition lineages : list str := [js "Indica"; js "Sativa"; js "Hybrid"].

(** The units an id made by [toId] is written with. *)
Definition id_unit (c : char) : bool := in_range 97%N 122%N c || in_range 48%N 57%N c.

(** No two whitespace units stand side by side. *)
Fixpoint single_spaced (s : str) : bool :=
  match s with
  | c :: t =>
      negb (is_space c && match t with d :: _ => is_space d | [] => false end)
      && single_spaced t
  | [] => true
  end.

(** The first unit is whitespace. *)
Definition hd_space (s : str) : bool :=
  match s with c :: _ => is_space c | [] => false end.

(* \r or \n *)
Definition is_break (c : char) : bool := N.eqb 13 c || N.eqb 10 c.

(** A name in the form of a key: lower case, no whitespace at either
    end. *)
Definition key_form (n : str) : bool := str_eqb (toLowerCase n) n && str_eqb (trim n) n.

(** The names of a list in the order of their first occurrence. *)
Definition note_name (seen : list str) (n : str) : list str :=
  if existsb (str_eqb n) seen then seen else seen ++ [n].

Definition first_seen (names : list str) : list str := fold_left note_name names [].

(** The place of a number in the order of [<]: class, then exponent, then
    mantissa (both negated for negative numbers). *)
Definition forder (x : float) : Z * (Z * Z) :=
  match x with
  | S754_infinity true => (-2, (0, 0))
  | S754_finite true m e => (-1, (- e, - Zpos m))
  | S754_zero _ => (0, (0, 0))
  | S754_nan => (0, (0, 0))
  | S754_finite false m e => (1, (e, Zpos m))
  | S754_infinity false => (2, (0, 0))
  end%Z.

Definition lex_lt (a b : Z * (Z * Z)) : Prop :=
  (fst a < fst b \/ (fst a = fst b /\
    (fst (snd a) < fst (snd b) \/ (fst (snd a) = fst (snd b) /\ snd (snd a) < snd (snd b)))))%Z.

(** The map [best] after the rows [rows]: under each name read stands a
    row read under that name, which no row of that name exceeds. *)
Definition best_max (rows : list Coa.row) (best : list (str * Coa.row)) : Prop :=
  (forall r, In r rows ->
     exists b, Coa.best_get (Coa.name r) best = Some b /\
               flt (Coa.percent b) (Coa.percent r) = false) /\
  (forall k b, Coa.best_get k best = Some b -> In b rows /\ Coa.name b = k).

(** The code units of Latin-1 (below U+0100): on text of these units the
    table [toLowerUnit] is the lower-casing of JavaScript. *)
Definition latin1 (c : char) : bool := N.ltb c 256.

(** The lower-case names a plain object inherits from [Object.prototype]:
    [SYN[raw]] finds a value under them although [SYN] has no such key. *)
Definition inherited_keys : list str := [js "constructor"; js "__proto__"].

(** The rows as they are ranked: where alpha-pinene or beta-pinene is
    among them, the percent of pinene is halved. *)
Definition adjusted (rows : list Coa.row) : list Coa.row :=
  if Coa.has_name "alpha-pinene" rows || Coa.has_name "beta-pinene" rows
  then map Coa.halve_pinene rows else rows.

End Notions.

(* ===================================================================== *)
(** ** What a pattern matches *)
(* ===================================================================== *)

Module Lang.

Import JsString Regex.

(** What a pattern matches, stated without the matcher: [derives ic r p u a]
    when [r] matches the units [u] standing after the unit [p] (none at the
    start of the input) and before the rest [a] of the input. An iteration
    of a quantifier whose lower bound is met consumes at least one unit. *)
Inductive derives (ic : bool) : regex -> option char -> str -> str -> Prop :=
| d_eps p a : derives ic Eps p [] a
| d_chr c ch p a : canon ic c = canon ic ch -> derives ic (Chr c) p [ch] a
| d_dot ch p a : is_line_terminator ch = false -> derives ic Dot p [ch] a
| d_cls neg items ch p a :
    cls_mem ic neg items ch = true -> derives ic (Cls neg items) p [ch] a
| d_seq r1 r2 p u1 u2 a :
    derives ic r1 p u1 (u2 ++ a) -> derives ic r2 (unit_before p u1) u2 a ->
    derives ic (Seq r1 r2) p (u1 ++ u2) a
| d_alt_l r1 r2 p u a : derives ic r1 p u a -> derives ic (Alt r1 r2) p u a
| d_alt_r r1 r2 p u a : derives ic r2 p u a -> derives ic (Alt r1 r2) p u a
| d_rep_done g lo r p a : derives ic (Rep g lo (Some 0) r) p [] a
| d_rep_skip g hi r p a : derives ic (Rep g 0 hi r) p [] a
| d_rep_more g lo hi r p u1 u2 a :
    hi <> Some 0 -> (lo = 0 -> u1 <> []) ->
    derives ic r p u1 (u2 ++ a) ->
    derives ic (Rep g (Nat.pred lo) (option_map Nat.pred hi) r) (unit_before p u1) u2 a ->
    derives ic (Rep g lo hi r) p (u1 ++ u2) a
| d_grp i r p u a : derives ic r p u a -> derives ic (Grp i r) p u a
| d_wordb p a :
    xorb (opt_word p) (opt_word (hd_error a)) = true -> derives ic WordB p [] a
| d_look r p v w : derives ic r p v w -> derives ic (Look r) p [] (v ++ w)
| d_eos p : derives ic Eos p [] [].

(** [m] hands its continuation the state after a string the pattern
    derives; a pattern without groups leaves the captures as they are. *)
Definition sound (ic : bool) (r : regex) (m : cont -> cont) : Prop :=
  forall k st z, m k st = Some z ->
    exists u a caps',
      ms_rest st = u ++ a /\ derives ic r (ms_prev st) u a /\
      k (MState (unit_before (ms_prev st) u) a caps') = Some z /\
      (groups_of r = [] -> caps' = ms_caps st).

(* n is within the upper bound of a quantifier *)
Definition within (hi : option nat) (n : nat) : Prop :=
  match hi with Some h => n <= h | None => True end.

End Lang.

(* ===================================================================== *)
(** ** The readings of [parseTHC], in words *)
(* ===================================================================== *)

Module Readings.

Import JsString Regex Num Coa Scan Lang.

(* '.' or ',' *)
Definition is_sep (c : char) : bool := N.eqb c 46 || N.eqb c 44.

(** The text of a value, [\d{1,n}(?:[.,]\d{1,2})?] in words: one to [n]
    digits, then nothing or a separator and one or two digits. *)
Definition number_text (n : nat) (cap : str) : Prop :=
  exists whole rest,
    cap = whole ++ rest /\
    1 <= List.length whole <= n /\ forallb is_digit whole = true /\
    (rest = [] \/
     exists s frac, rest = s :: frac /\ is_sep s = true /\
                    1 <= List.length frac <= 2 /\ forallb is_digit frac = true).

(* \d{1,n}(?:[.,]\d{1,2})?, the captured part of [thc_value] *)
Definition re_value (n : nat) : regex :=
  Seq (between 1 n digit) (opt (Seq (Cls false [c1 "."; c1 ","]) (between 1 2 digit))).

(** A reading at index [i] of [flat]: there stands what the label pattern
    derives, then at most 40 units that are no digits, then the value text
    [cap], then whitespace or nothing, then what the unit pattern
    derives. *)
Definition reading_at (label : regex) (n : nat) (unit : regex)
    (flat : str) (i : nat) (cap : str) : Prop :=
  exists pre lab gap sp un post,
    flat = pre ++ lab ++ gap ++ cap ++ sp ++ un ++ post /\
    List.length pre = i /\
    derives true label (unit_before None pre) lab (gap ++ cap ++ sp ++ un ++ post) /\
    forallb (fun c => negb (is_digit c)) gap = true /\ List.length gap <= 40 /\
    number_text n cap /\
    forallb is_space sp = true /\
    derives true unit (unit_before None (pre ++ lab ++ gap ++ cap ++ sp)) un post.

(** The label of the total, in words: "Total", whitespace, "Active" and
    whitespace or nothing, "THC", in any case, not joined to a letter,
    digit or underscore before or after. *)
Definition total_label (prev : option char) (lab next : str) : Prop :=
  exists t ws mid h,
    lab = t ++ ws ++ mid ++ h /\
    same_letters true (js "Total") t /\
    ws <> [] /\ forallb is_space ws = true /\
    (mid = [] \/
     exists a ws', mid = a ++ ws' /\ same_letters true (js "Active") a /\
                   ws' <> [] /\ forallb is_space ws' = true) /\
    same_letters true (js "THC") h /\
    opt_word prev = false /\ opt_word (hd_error next) = false.






(** The units, in words: the percent sign; "mg", "/" and "g" with
    whitespace or nothing between them. *)
Definition percent_sign (un : str) : Prop := un = js "%".


(** A reading at index [i] of [flat], in words: the label, at most 40
    units that are no digits, the value text [cap] of one to [n] digits
    with at most two decimals, whitespace or nothing, and the unit. *)
Definition reading (label : option char -> str -> str -> Prop) (n : nat)
    (unit : str -> Prop) (flat : str) (i : nat) (cap : str) : Prop :=
  exists pre lab gap sp un post,
    flat = pre ++ lab ++ gap ++ cap ++ sp ++ un ++ post /\
    List.length pre = i /\
    label (unit_before None pre) lab (gap ++ cap ++ sp ++ un ++ post) /\
    forallb (fun c => negb (is_digit c)) gap = true /\ List.length gap <= 40 /\
    number_text n cap /\
    forallb is_space sp = true /\
    unit un.

(** The readings of the total: in percent a value of one or two digits,
    in mg/g one of one to three digits. *)
Definition total_percent_at (flat : str) (i : nat) (cap : str) : Prop :=
  reading total_label 2 percent_sign flat i cap.


(** The number a value text with a decimal point denotes: the digits
    before and after the point read as one natural number, over the power
    of ten that the digits after the point call for, as the nearest
    binary64 number. *)
Definition digit_value (c : char) : Z := Z.of_N c - 48.

Definition natural (s : str) : Z :=
  fold_left (fun acc c => 10 * acc + digit_value c)%Z s 0%Z.

Definition decimal_value (cap : str) : float :=
  let whole := take_while is_digit cap in
  let frac := match drop_while is_digit cap with _ :: f => f | [] => [] end in
  ratio false (natural (whole ++ frac)) (pow10 (List.length frac)).

(* the first unit is accepted by [ok] *)
Definition hd_ok (ok : char -> bool) (s : str) : bool :=
  match s with c :: _ => ok c | [] => false end.

(** The value text that stands at the head of [y]: the digits, and after
    a separator the digits that follow it. *)
Definition value_text (y : str) : str :=
  let whole := take_while is_digit y in
  match drop_while is_digit y with
  | s :: t => if is_sep s then whole ++ s :: take_while is_digit t else whole
  | [] => whole
  end.

(** What is read from [flat], of the readings [R]: nothing when no
    reading stands in it, or else the number of a leftmost reading; the
    number is the one the digits denote when the value text has no
    comma. *)
Definition reads (R : str -> nat -> str -> Prop) (flat : str)
    (v : option float) : Prop :=
  match v with
  | None => forall i cap, ~ R flat i cap
  | Some x =>
      exists j cap,
        R flat j cap /\
        (forall k cap', R flat k cap' -> j <= k) /\
        (~ In 44%N cap -> x = decimal_value cap)
  end.





(** [n] is the integer nearest to 100 * m * 2^e, the larger one when two
    are equally near. *)
Definition nearest_hundredfold (m : positive) (e : Z) (n : Z) : Prop :=
  ((2 * n - 1) * 2 ^ Z.max (- e) 0 <= 200 * Zpos m * 2 ^ Z.max e 0
   < (2 * n + 1) * 2 ^ Z.max (- e) 0)%Z.


End Readings.

(* ===================================================================== *)
(** ** Sample reports *)
(* ===================================================================== *)

Module Reports.

Import JsString Samples.

(** A report whose total stands on the line after its label, with the
    decimal point set off by blanks. *)
Definition doc_total_split : str :=
  js "Total THC:" ++ [13%N; 10%N] ++ js "18 . 50 %" ++ LF
    ++ js "THCA: 20%, Delta-9 THC: 0.5%".

(** A total with three decimals, and one with a decimal comma. *)
Definition doc_total_three_decimals : str :=
  js "Total THC: 18.567%" ++ LF ++ js "THCA: 20%, Delta-9 THC: 0.5%".

Definition doc_total_comma : str := js "Total THC: 18,5%".




End Reports.

(* ===================================================================== *)
(** * Properties *)
(* ===================================================================== *)

Import JsString Regex Num Coa Server Samples.

(** ** The matcher *)

Lemma str_eqb_eq a : forall b, str_eqb a b = true <-> a = b.
Proof.
  induction a as [ | x a IH]; intros [ | y b]; simpl; split; try easy.
  - intros H. apply andb_prop in H as [Hx Hab].
    apply N.eqb_eq in Hx. apply IH in Hab. congruence.
  - intros H. injection H as -> ->. rewrite N.eqb_refl. now apply IH.
Qed.

Lemma consumed_one p p' c l caps caps' :
  consumed (MState p (c :: l) caps) (MState p' l caps') = [c].
Proof.
  unfold consumed; cbn [ms_rest List.length].
  replace (S (List.length l) - List.length l) with 1 by lia. reflexivity.
Qed.

Lemma unit_before_cons prev c pre :
  unit_before prev (c :: pre) = unit_before (Some c) pre.
Proof.
  unfold unit_before. cbn [map]. generalize (Some c) as x, (map Some pre) as l.
  intros x l. revert x prev.
  induction l as [ | y l IH]; intros x prev; [reflexivity | ].
  change (last (x :: y :: l) prev) with (last (y :: l) prev).
  now rewrite !IH.
Qed.

Section Search.

Variables (ic : bool) (r : regex).

Lemma match_here_index prev s i m :
  match_here ic r prev s i = Some m -> m_index m = i.
Proof.
  unfold match_here. destruct (rmatch ic r Some _); [ | discriminate].
  now intros [= <-].
Qed.

(** [search] returns a match of the pattern at the position it reports. *)
Lemma search_sound : forall s prev idx m,
  search ic r prev s idx = Some m ->
  exists pre s',
    s = pre ++ s' /\ m_index m = idx + List.length pre /\
    match_here ic r (unit_before prev pre) s' (idx + List.length pre) = Some m.
Proof.
  induction s as [ | c s IH]; intros prev idx m; cbn [search];
    destruct (match_here ic r prev _ idx) as [m' | ] eqn:Hm; intros H;
    try discriminate.
  - injection H as <-. exists [], []. cbn [List.length app unit_before map last].
    rewrite Nat.add_0_r. repeat split; trivial. now apply match_here_index in Hm.
  - injection H as <-. exists [], (c :: s). cbn [List.length app unit_before map last].
    rewrite Nat.add_0_r. repeat split; trivial. now apply match_here_index in Hm.
  - destruct (IH _ _ _ H) as (pre & s' & -> & Hidx & Hhere).
    exists (c :: pre), s'. rewrite unit_before_cons. cbn [List.length app].
    replace (idx + S (List.length pre)) with (S idx + List.length pre) by lia.
    repeat split; trivial.
Qed.

(** [search] finds a match no later than any position where the pattern
    matches. *)
Lemma search_complete : forall pre prev s idx m,
  match_here ic r (unit_before prev pre) s (idx + List.length pre) = Some m ->
  exists m', search ic r prev (pre ++ s) idx = Some m' /\
             m_index m' <= idx + List.length pre.
Proof.
  induction pre as [ | c pre IH]; intros prev s idx m H.
  - cbn [app List.length unit_before map last] in *. rewrite Nat.add_0_r in H.
    exists m. split.
    + destruct s; cbn [search]; now rewrite H.
    + apply match_here_index in H. lia.
  - cbn [app search List.length].
    destruct (match_here ic r prev (c :: pre ++ s) idx) as [m0 | ] eqn:H0.
    + exists m0. split; trivial. apply match_here_index in H0. lia.
    + rewrite unit_before_cons in H. cbn [List.length] in H.
      replace (idx + S (List.length pre)) with (S idx + List.length pre) in * by lia.
      destruct (IH _ _ _ _ H) as (m' & Hs & Hle). exists m'. split; trivial.
Qed.

End Search.


(** ** The fuel of the matcher *)

Lemma eat_local ok : local (fun k st => eat st ok k).
Proof.
  intros k1 k2 st H. unfold eat. destruct (ms_rest st) as [ | ch tl] eqn:E; trivial.
  destruct (ok ch); trivial. apply H. unfold shorter. rewrite E. simpl. lia.
Qed.

Lemma repeat_local m gs greedy :
  local m -> forall fuel lo hi, local (repeat m gs greedy fuel lo hi).
Proof.
  intros Hm. induction fuel as [ | fuel IH]; intros lo hi k1 k2 st H; cbn [repeat]; trivial.
  assert (Hk : k1 st = k2 st) by (apply H; unfold shorter; lia).
  assert (Hd : m (fun st' =>
             if Nat.eqb lo 0 && Nat.eqb (List.length (ms_rest st')) (List.length (ms_rest st))
             then None else repeat m gs greedy fuel (Nat.pred lo) (option_map Nat.pred hi) k1 st')
            (MState (ms_prev st) (ms_rest st) (caps_clear gs (ms_caps st)))
          = m (fun st' =>
             if Nat.eqb lo 0 && Nat.eqb (List.length (ms_rest st')) (List.length (ms_rest st))
             then None else repeat m gs greedy fuel (Nat.pred lo) (option_map Nat.pred hi) k2 st')
            (MState (ms_prev st) (ms_rest st) (caps_clear gs (ms_caps st)))).
  { apply Hm. intros st' Hs. destruct (_ && _); trivial.
    apply IH. intros st'' Hs'. apply H. unfold shorter in *. cbn [ms_rest] in Hs. lia. }
  destruct hi as [ [ | hi] | ]; trivial; rewrite Hd, Hk; reflexivity.
Qed.

Lemma rmatch_local ic r : local (rmatch ic r).
Proof.
  induction r as [ | c | | neg items | r1 IH1 r2 IH2 | r1 IH1 r2 IH2
                 | greedy lo hi r IH | i r IH | | r IH | ];
    intros k1 k2 st H; cbn [rmatch].
  - apply H. unfold shorter. lia.
  - now apply eat_local.
  - now apply eat_local.
  - now apply eat_local.
  - apply IH1. intros st' Hs. apply IH2. intros st'' Hs'. apply H.
    unfold shorter in *. lia.
  - rewrite (IH1 k1 k2 st H), (IH2 k1 k2 st H). reflexivity.
  - now apply repeat_local.
  - apply IH. intros st' Hs. apply H. exact Hs.
  - destruct (at_boundary st); trivial. apply H. unfold shorter. lia.
  - destruct (rmatch ic r Some st); trivial. apply H. unfold shorter. simpl. lia.
  - destruct (ms_rest st); trivial. apply H. unfold shorter. lia.
Qed.

(** Beyond lower bound + remaining input, more fuel changes nothing. *)
Lemma repeat_fuel m gs greedy :
  local m ->
  forall f1 f2 lo hi k st,
    lo + List.length (ms_rest st) < f1 -> lo + List.length (ms_rest st) < f2 ->
    repeat m gs greedy f1 lo hi k st = repeat m gs greedy f2 lo hi k st.
Proof.
  intros Hm. induction f1 as [ | f1 IH]; intros f2 lo hi k st H1 H2; [lia | ].
  destruct f2 as [ | f2]; [lia | ]. cbn [repeat].
  assert (Hd : m (fun st' =>
             if Nat.eqb lo 0 && Nat.eqb (List.length (ms_rest st')) (List.length (ms_rest st))
             then None else repeat m gs greedy f1 (Nat.pred lo) (option_map Nat.pred hi) k st')
            (MState (ms_prev st) (ms_rest st) (caps_clear gs (ms_caps st)))
          = m (fun st' =>
             if Nat.eqb lo 0 && Nat.eqb (List.length (ms_rest st')) (List.length (ms_rest st))
             then None else repeat m gs greedy f2 (Nat.pred lo) (option_map Nat.pred hi) k st')
            (MState (ms_prev st) (ms_rest st) (caps_clear gs (ms_caps st)))).
  { apply Hm. intros st' Hs. unfold shorter in Hs. cbn [ms_rest] in Hs.
    destruct (Nat.eqb lo 0) eqn:Elo; cbn [andb].
    - apply Nat.eqb_eq in Elo. subst lo.
      destruct (Nat.eqb_spec (List.length (ms_rest st')) (List.length (ms_rest st))); trivial.
      apply IH; simpl; lia.
    - apply Nat.eqb_neq in Elo. apply IH; lia. }
  destruct hi as [ [ | hi] | ]; trivial; rewrite Hd; reflexivity.
Qed.

Lemma eat_answers ok : answers (fun k st => eat st ok k).
Proof.
  intros k st z. unfold eat. destruct (ms_rest st) as [ | ch tl] eqn:E; [discriminate | ].
  destruct (ok ch); [ | discriminate]. intros H.
  eexists. split; [ | exact H]. unfold shorter. rewrite E. simpl. lia.
Qed.

Lemma repeat_answers m gs greedy :
  answers m -> forall fuel lo hi, answers (repeat m gs greedy fuel lo hi).
Proof.
  intros Hm. induction fuel as [ | fuel IH]; intros lo hi k st z; cbn [repeat];
    [discriminate | ].
  set (d := fun st' : mstate =>
     if Nat.eqb lo 0 && Nat.eqb (List.length (ms_rest st')) (List.length (ms_rest st))
     then None else repeat m gs greedy fuel (Nat.pred lo) (option_map Nat.pred hi) k st').
  set (xr := MState (ms_prev st) (ms_rest st) (caps_clear gs (ms_caps st))).
  assert (Hk : k st = Some z -> exists st', shorter st' st /\ k st' = Some z).
  { intros H. exists st. split; trivial. unfold shorter. lia. }
  assert (Hd : m d xr = Some z -> exists st', shorter st' st /\ k st' = Some z).
  { intros H. apply Hm in H as (st1 & Hs1 & H1). unfold d in H1.
    destruct (_ && _); [discriminate | ].
    apply IH in H1 as (st2 & Hs2 & H2). exists st2. split; trivial.
    unfold shorter in *. cbn [ms_rest xr] in Hs1. lia. }
  destruct hi as [ [ | hi] | ]; trivial;
    destruct (negb (Nat.eqb lo 0)); trivial;
    destruct greedy; [destruct (m d xr) eqn:E | destruct (k st) eqn:E
                     | destruct (m d xr) eqn:E | destruct (k st) eqn:E]; auto;
    intros [= <-]; auto.
Qed.

Lemma rmatch_answers ic r : answers (rmatch ic r).
Proof.
  induction r as [ | c | | neg items | r1 IH1 r2 IH2 | r1 IH1 r2 IH2
                 | greedy lo hi r IH | i r IH | | r IH | ];
    intros k st z; cbn [rmatch].
  - intros H. exists st. split; trivial. unfold shorter. lia.
  - apply eat_answers.
  - apply eat_answers.
  - apply eat_answers.
  - intros H. apply IH1 in H as (st1 & Hs1 & H). apply IH2 in H as (st2 & Hs2 & H).
    exists st2. split; trivial. unfold shorter in *. lia.
  - destruct (rmatch ic r1 k st) eqn:E.
    + intros [= <-]. now apply IH1.
    + apply IH2.
  - now apply repeat_answers.
  - intros H. apply IH in H as (st1 & Hs1 & H). eexists. split; [ | exact H]. exact Hs1.
  - destruct (at_boundary st); [ | discriminate]. intros H.
    exists st. split; trivial. unfold shorter. lia.
  - destruct (rmatch ic r Some st); [ | discriminate]. intros H.
    eexists. split; [ | exact H]. unfold shorter. simpl. lia.
  - destruct (ms_rest st) eqn:E; [ | discriminate]. intros H.
    exists st. split; trivial. unfold shorter. lia.
Qed.

(** The fuel [rmatch] gives a quantifier is enough: with more the result
    is the same. *)
Lemma rmatch_rep_fuel ic greedy lo hi r k st extra :
  repeat (rmatch ic r) (groups_of r) greedy
         (S (lo + List.length (ms_rest st)) + extra) lo hi k st
  = rmatch ic (Rep greedy lo hi r) k st.
Proof. cbn [rmatch]. apply repeat_fuel; [apply rmatch_local | lia | lia]. Qed.

(** A match and what follows it make up the input searched. *)
Lemma match_here_parts ic r prev s idx m :
  match_here ic r prev s idx = Some m ->
  List.length (m_text m) + List.length (m_after m) = List.length s.
Proof.
  unfold match_here. destruct (rmatch ic r Some _) as [st' | ] eqn:E; [ | discriminate].
  intros [= <-]. cbn [m_text m_after].
  apply rmatch_answers in E as (st1 & Hs & [= ->]).
  unfold shorter, consumed in *. cbn [ms_rest] in *.
  rewrite length_firstn. lia.
Qed.

Lemma search_parts ic r : forall s prev idx m,
  search ic r prev s idx = Some m ->
  List.length (m_text m) + List.length (m_after m) <= List.length s.
Proof.
  intros s prev idx m H.
  destruct (search_sound _ _ _ _ _ _ H) as (pre & s' & -> & _ & Hhere).
  apply match_here_parts in Hhere. rewrite length_app. lia.
Qed.

(** One unit of fuel per unit of input, and one more, is enough for the
    scan of a global pattern. *)
Lemma all_matches_fuel ic r : forall f1 f2 prev s idx,
  List.length s < f1 -> List.length s < f2 ->
  all_matches f1 ic r prev s idx = all_matches f2 ic r prev s idx.
Proof.
  induction f1 as [ | f1 IH]; intros f2 prev s idx H1 H2; [lia | ].
  destruct f2 as [ | f2]; [lia | ]. cbn [all_matches].
  destruct (search ic r prev s idx) as [m | ] eqn:E; trivial.
  apply search_parts in E.
  destruct (m_text m) as [ | c0 t0] eqn:Et, (m_after m) as [ | c t] eqn:Ea; trivial;
    f_equal; apply IH; simpl in *; lia.
Qed.

Lemma matchAll_fuel ic r s extra :
  all_matches (S (List.length s) + extra) ic r None s 0 = matchAll ic r s.
Proof. apply all_matches_fuel; lia. Qed.

(** Stepping the matcher through a pattern on an input whose units are
    variables. *)
Ltac run :=
  cbn [rmatch eat repeat ms_rest ms_caps ms_prev canon groups_of app caps_clear
       fold_right List.length Nat.add Nat.eqb negb Nat.pred option_map andb].
Ltac next_unit s c := destruct s as [ | c s]; run; [discriminate | ].
Ltac holds b := destruct b eqn:?; run; [ | discriminate].
Ltac normal_form re :=
  let nf := eval vm_compute in re in change re with nf.

(** ** The product-code pattern of [parseType] *)

Lemma upper_cls a :
  in_range 65%N 90%N a = true -> cls_mem false false [CRange 65%N 90%N] a = true.
Proof. intros H. unfold cls_mem. cbn [cset_mem existsb xorb]. now rewrite H. Qed.

Lemma code_cls L :
  In L (js "IHS") -> cls_mem false false [CChar 73%N; CChar 72%N; CChar 83%N] L = true.
Proof. intros [<- | [<- | [<- | []]]]; reflexivity. Qed.

Lemma code_cls_inv L :
  cls_mem false false [CChar 73%N; CChar 72%N; CChar 83%N] L = true -> In L (js "IHS").
Proof.
  unfold cls_mem. cbn [cset_mem existsb canon xorb].
  rewrite !orb_true_iff, !N.eqb_eq. change (js "IHS") with [73%N; 72%N; 83%N].
  simpl. intuition congruence.
Qed.

Lemma upper_cls_inv a :
  cls_mem false false [CRange 65%N 90%N] a = true -> in_range 65%N 90%N a = true.
Proof.
  unfold cls_mem. cbn [cset_mem existsb xorb]. now rewrite orb_false_r.
Qed.

(** A match of the pattern is a product-code suffix at the head of the
    input, and captures its letter. *)
Lemma match_here_code prev s idx m :
  match_here false re_code prev s idx = Some m ->
  exists L a b post,
    s = js "-" ++ [L] ++ js "-" ++ [a; b] ++ post /\ group 1 m = Some [L] /\
    In L (js "IHS") /\ in_range 65%N 90%N a = true /\ in_range 65%N 90%N b = true /\
    opt_word (hd_error post) = false.
Proof.
  normal_form re_code. unfold match_here. run.
  next_unit s c0. holds (N.eqb 45 c0).
  next_unit s L. holds (cls_mem false false [CChar 73%N; CChar 72%N; CChar 83%N] L).
  next_unit s c2. holds (N.eqb 45 c2).
  next_unit s c3. holds (cls_mem false false [CRange 65%N 90%N] c3).
  next_unit s c4. holds (cls_mem false false [CRange 65%N 90%N] c4).
  match goal with |- context [at_boundary ?st] => holds (at_boundary st) end.
  intros H. injection H as <-.
  repeat match goal with H : N.eqb 45 _ = true |- _ => apply N.eqb_eq in H; subst end.
  repeat match goal with
         | H : cls_mem _ _ [CRange _ _] _ = true |- _ => apply upper_cls_inv in H
         end.
  exists L, c3, c4, s. repeat split; trivial.
  - unfold group. cbn [m_caps cap_get cap_set Nat.eqb]. now rewrite consumed_one.
  - now apply code_cls_inv.
  - match goal with H : at_boundary _ = true |- _ =>
      unfold at_boundary in H; cbn [ms_prev ms_rest opt_word] in H end.
    assert (Hw : is_word c4 = true).
    { unfold is_word.
      match goal with H : in_range 65%N 90%N c4 = true |- _ => rewrite H end.
      now rewrite orb_true_r. }
    rewrite Hw in *. now destruct (opt_word (hd_error s)).
Qed.

(** The pattern matches wherever a hyphen, a code letter, a hyphen and two
    capitals stand before a word boundary. *)
Lemma match_here_code_at prev L a b post idx :
  In L (js "IHS") -> in_range 65%N 90%N a = true -> in_range 65%N 90%N b = true ->
  opt_word (hd_error post) = false ->
  exists m,
    match_here false re_code prev (js "-" ++ [L] ++ js "-" ++ [a; b] ++ post) idx = Some m.
Proof.
  intros HL Ha Hb Hpost.
  normal_form re_code. unfold match_here.
  change (js "-") with [45%N]. cbn [app]. run.
  rewrite (code_cls L HL). run.
  rewrite (upper_cls a Ha). run. rewrite (upper_cls b Hb). run.
  unfold at_boundary. cbn [ms_prev ms_rest opt_word]. rewrite Hpost.
  assert (is_word b = true) as ->.
  { unfold is_word. rewrite Hb. now rewrite orb_true_r. }
  cbn [xorb]. rewrite !N.eqb_refl. eauto.
Qed.

Lemma type_map_code L :
  In L (js "IHS") ->
  exists lineage,
    lookup (toUpperCase [L]) TYPE_MAP = Some lineage /\ In ([L], lineage) TYPE_MAP.
Proof.
  intros [<- | [<- | [<- | []]]]; eexists; (split; [reflexivity | ]); simpl; auto.
Qed.

(** Whatever the product-code pattern finds, [parseType] returns the
    lineage of the captured letter. *)
Lemma parseType_of_match text m :
  exec false re_code text = Some m ->
  exists L lineage,
    group 1 m = Some [L] /\ In ([L], lineage) TYPE_MAP /\
    parseType text = Some lineage.
Proof.
  intros Hm.
  destruct (search_sound _ _ _ _ _ _ Hm) as (pre & s & _ & _ & Hhere).
  destruct (match_here_code _ _ _ _ Hhere) as (L & a & b & post & _ & Hg & HL & _).
  destruct (type_map_code L HL) as (lineage & Hlook & Hin).
  exists L, lineage. repeat split; trivial.
  unfold parseType. destruct text as [ | c t]; [discriminate Hm | ].
  rewrite Hm. unfold capture1. now rewrite Hg.
Qed.

(** ** Type classification *)

(** C6, the claim as stated fails: in ["LOT-I-7"] the letter [I] stands
    alone between two hyphens, no lineage word and no "Type:" row occur,
    and both [extractType] and [parseType] return null. *)
Lemma type_product_code_unmapped :
  pickSih doc_short_code = None /\ pickTypeRow doc_short_code = None /\
  extractType doc_short_code = None /\ parseType doc_short_code = None.
Proof. repeat split; vm_compute; reflexivity. Qed.

(** [extractType] has no product-code step: on a full product code it
    returns null where [parseType] returns the lineage. *)
Lemma extractType_no_product_code :
  extractType doc_product_code = None /\
  parseType doc_product_code = Some (js "Indica").
Proof. split; vm_compute; reflexivity. Qed.

(** Where the pattern is found, a product-code suffix stands, the first of
    the text; [parseType] returns the lineage of its letter. *)
Lemma parseType_leftmost_code text m :
  exec false re_code text = Some m ->
  exists L lineage,
    code_suffix_at text (m_index m) L /\
    (forall k L', code_suffix_at text k L' -> m_index m <= k) /\
    In ([L], lineage) TYPE_MAP /\ parseType text = Some lineage.
Proof.
  intros Hm.
  destruct (search_sound _ _ _ _ _ _ Hm) as (pre & s & Htext & Hidx & Hhere).
  destruct (match_here_code _ _ _ _ Hhere)
    as (L & a & b & post & Hs & Hg & HL & Ha & Hb & Hpost).
  destruct (parseType_of_match text m Hm) as (L0 & lineage & Hg0 & Hin & Hty).
  assert (L0 = L) as -> by congruence.
  exists L, lineage. repeat split; trivial.
  - exists pre, a, b, post. subst s. repeat split; trivial. simpl in Hidx. lia.
  - intros k L' (pre' & a' & b' & post' & Htext' & Hlen' & HL' & Ha' & Hb' & Hpost').
    destruct (match_here_code_at (unit_before None pre') L' a' b' post'
                (0 + List.length pre') HL' Ha' Hb' Hpost') as (m0 & Hm0).
    destruct (search_complete false re_code pre' None _ 0 m0 Hm0) as (m' & Hm' & Hle).
    rewrite <- Htext' in Hm'. fold (exec false re_code text) in Hm'.
    assert (m' = m) as -> by congruence. lia.
Qed.

(** C6, amended: for every text in which a product-code suffix stands (a
    hyphen, one of the capitals I, H, S, a hyphen and two capital letters
    ending at a word boundary), with or without lineage words or a "Type:"
    row elsewhere, [parseType] returns the lineage that [TYPE_MAP] gives
    for the letter of the leftmost such suffix, not null. *)
Theorem parseType_product_code text i L :
  code_suffix_at text i L ->
  exists j L' lineage,
    j <= i /\ code_suffix_at text j L' /\
    (forall k L'', code_suffix_at text k L'' -> j <= k) /\
    In ([L'], lineage) TYPE_MAP /\
    parseType text = Some lineage.
Proof.
  intros Hat.
  assert (Hm : exists m, exec false re_code text = Some m).
  { destruct Hat as (pre & a & b & post & -> & Hlen & HL & Ha & Hb & Hpost).
    destruct (match_here_code_at (unit_before None pre) L a b post
                (0 + List.length pre) HL Ha Hb Hpost) as (m0 & Hm0).
    destruct (search_complete false re_code pre None _ 0 m0 Hm0) as (m & Hm & _).
    now exists m. }
  destruct Hm as (m & Hm).
  destruct (parseType_leftmost_code text m Hm) as (L' & lineage & Hat' & Hleft & Hin & Hty).
  exists (m_index m), L', lineage. repeat split; trivial.
  now apply (Hleft i L).
Qed.

(** The product code ["TRU-Flower-I-FL"], without lineage word or "Type:"
    row, is classified Indica. *)
Lemma parseType_product_code_witness :
  code_suffix_at doc_product_code 10 73%N /\
  pickSih doc_product_code = None /\ pickTypeRow doc_product_code = None /\
  parseType doc_product_code = Some (js "Indica") /\
  exists j L' lineage,
    j <= 10 /\ code_suffix_at doc_product_code j L' /\
    (forall k L'', code_suffix_at doc_product_code k L'' -> j <= k) /\
    In ([L'], lineage) TYPE_MAP /\
    parseType doc_product_code = Some lineage.
Proof.
  assert (H : code_suffix_at doc_product_code 10 73%N).
  { exists (js "TRU-Flower"), 70%N, 76%N, []. repeat split; simpl; auto. }
  split; [exact H | ]. split; [reflexivity | ]. split; [reflexivity | ].
  split; [reflexivity | ].
  exact (parseType_product_code doc_product_code 10 73%N H).
Defined.

(** ** Strain name *)

(** Strain name resolution tries the label patterns Strain, Cultivar(s),
    Sample Alias, Product Name and Cultivar/Cultivars, each followed by ':'
    or '-', in this order; the first pattern that matches the text gives
    the value, with line breaks replaced by a space, runs of two or more
    whitespace units collapsed to one space, and trimmed; when none of the
    five matches the result is null. *)
Lemma parseStrain_first_label text :
  parseStrain text =
    match find (fun re => test true re text) strain_patterns with
    | Some re => option_map (fun m => clean_value (capture1 m)) (exec true re text)
    | None => None
    end.
Proof.
  unfold parseStrain. induction strain_patterns as [ | re pats IH]; [reflexivity | ].
  cbn [first_match find]. unfold test at 1.
  destruct (exec true re text) as [m | ] eqn:E; [ | exact IH].
  now rewrite E.
Qed.

(** C7, evaluated: a text whose only label is an "Item:" row yields null,
    none of the five patterns of [parseStrain] being an "Item" label; the
    four labels the claim shares with the code resolve as it says. *)
Theorem parseStrain_item_row :
  parseStrain doc_item_row = None /\
  find (fun re => test true re doc_item_row) strain_patterns = None /\
  parseStrain (js "Sample Alias:  Blue   Dream ") = Some (js "Blue Dream") /\
  parseStrain (js "Product Name: Gelato" ++ LF ++ js "Strain - Wedding Cake")
    = Some (js "Wedding Cake").
Proof. repeat split; vm_compute; reflexivity. Qed.

(** ** THC *)

(** The four steps of the chain, in their order. *)
Lemma parseTHC_chain text :
  totalPercent (parseTHC text) =
    or_else (total_pct (normalizeForTHC text))
   (or_else (mgPerGToPercent (total_mg (normalizeForTHC text)))
      match thca_of (normalizeForTHC text), d9_of (normalizeForTHC text) with
      | None, None => None
      | thca, d9 => Some (computed thca d9)
      end).
Proof.
  unfold parseTHC.
  destruct (total_pct _); [reflexivity | ].
  destruct (total_mg _); [reflexivity | ].
  destruct (thca_of _), (d9_of _); reflexivity.
Qed.

(** The rounding is that of [toFixed] on the binary64 sum: THCA = 5% alone
    gives 4.38, the product 0.877 * 5 being the binary64 number just below
    4.385. *)
Lemma parseTHC_computed_binary64 :
  parseTHC (js "THCA: 5%") = Thc (Some (parseFloat (js "4.38"))).
Proof. vm_compute. reflexivity. Qed.

(** ** The empty document *)

(** C3: on the empty text every extractor returns its empty result and
    the assembled record is null in every field. *)
Theorem parseCoa_empty url :
  parseStrain [] = None /\ extractType [] = None /\
  pickTopTerpenes [] 3 = [] /\ parseTHC [] = Thc None /\
  parseCoa url [] =
    {| sourceUrl := url; strain := None; type := None; dominantTerpene := None;
       otherTerpenes := []; thc_ := Thc None |}.
Proof. repeat split. Qed.

(** ** Canonical names *)

(** C4, evaluated: [canonTerp] is not idempotent on the synonyms
    "caryophyllene oxide", "β-pinene" and "b-pinene". Their canonical
    names "caryophyllene-oxide" and "beta-pinene" are themselves sent to
    "caryophyllene" and "alpha-pinene". On the other thirteen keys applying
    it twice changes nothing. *)
Theorem canonTerp_not_idempotent :
  canonTerp (js "β-pinene") = Some (js "beta-pinene") /\
  canonTerp (js "beta-pinene") = Some (js "alpha-pinene") /\
  canonTerp (js "caryophyllene oxide") = Some (js "caryophyllene-oxide") /\
  canonTerp (js "caryophyllene-oxide") = Some (js "caryophyllene") /\
  filter (fun x => negb (idempotent_at x)) (map fst SYN) =
    [js "caryophyllene oxide"; js "β-pinene"; js "b-pinene"].
Proof. repeat split; vm_compute; reflexivity. Qed.

(** ** Terpene ranking *)

(** C5, evaluated: a terpene whose only reading is 0% or negative is
    collected and ranked. *)
Theorem pickTopTerpenes_keeps_nonpositive :
  collectTerpenesAsPercent (js "Myrcene 0%") = [Row (js "myrcene") (S754_zero false)] /\
  pickTopTerpenes (js "Myrcene 0%") 3 = [js "myrcene"] /\
  collectTerpenesAsPercent (js "Limonene -1.5%")
    = [Row (js "limonene") (parseFloat (js "-1.5"))] /\
  pickTopTerpenes (js "Limonene -1.5%") 3 = [js "limonene"].
Proof. repeat split; vm_compute; reflexivity. Qed.

(** *** The map [best] *)

Lemma best_get_none k best :
  best_get k best = None -> ~ In k (map fst best).
Proof.
  induction best as [ | [k' r] t IH]; simpl; [tauto | ].
  destruct (str_eqb k k') eqn:E; [discriminate | ].
  intros H [Hk | Hin]; [ | now apply IH].
  subst k'. assert (str_eqb k k = true) by now apply str_eqb_eq. congruence.
Qed.

Lemma best_set_keys_fresh k r best :
  ~ In k (map fst best) -> map fst (best_set k r best) = map fst best ++ [k].
Proof.
  induction best as [ | [k' r'] t IH]; simpl; [reflexivity | ].
  intros Hn. destruct (str_eqb k k') eqn:E.
  - apply str_eqb_eq in E. subst. tauto.
  - simpl. rewrite IH; tauto.
Qed.

Lemma best_set_keys_present k r best :
  In k (map fst best) -> map fst (best_set k r best) = map fst best.
Proof.
  induction best as [ | [k' r'] t IH]; simpl; [tauto | ].
  intros Hin. destruct (str_eqb k k') eqn:E.
  - apply str_eqb_eq in E. now subst.
  - simpl. rewrite IH; trivial. destruct Hin as [-> | ]; trivial.
    assert (str_eqb k k = true) by now apply str_eqb_eq. congruence.
Qed.

Lemma best_set_names k r best :
  name r = k ->
  Forall (fun kr => name (snd kr) = fst kr) best ->
  Forall (fun kr => name (snd kr) = fst kr) (best_set k r best).
Proof.
  intros Hk. induction 1 as [ | [k' r'] t Hh Ht IH]; simpl.
  - constructor; trivial.
  - destruct (str_eqb k k'); constructor; trivial.
Qed.

Lemma keep_best_ok best r : best_ok best -> best_ok (keep_best best r).
Proof.
  intros [Hnd Hnm]. unfold keep_best.
  assert (Hset : best_ok (best_set (name r) r best)).
  { split; [ | now apply best_set_names].
    destruct (in_dec (list_eq_dec N.eq_dec) (name r) (map fst best)) as [Hin | Hout].
    - now rewrite best_set_keys_present.
    - rewrite best_set_keys_fresh by trivial.
      apply NoDup_app; [trivial | repeat constructor; simpl; tauto | ].
      intros x Hx [<- | []]. tauto. }
  destruct (best_get (name r) best) as [prev | ]; trivial.
  destruct (flt (percent prev) (percent r)); trivial. now split.
Qed.

Lemma fold_keep_best_ok rows : forall best,
  best_ok best -> best_ok (fold_left keep_best rows best).
Proof.
  induction rows as [ | r rows IH]; intros best H; simpl; trivial.
  apply IH. now apply keep_best_ok.
Qed.

(** At most one row per canonical name leaves the collection step. *)
Lemma collect_names_NoDup text : NoDup (map name (collectTerpenesAsPercent text)).
Proof.
  unfold collectTerpenesAsPercent.
  destruct (fold_keep_best_ok (terpene_rows text) []) as [Hnd Hnm].
  { split; constructor. }
  replace (map name (map snd (fold_left keep_best (terpene_rows text) [])))
    with (map fst (fold_left keep_best (terpene_rows text) [])); trivial.
  rewrite map_map. apply map_ext_Forall.
  eapply Forall_impl; [ | exact Hnm]. intros a Ha. now symmetry.
Qed.

Lemma insert_by_perm cmp x l : Permutation (x :: l) (insert_by cmp x l).
Proof.
  induction l as [ | y t IH]; simpl; [reflexivity | ].
  destruct (negative (cmp x y)); [reflexivity | ].
  rewrite perm_swap. now constructor.
Qed.

Lemma sort_by_perm cmp l : Permutation l (sort_by cmp l).
Proof.
  unfold sort_by.
  assert (H : forall acc,
    Permutation (acc ++ l) (fold_left (fun acc x => insert_by cmp x acc) l acc)).
  { induction l as [ | x l IH]; intros acc; simpl.
    - now rewrite app_nil_r.
    - rewrite <- IH, <- insert_by_perm. simpl.
      apply Permutation_sym, Permutation_middle. }
  exact (H []).
Qed.

Lemma halve_pinene_name r : name (halve_pinene r) = name r.
Proof. unfold halve_pinene. now destruct (str_eqb _ _). Qed.

Lemma NoDup_firstn {A} n (l : list A) : NoDup l -> NoDup (firstn n l).
Proof.
  intros H. rewrite <- (firstn_skipn n l) in H.
  now apply NoDup_app_remove_r in H.
Qed.

Lemma pickTopTerpenes_NoDup text limit : NoDup (pickTopTerpenes text limit).
Proof.
  unfold pickTopTerpenes.
  pose proof (collect_names_NoDup text) as Hnd.
  destruct (collectTerpenesAsPercent text) as [ | r rows] eqn:E; [constructor | ].
  set (rows0 := r :: rows) in *.
  rewrite <- firstn_map. apply NoDup_firstn.
  assert (H1 : NoDup (map name (sort_by by_percent_desc rows0))).
  { eapply Permutation_NoDup; [ | exact Hnd].
    apply Permutation_map, sort_by_perm. }
  destruct (_ || _); trivial.
  eapply Permutation_NoDup; [apply Permutation_map, sort_by_perm | ].
  rewrite map_map.
  erewrite map_ext; [exact H1 | ]. intros a. apply halve_pinene_name.
Qed.

Lemma pickTopTerpenes_length text limit :
  List.length (pickTopTerpenes text limit) <= limit.
Proof.
  unfold pickTopTerpenes. destruct (collectTerpenesAsPercent text); [simpl; lia | ].
  rewrite length_map. apply firstn_le_length.
Qed.

(** *** The order of the ranking *)

Lemma negative_round_aux s m e l :
  negative (binary_round_aux prec emax s m e l) = true -> s = true.
Proof.
  unfold binary_round_aux.
  destruct (shr_fexp prec emax m e l) as [r1 e1].
  destruct (shr_fexp prec emax _ e1 loc_Exact) as [r2 e2].
  destruct (shr_m r2); [discriminate | | discriminate].
  destruct (Z.leb e2 _), s; trivial; discriminate.
Qed.

Lemma negative_normalize m e :
  negative (binary_normalize prec emax m e false) = true -> (m < 0)%Z.
Proof.
  destruct m as [ | p | p]; cbn [binary_normalize]; [discriminate | | lia].
  unfold binary_round. destruct (shl_align _ _ _) as [mz ez].
  intros H. apply negative_round_aux in H. discriminate.
Qed.

Lemma nonnegative_normalize m e :
  (0 <= m)%Z -> negative (binary_normalize prec emax m e false) = false.
Proof.
  intros H. destruct (negative _) eqn:E; trivial.
  apply negative_normalize in E. lia.
Qed.

(** The comparator never orders two rows both ways. *)
Lemma negative_fsub_antisym x y :
  negative (fsub x y) = true -> negative (fsub y x) = false.
Proof.
  destruct x as [sx | sx | | sx mx ex], y as [sy | sy | | sy my ey];
    try (unfold fsub, SFsub; rewrite (Z.min_comm ey ex); intros H;
         apply negative_normalize in H; apply nonnegative_normalize; lia);
    repeat match goal with s : bool |- _ => destruct s end;
    try discriminate; reflexivity.
Qed.

Lemma insert_by_sorted x l :
  Sorted in_order l -> Sorted in_order (insert_by by_percent_desc x l).
Proof.
  induction 1 as [ | y t Ht IH Hy]; cbn [insert_by]; [repeat constructor | ].
  destruct (negative (by_percent_desc x y)) eqn:E.
  - constructor; [now constructor | ]. constructor.
    unfold in_order, by_percent_desc in *. now apply negative_fsub_antisym.
  - constructor; trivial.
    destruct t as [ | z t]; cbn [insert_by] in *.
    + constructor. exact E.
    + destruct (negative (by_percent_desc x z)); constructor; trivial.
      now inversion Hy.
Qed.

Lemma sort_by_sorted l : Sorted in_order (sort_by by_percent_desc l).
Proof.
  unfold sort_by.
  assert (H : forall acc, Sorted in_order acc ->
    Sorted in_order (fold_left (fun acc x => insert_by by_percent_desc x acc) l acc)).
  { induction l as [ | x l IH]; intros acc Hacc; simpl; trivial.
    apply IH. now apply insert_by_sorted. }
  apply H. constructor.
Qed.

Lemma firstn_sorted {A} (R : A -> A -> Prop) n : forall l,
  Sorted R l -> Sorted R (firstn n l).
Proof.
  induction n as [ | n IH]; intros l H; [constructor | ].
  destruct H as [ | a l Hl Ha]; cbn [firstn]; constructor; auto.
  destruct Ha as [ | b l Hab]; [destruct n; constructor | ].
  destruct n; constructor; trivial.
Qed.

(** The part of the ranking contract the code keeps: at most [limit]
    names, those of rows no one of which is followed by a row the
    comparator puts first. *)
Lemma pickTopTerpenes_ranked text limit :
  exists rows,
    pickTopTerpenes text limit = map name rows /\
    Sorted in_order rows /\ List.length rows <= limit.
Proof.
  unfold pickTopTerpenes.
  destruct (collectTerpenesAsPercent text) as [ | r rows0].
  - exists []. repeat split; simpl; try constructor; lia.
  - eexists. split; [reflexivity | ]. split; [ | apply firstn_le_length].
    apply firstn_sorted. destruct (_ || _); apply sort_by_sorted.
Qed.

(** C10: in the record [parseCoa] assembles, a null [dominantTerpene]
    comes with an empty [otherTerpenes]; the names of [otherTerpenes] are
    pairwise distinct, none equals [dominantTerpene], and there are at most
    two of them. *)
Theorem parseCoa_terpenes_consistent url text :
  (dominantTerpene (parseCoa url text) = None ->
   otherTerpenes (parseCoa url text) = []) /\
  NoDup (otherTerpenes (parseCoa url text)) /\
  (forall d, dominantTerpene (parseCoa url text) = Some d ->
             ~ In d (otherTerpenes (parseCoa url text))) /\
  List.length (otherTerpenes (parseCoa url text)) <= 2.
Proof.
  cbn [parseCoa dominantTerpene otherTerpenes].
  pose proof (pickTopTerpenes_NoDup text 3) as Hnd.
  pose proof (pickTopTerpenes_length text 3) as Hlen.
  destruct (pickTopTerpenes text 3) as [ | d names]; simpl in *.
  - repeat split; intros; try lia; try discriminate; constructor.
  - inversion Hnd; subst. repeat split; trivial; try discriminate; try lia.
    intros d' H. now injection H as <-.
Qed.

(** ** The overflow correction *)

Section Binary64.

Local Open Scope Z_scope.

Lemma digits2_bounds p :
  2 ^ (Zpos (digits2_pos p) - 1) <= Zpos p < 2 ^ Zpos (digits2_pos p).
Proof.
  induction p as [p IH | p IH | ]; cbn [digits2_pos].
  - rewrite Pos2Z.inj_succ.
    replace (Z.succ (Zpos (digits2_pos p)) - 1) with (Zpos (digits2_pos p) - 1 + 1) by lia.
    rewrite Z.pow_succ_r by lia. rewrite Z.pow_add_r by lia. lia.
  - rewrite Pos2Z.inj_succ.
    replace (Z.succ (Zpos (digits2_pos p)) - 1) with (Zpos (digits2_pos p) - 1 + 1) by lia.
    rewrite Z.pow_succ_r by lia. rewrite Z.pow_add_r by lia. lia.
  - simpl. lia.
Qed.

Lemma digits2_unique p d :
  2 ^ (d - 1) <= Zpos p < 2 ^ d -> Zpos (digits2_pos p) = d.
Proof.
  intros [Hlo Hhi]. pose proof (digits2_bounds p) as [Blo Bhi].
  destruct (Z.lt_trichotomy (Zpos (digits2_pos p)) d) as [H | [H | H]]; trivial; exfalso.
  - assert (2 ^ Zpos (digits2_pos p) <= 2 ^ (d - 1)) by (apply Z.pow_le_mono_r; lia). lia.
  - assert (0 < d \/ d <= 0) as [Hd | Hd] by lia.
    + assert (2 ^ d <= 2 ^ (Zpos (digits2_pos p) - 1)) by (apply Z.pow_le_mono_r; lia).
      lia.
    + assert (2 ^ d <= 1) by (destruct d; simpl in *; lia).
      lia.
Qed.

Lemma shr_1_m r : 0 <= shr_m r -> shr_m (shr_1 r) = shr_m r / 2.
Proof.
  destruct r as [m rb sb]; cbn [shr_m]. intros Hm.
  destruct m as [ | [p | p | ] | p ]; cbn [shr_1 shr_m]; try lia; try reflexivity.
  - apply Z.div_unique with 1; lia.
  - apply Z.div_unique with 0; lia.
Qed.

Lemma shr_m_of_loc q l : shr_m (shr_record_of_loc q l) = q.
Proof. destruct l as [ | [ | | ] ]; reflexivity. Qed.

Lemma round_nearest_even_range m l :
  m <= round_nearest_even m l <= m + 1.
Proof.
  destruct l as [ | [ | | ] ]; simpl; try lia.
  destruct (Z.even m); lia.
Qed.

Lemma fexp_normal x : -1021 <= x -> fexp prec emax x = x - 53.
Proof. unfold fexp, emin, prec, emax. lia. Qed.

(** A mantissa of 53 bits is kept, one of 54 bits loses its last bit. *)
Lemma shr_fexp_53 q e l :
  2 ^ 52 <= q < 2 ^ 53 -> -1074 <= e ->
  shr_fexp prec emax q e l = (shr_record_of_loc q l, e).
Proof.
  intros Hq He. unfold shr_fexp.
  destruct q as [ | p | p ]; try lia.
  cbn [Zdigits2]. rewrite (digits2_unique p 53) by (simpl; lia).
  rewrite fexp_normal by lia.
  replace (53 + e - 53 - e) with 0 by lia. reflexivity.
Qed.

Lemma shr_fexp_54 q e l :
  2 ^ 53 <= q < 2 ^ 54 -> -1074 <= e ->
  shr_fexp prec emax q e l = (shr_1 (shr_record_of_loc q l), e + 1).
Proof.
  intros Hq He. unfold shr_fexp.
  destruct q as [ | p | p ]; try lia.
  cbn [Zdigits2]. rewrite (digits2_unique p 54) by (simpl; lia).
  rewrite fexp_normal by lia.
  replace (54 + e - 53 - e) with 1 by lia. reflexivity.
Qed.

(** Rounding a quotient of 53 or 54 bits gives a normal number; its
    exponent is that of the quotient plus at most 2, and plus at most 1
    when the quotient stays clear of the next power of two. *)
Lemma binary_round_aux_normal s q e l :
  2 ^ 52 <= q < 2 ^ 54 -> -1074 <= e <= 969 ->
  exists m' e',
    binary_round_aux prec emax s q e l = S754_finite s m' e' /\
    2 ^ 52 <= Zpos m' < 2 ^ 53 /\ e <= e' <= e + 2 /\
    (q / 2 + 1 < 2 ^ 53 -> e' <= e + 1).
Proof.
  intros Hq He. unfold binary_round_aux.
  assert (Hstage : exists r1 e1, shr_fexp prec emax q e l = (r1, e1) /\
            2 ^ 52 <= shr_m r1 < 2 ^ 53 /\ e <= e1 <= e + 1 /\
            (q < 2 ^ 53 -> e1 = e /\ shr_m r1 = q) /\
            (2 ^ 53 <= q -> shr_m r1 = q / 2)).
  { destruct (Z_lt_le_dec q (2 ^ 53)) as [Hlt | Hge].
    - rewrite shr_fexp_53 by lia. eexists _, _. split; [reflexivity | ].
      rewrite shr_m_of_loc. repeat split; lia.
    - rewrite shr_fexp_54 by lia. eexists _, _. split; [reflexivity | ].
      rewrite shr_1_m by (rewrite shr_m_of_loc; lia).
      rewrite shr_m_of_loc.
      assert (2 ^ 52 <= q / 2 < 2 ^ 53).
      { split; [apply Z.div_le_lower_bound | apply Z.div_lt_upper_bound]; lia. }
      repeat split; lia. }
  destruct Hstage as (r1 & e1 & -> & Hr1 & He1 & Hsmall & Hbig).
  pose proof (round_nearest_even_range (shr_m r1) (loc_of_shr_record r1)) as Hrnd.
  set (m1 := round_nearest_even (shr_m r1) (loc_of_shr_record r1)) in *.
  destruct (Z_lt_le_dec m1 (2 ^ 53)) as [Hlt | Hge].
  - rewrite shr_fexp_53 by lia. cbn [shr_m shr_record_of_loc].
    destruct m1 as [ | p | p ]; try lia.
    replace (e1 <=? emax - prec) with true
      by (symmetry; apply Z.leb_le; unfold emax, prec; lia).
    exists p, e1. repeat split; lia.
  - assert (m1 = 2 ^ 53) as -> by lia.
    rewrite shr_fexp_54 by lia.
    cbn -[Z.leb Z.add Z.sub].
    replace (e1 + 1 <=? emax - prec) with true
      by (symmetry; apply Z.leb_le; unfold emax, prec; lia).
    eexists _, _. split; [reflexivity | ].
    repeat split; lia.
Qed.

Lemma ten_eq : ten = S754_finite false 5629499534213120 (-49).
Proof. reflexivity. Qed.

Lemma hundred_eq : hundred = S754_finite false 7036874417766400 (-46).
Proof. reflexivity. Qed.

(** Dividing a normal number of exponent at least -46 (so any number
    above 100) by ten gives a normal number whose binary exponent is
    smaller by 3 or 4. *)
Lemma fdiv_ten_normal m e :
  2 ^ 52 <= Zpos m < 2 ^ 53 -> -46 <= e <= 971 ->
  exists m' e',
    fdiv (S754_finite false m e) ten = S754_finite false m' e' /\
    2 ^ 52 <= Zpos m' < 2 ^ 53 /\ e - 4 <= e' <= e - 3.
Proof.
  intros Hm He. rewrite ten_eq. unfold fdiv, SFdiv, SFdiv_core_binary.
  cbn [Zdigits2]. rewrite (digits2_unique m 53) by (simpl; lia).
  change (Zpos (digits2_pos 5629499534213120)) with 53.
  rewrite fexp_normal by lia.
  replace (Z.min (53 + e - (53 + -49) - 53) (e - -49)) with (e - 4) by lia.
  replace (e - -49 - (e - 4)) with 53 by lia.
  rewrite Z.shiftl_mul_pow2 by lia.
  pose proof (Z_div_mod (Zpos m * 2 ^ 53) 5629499534213120 eq_refl) as Hdiv.
  destruct (Z.div_eucl (Zpos m * 2 ^ 53) 5629499534213120) as [q r].
  destruct Hdiv as [Hqr Hr].
  assert (Hq : 2 ^ 52 <= q < 2 ^ 54 /\ q / 2 + 1 < 2 ^ 53).
  { assert (q / 2 <= q) by (apply Z.div_le_upper_bound; lia).
    assert (2 * (q / 2) <= q) by (apply Z.mul_div_le; lia).
    change (2 ^ 53) with 9007199254740992 in *.
    change (2 ^ 52) with 4503599627370496 in *.
    change (2 ^ 54) with 18014398509481984 in *. lia. }
  destruct (binary_round_aux_normal (xorb false false) q (e - 4)
              (new_location 5629499534213120 r))
    as (m' & e' & -> & Hm' & He' & Hno); [lia | lia | ].
  exists m', e'. repeat split; lia.
Qed.

Lemma flt_hundred_finite m e :
  flt hundred (S754_finite false m e) = true -> -46 <= e.
Proof.
  rewrite hundred_eq. unfold flt, SFltb, SFcompare.
  destruct (Z.compare_spec (-46) e); try discriminate; lia.
Qed.

Lemma bounded_normal m e :
  bounded prec emax m e = true -> -46 <= e ->
  2 ^ 52 <= Zpos m < 2 ^ 53 /\ e <= 971.
Proof.
  unfold bounded, canonical_mantissa. intros H He.
  apply andb_prop in H as [Hc Hb].
  apply Z.eqb_eq in Hc. apply Z.leb_le in Hb.
  unfold fexp, emin, prec, emax in *.
  pose proof (digits2_bounds m) as Hd.
  assert (Zpos (digits2_pos m) = 53) as Hd53 by lia.
  rewrite Hd53 in Hd. simpl in Hd. simpl. lia.
Qed.

Lemma normal_bounded m e :
  2 ^ 52 <= Zpos m < 2 ^ 53 -> -1074 <= e <= 971 -> bounded prec emax m e = true.
Proof.
  intros Hm He. unfold bounded, canonical_mantissa.
  rewrite (digits2_unique m 53) by (simpl; lia).
  apply andb_true_intro. split; [apply Z.eqb_eq | apply Z.leb_le];
    unfold fexp, emin, prec, emax; lia.
Qed.

End Binary64.

(** The loop on a positive finite number: it exits, on a finite number,
    after at most one round per three binary exponents above -47. *)
Lemma fixLoop_finite n : forall m e,
  bounded prec emax m e = true -> (e + 47 <= 3 * Z.of_nat n)%Z ->
  exists m' e',
    fixPercentOverflow_runs (S754_finite false m e) (S754_finite false m' e') /\
    flt hundred (S754_finite false m' e') = false /\
    forall fuel, n <= fuel ->
      fixLoop fuel (S754_finite false m e) = S754_finite false m' e'.
Proof.
  induction n as [ | n IH]; intros m e Hb Hn.
  - exists m, e.
    assert (Hex : flt hundred (S754_finite false m e) = false).
    { destruct (flt hundred (S754_finite false m e)) eqn:Hgt; trivial.
      apply flt_hundred_finite in Hgt. lia. }
    split; [now apply runs_exit | split; trivial].
    intros [ | fuel] _; simpl; [ | rewrite Hex ]; reflexivity.
  - destruct (flt hundred (S754_finite false m e)) eqn:Hgt.
    + pose proof (flt_hundred_finite _ _ Hgt) as He.
      destruct (bounded_normal _ _ Hb He) as [Hm He'].
      destruct (fdiv_ten_normal m e Hm (conj He He')) as (m1 & e1 & Hdiv & Hm1 & He1).
      destruct (IH m1 e1) as (m' & e' & Hrun & Hex & Hfuel).
      { apply normal_bounded; lia. }
      { lia. }
      exists m', e'. split; [ | split; trivial].
      * apply runs_step; trivial. now rewrite Hdiv.
      * intros [ | fuel] Hf; [lia | ].
        cbn [fixLoop]. rewrite Hgt, Hdiv. apply Hfuel. lia.
    + exists m, e. split; [now apply runs_exit | split; trivial].
      intros [ | fuel] _; simpl; [ | rewrite Hgt ]; reflexivity.
Qed.

(** On every valid number but +Infinity the loop exits, with the value
    [fixLoop] computes, which is not above 100. *)
Lemma fixLoop_runs v :
  valid v = true -> v <> pinf ->
  exists r,
    fixPercentOverflow_runs v r /\ fixLoop 400 v = r /\
    flt hundred r = false /\ (v <> S754_nan -> r <> S754_nan).
Proof.
  intros Hv Hinf. destruct v as [s | [ | ] | | [ | ] m e].
  - exists (S754_zero s). repeat split; trivial. now apply runs_exit.
  - exists (S754_infinity true). repeat split; trivial. now apply runs_exit.
  - exfalso. now apply Hinf.
  - exists S754_nan. repeat split; trivial. now apply runs_exit.
  - exists (S754_finite true m e). repeat split; trivial. now apply runs_exit.
  - destruct (fixLoop_finite 400 m e Hv) as (m' & e' & Hrun & Hex & Hfuel).
    { apply andb_prop in Hv as [_ Hb]. apply Z.leb_le in Hb.
      unfold emax, prec in Hb. lia. }
    exists (S754_finite false m' e'). repeat split; trivial; try discriminate.
    now apply Hfuel.
Qed.

(** At +Infinity the loop never exits. *)
Lemma runs_pinf_never r : ~ fixPercentOverflow_runs pinf r.
Proof.
  intros H. remember pinf as v eqn:Hv.
  induction H as [v Hex | v r Hgt Hrun IH]; subst v.
  - discriminate Hex.
  - apply IH. reflexivity.
Qed.

Lemma runs_deterministic v r1 r2 :
  fixPercentOverflow_runs v r1 -> fixPercentOverflow_runs v r2 -> r1 = r2.
Proof.
  intros H1. revert r2.
  induction H1 as [v Hex | v r Hgt Hrun IH]; intros r2 H2; inversion H2; subst;
    try congruence; auto.
Qed.

Lemma runs_acc v r : fixPercentOverflow_runs v r -> Acc loop_step v.
Proof.
  induction 1 as [v Hex | v r Hgt Hrun IH]; constructor; intros v' [Hgt' ->].
  - congruence.
  - exact IH.
Qed.

Lemma fixLoop_exit v n : flt hundred v = false -> fixLoop n v = v.
Proof. intros H. destruct n; simpl; [ | rewrite H]; reflexivity. Qed.

Lemma not_above_fle x :
  x <> S754_nan -> flt hundred x = false -> fle x hundred = true.
Proof.
  rewrite hundred_eq. generalize 7036874417766400%positive as M. intros M.
  unfold flt, fle, SFltb, SFleb.
  destruct x as [s | [ | ] | | [ | ] m e]; try reflexivity; try discriminate;
    try congruence.
  unfold SFcompare. change (Pos.compare_cont Eq) with Pos.compare.
  destruct (Z.compare_spec (-46) e), (Z.compare_spec e (-46));
    try lia; try reflexivity; try discriminate.
  destruct (Pos.compare_spec M m), (Pos.compare_spec m M);
    try lia; try reflexivity; discriminate.
Qed.

(** C9: for every binary64 number other than +Infinity the loop of
    [fixPercentOverflow] exits after finitely many divisions by ten: the
    relation "next value of the loop" is well founded below the input, the
    loop has a result, and the bounded function computes it. *)
Theorem fixPercentOverflow_terminates v :
  valid v = true -> v <> pinf ->
  Acc loop_step v /\
  exists r, fixPercentOverflow_runs v r /\ fixPercentOverflow (Some v) = Some r.
Proof.
  intros Hv Hinf.
  destruct (fixLoop_runs v Hv Hinf) as (r & Hrun & Hloop & _).
  split; [now apply runs_acc with r | ].
  exists r. split; trivial. unfold fixPercentOverflow. now rewrite Hloop.
Qed.

Lemma fixPercentOverflow_terminates_witness :
  valid overflowed = true /\ overflowed <> pinf /\
  Acc loop_step overflowed /\
  exists r, fixPercentOverflow_runs overflowed r /\
            fixPercentOverflow (Some overflowed) = Some r.
Proof.
  split; [reflexivity | split; [discriminate | ]].
  apply fixPercentOverflow_terminates; [reflexivity | discriminate].
Defined.

(** C8, the claim as stated fails: at NaN the loop exits at once with
    NaN, and NaN is not at most 100. (At +Infinity the loop never exits,
    [runs_pinf_never].) *)
Lemma fixPercentOverflow_nan_unbounded :
  ~ (fixPercentOverflow (fixPercentOverflow (Some S754_nan))
       = fixPercentOverflow (Some S754_nan) /\
     exists r, fixPercentOverflow (Some S754_nan) = Some r /\ fle r hundred = true).
Proof.
  intros [_ (r & Hr & Hle)]. injection Hr as <-. discriminate Hle.
Qed.

(** C8, amended: for every binary64 number [v] other than NaN and
    +Infinity the loop exits with a result [r];
    [fixPercentOverflow (fixPercentOverflow v) = fixPercentOverflow v]
    and [r] is at most 100. *)
Theorem fixPercentOverflow_idempotent_bounded v :
  valid v = true -> v <> S754_nan -> v <> pinf ->
  exists r,
    fixPercentOverflow_runs v r /\
    fixPercentOverflow (Some v) = Some r /\
    fixPercentOverflow (fixPercentOverflow (Some v)) = fixPercentOverflow (Some v) /\
    fle r hundred = true.
Proof.
  intros Hv Hnan Hinf.
  destruct (fixLoop_runs v Hv Hinf) as (r & Hrun & Hloop & Hex & Hr).
  exists r. unfold fixPercentOverflow. rewrite Hloop, (fixLoop_exit r 400 Hex).
  repeat split; trivial. apply not_above_fle; auto.
Qed.

Lemma fixPercentOverflow_idempotent_bounded_witness :
  valid overflowed = true /\ overflowed <> S754_nan /\ overflowed <> pinf /\
  fixPercentOverflow (Some overflowed) = Some (parseFloat (js "10.5")) /\
  exists r,
    fixPercentOverflow_runs overflowed r /\
    fixPercentOverflow (Some overflowed) = Some r /\
    fixPercentOverflow (fixPercentOverflow (Some overflowed))
      = fixPercentOverflow (Some overflowed) /\
    fle r hundred = true.
Proof.
  split; [reflexivity | split; [discriminate | split; [discriminate | ]]].
  split; [vm_compute; reflexivity | ].
  apply fixPercentOverflow_idempotent_bounded; [reflexivity | discriminate | discriminate].
Defined.

(* ===================================================================== *)
(** * Further properties of the code *)
(* ===================================================================== *)

Import Scan Notions.

(** ** Strings and case *)

Lemma str_eqb_refl a : str_eqb a a = true.
Proof. now apply str_eqb_eq. Qed.

Lemma str_eqb_neq a b : a <> b -> str_eqb a b = false.
Proof.
  intros H. destruct (str_eqb a b) eqn:E; trivial. apply str_eqb_eq in E. contradiction.
Qed.

Lemma in_range_spec lo hi c : in_range lo hi c = true <-> (lo <= c <= hi)%N.
Proof. unfold in_range. rewrite andb_true_iff, !N.leb_le. tauto. Qed.

Lemma in_range_false lo hi c : in_range lo hi c = false <-> (c < lo \/ hi < c)%N.
Proof. unfold in_range. rewrite andb_false_iff, !N.leb_gt. tauto. Qed.

Lemma toUpperUnit_ascii ch :
  (ch < 128)%N -> toUpperUnit ch = if in_range 97%N 122%N ch then (ch - 32)%N else ch.
Proof.
  intros H. unfold toUpperUnit. destruct (in_range 97%N 122%N ch); trivial.
  assert (E1 : N.eqb ch 181 = false) by (apply N.eqb_neq; lia).
  assert (E2 : in_range 224%N 254%N ch = false) by (apply in_range_false; lia).
  assert (E3 : N.eqb ch 255 = false) by (apply N.eqb_neq; lia).
  assert (E4 : N.eqb ch 962 = false) by (apply N.eqb_neq; lia).
  assert (E5 : in_range 945%N 969%N ch = false) by (apply in_range_false; lia).
  assert (E6 : N.eqb ch 976 = false) by (apply N.eqb_neq; lia).
  now rewrite E1, E2, E3, E4, E5, E6.
Qed.

Lemma toLowerUnit_ascii ch :
  (ch < 128)%N -> toLowerUnit ch = if in_range 65%N 90%N ch then (ch + 32)%N else ch.
Proof.
  intros H. unfold toLowerUnit. destruct (in_range 65%N 90%N ch); trivial.
  assert (E2 : in_range 192%N 222%N ch = false) by (apply in_range_false; lia).
  assert (E5 : in_range 913%N 937%N ch = false) by (apply in_range_false; lia).
  now rewrite E2, E5.
Qed.

(** Under the [i] flag a unit has the canonical form of an ASCII capital
    only when it is that capital or its small letter. *)
Lemma canon_capital ch U :
  (65 <= U <= 90)%N -> canon true ch = U -> ch = U \/ ch = (U + 32)%N.
Proof.
  intros HU. unfold canon.
  destruct (N.leb_spec 128 ch) as [Hhi | Hlo]; cbn [andb].
  - destruct (N.ltb_spec (toUpperUnit ch) 128); lia.
  - rewrite (toUpperUnit_ascii ch Hlo).
    destruct (in_range 97%N 122%N ch) eqn:E.
    + apply in_range_spec in E. lia.
    + lia.
Qed.

Lemma canon_of_letter c :
  is_letter c = true ->
  exists U, (65 <= U <= 90)%N /\ canon true c = U /\ (c = U \/ c = (U + 32)%N).
Proof.
  unfold is_letter. rewrite orb_true_iff, !in_range_spec. intros H.
  assert (Hlo : (c < 128)%N) by lia.
  unfold canon. replace (N.leb 128 c) with false by (symmetry; apply N.leb_gt; lia).
  cbn [andb]. rewrite (toUpperUnit_ascii c Hlo).
  destruct (in_range 97%N 122%N c) eqn:E.
  - apply in_range_spec in E. exists (c - 32)%N. lia.
  - apply in_range_false in E. exists c. lia.
Qed.

Lemma case_of_capital U ch :
  (65 <= U <= 90)%N -> ch = U \/ ch = (U + 32)%N ->
  toLowerUnit ch = (U + 32)%N /\ toUpperUnit ch = U.
Proof.
  intros HU Hch. assert (Hlo : (ch < 128)%N) by lia.
  rewrite (toLowerUnit_ascii ch Hlo), (toUpperUnit_ascii ch Hlo).
  destruct (in_range 65%N 90%N ch) eqn:E1, (in_range 97%N 122%N ch) eqn:E2;
    rewrite ?in_range_spec, ?in_range_false in *; lia.
Qed.

Lemma canon_letter c ch :
  is_letter c = true -> canon true c = canon true ch ->
  toLowerUnit ch = toLowerUnit c /\ toUpperUnit ch = toUpperUnit c.
Proof.
  intros Hc Heq. destruct (canon_of_letter c Hc) as (U & HU & HcU & Hc').
  rewrite HcU in Heq. symmetry in Heq. apply (canon_capital ch U HU) in Heq.
  destruct (case_of_capital U ch HU Heq) as [-> ->].
  destruct (case_of_capital U c HU Hc') as [-> ->]. now split.
Qed.

(** A spelling of a word of ASCII letters under the [i] flag differs
    from the word by case only. *)
Lemma same_letters_case w : forall u,
  forallb is_letter w = true -> same_letters true w u ->
  toLowerCase u = toLowerCase w /\ toUpperCase u = toUpperCase w /\
  capitalize u = capitalize w.
Proof.
  intros u Hw Hs.
  assert (H : toLowerCase u = toLowerCase w /\ toUpperCase u = toUpperCase w).
  { induction Hs as [ | c ch w u Hc Hs IH]; [now split | ].
    cbn [forallb] in Hw. apply andb_prop in Hw as [Hl Hw].
    destruct (IH Hw) as [IH1 IH2]. destruct (canon_letter c ch Hl Hc) as [E1 E2].
    cbn [toLowerCase toUpperCase map]. unfold toLowerCase, toUpperCase in *.
    now rewrite IH1, IH2, E1, E2. }
  destruct H as [H1 H2]. repeat split; trivial.
  destruct Hs as [ | c ch w u Hc Hs]; trivial.
  cbn [forallb] in Hw. apply andb_prop in Hw as [Hl Hw].
  destruct (canon_letter c ch Hl Hc) as [E1 E2].
  unfold capitalize. rewrite E2. f_equal.
  unfold toLowerCase in *. cbn [map] in H1. now injection H1.
Qed.

(** ** Literals and the lineage words *)

Lemma rmatch_lit ic w : forall k st,
  rmatch ic (lit_of w) k st
  = match lit_prefix ic w st with Some st' => k st' | None => None end.
Proof.
  unfold lit_of.
  induction w as [ | c w IH]; intros k st; cbn [fold_right rmatch lit_prefix]; trivial.
  unfold eat. destruct (ms_rest st) as [ | ch tl]; trivial.
  destruct (N.eqb _ _); trivial.
Qed.

Lemma lit_prefix_inv ic w : forall st st',
  lit_prefix ic w st = Some st' ->
  exists u, ms_rest st = u ++ ms_rest st' /\ same_letters ic w u /\
            ms_caps st' = ms_caps st /\ ms_prev st' = unit_before (ms_prev st) u.
Proof.
  induction w as [ | c w IH]; intros st st'; cbn [lit_prefix].
  - intros [= <-]. exists []. repeat split; constructor.
  - destruct (ms_rest st) as [ | ch tl] eqn:E; [discriminate | ].
    destruct (N.eqb_spec (canon ic c) (canon ic ch)) as [Hc | ]; [ | discriminate].
    intros H. apply IH in H as (u & Hu & Hsame & Hcaps & Hprev).
    cbn [ms_rest ms_caps ms_prev] in *.
    exists (ch :: u). rewrite unit_before_cons. repeat split; trivial.
    + simpl. now rewrite Hu.
    + now constructor.
Qed.

Lemma consumed_app p u r caps p' caps' :
  consumed (MState p (u ++ r) caps) (MState p' r caps') = u.
Proof.
  unfold consumed. cbn [ms_rest]. rewrite length_app.
  replace (List.length u + List.length r - List.length r) with (List.length u) by lia.
  now rewrite firstn_app, Nat.sub_diag, firstn_all, app_nil_r.
Qed.

Lemma word3_run a b c st :
  rmatch true (word3 a b c) Some st =
    if at_boundary st then
      match word_at a st with
      | Some z => Some z
      | None => match word_at b st with Some z => Some z | None => word_at c st end
      end
    else None.
Proof.
  unfold word3, seqs, alts. cbn [fold_right rmatch].
  destruct (at_boundary st); trivial.
  rewrite !rmatch_lit. unfold word_at, word_end. reflexivity.
Qed.

Lemma word_at_inv w st z :
  word_at w st = Some z ->
  exists u, ms_rest st = u ++ ms_rest z /\ same_letters true w u /\
            ms_caps z = cap_set 1 u (ms_caps st).
Proof.
  unfold word_at. destruct (lit_prefix true w st) as [st' | ] eqn:E; [ | discriminate].
  apply lit_prefix_inv in E as (u & Hu & Hs & Hc & _).
  unfold word_end. destruct (at_boundary _); [ | discriminate]. intros [= <-].
  cbn [ms_rest ms_caps]. exists u. repeat split; trivial.
  rewrite Hc. f_equal. destruct st as [p r caps], st' as [p' r' caps'].
  cbn [ms_rest] in Hu. subst r. apply consumed_app.
Qed.

(** A match of [/\b(a|b|c)\b/i] captures a spelling of one of the three
    words. *)
Lemma word3_match a b c prev s idx m :
  match_here true (word3 a b c) prev s idx = Some m ->
  exists w u, In w [a; b; c] /\ same_letters true w u /\ group 1 m = Some u.
Proof.
  unfold match_here. rewrite word3_run. cbn [ms_rest].
  destruct (at_boundary _); [ | discriminate].
  destruct (word_at a _) as [z | ] eqn:Ea;
    [ | destruct (word_at b _) as [z | ] eqn:Eb;
        [ | destruct (word_at c _) as [z | ] eqn:Ec; [ | discriminate]]];
    intros [= <-];
    [apply word_at_inv in Ea as (u & _ & Hs & Hc); exists a, u
    |apply word_at_inv in Eb as (u & _ & Hs & Hc); exists b, u
    |apply word_at_inv in Ec as (u & _ & Hs & Hc); exists c, u];
    (repeat split; [simpl; auto | trivial | ]);
    unfold group; cbn [m_caps]; rewrite Hc; cbn [cap_get cap_set Nat.eqb]; reflexivity.
Qed.

Lemma lit_prefix_head ic x w st st' :
  lit_prefix ic (x :: w) st = Some st' ->
  exists ch tl, ms_rest st = ch :: tl /\ canon ic x = canon ic ch.
Proof.
  cbn [lit_prefix]. destruct (ms_rest st) as [ | ch tl]; [discriminate | ].
  destruct (N.eqb_spec (canon ic x) (canon ic ch)); [ | discriminate].
  intros _. now exists ch, tl.
Qed.

Lemma word_at_exclusive x a y b st z :
  canon true x <> canon true y ->
  word_at (x :: a) st = Some z -> word_at (y :: b) st = None.
Proof.
  intros Hxy. unfold word_at.
  destruct (lit_prefix true (x :: a) st) as [s1 | ] eqn:E1; [ | discriminate].
  intros _. destruct (lit_prefix true (y :: b) st) as [s2 | ] eqn:E2; trivial.
  apply lit_prefix_head in E1 as (ch & tl & H1 & Hx), E2 as (ch' & tl' & H2 & Hy).
  congruence.
Qed.

(** Words that begin with different letters can be listed in either
    order. *)
Lemma word3_swap x a y b c st :
  canon true x <> canon true y ->
  rmatch true (word3 (x :: a) (y :: b) c) Some st
  = rmatch true (word3 (y :: b) (x :: a) c) Some st.
Proof.
  intros Hxy. rewrite !word3_run. destruct (at_boundary st); trivial.
  destruct (word_at (x :: a) st) as [z | ] eqn:Ea.
  - now rewrite (word_at_exclusive x a y b st z Hxy Ea).
  - destruct (word_at (y :: b) st); reflexivity.
Qed.

Lemma re_words_word3 : re_words = word3 (js "Indica") (js "Sativa") (js "Hybrid").
Proof. reflexivity. Qed.

Lemma re_sih_word3 : re_sih = word3 (js "Sativa") (js "Indica") (js "Hybrid").
Proof. reflexivity. Qed.

(** The pattern of [parseType] and that of [pickSih] and
    [guessBucketFromText] list the words in different orders and match
    alike. *)
Lemma match_here_words_sih prev s idx :
  match_here true re_words prev s idx = match_here true re_sih prev s idx.
Proof.
  rewrite re_words_word3, re_sih_word3. unfold match_here.
  change (js "Indica") with (73%N :: js "ndica").
  change (js "Sativa") with (83%N :: js "ativa").
  rewrite word3_swap; [reflexivity | ]. vm_compute. discriminate.
Qed.

Lemma search_words_sih : forall s prev idx,
  search true re_words prev s idx = search true re_sih prev s idx.
Proof.
  induction s as [ | c s IH]; intros prev idx; cbn [search];
    rewrite match_here_words_sih; [reflexivity | ].
  destruct (match_here true re_sih prev (c :: s) idx); trivial.
Qed.

Lemma exec_words_sih text : exec true re_words text = exec true re_sih text.
Proof. apply search_words_sih. Qed.

(** What the lineage pattern captures. *)
Lemma lineage_capture text m :
  exec true re_sih text = Some m ->
  exists w u, In w lineages /\ group 1 m = Some u /\
              toLowerCase u = toLowerCase w /\ capitalize u = w.
Proof.
  intros H. destruct (search_sound _ _ _ _ _ _ H) as (pre & s & _ & _ & Hhere).
  rewrite re_sih_word3 in Hhere.
  destruct (word3_match _ _ _ _ _ _ _ Hhere) as (w & u & Hw & Hs & Hg).
  assert (Hl : forallb is_letter w = true /\ capitalize w = w /\ In w lineages).
  { destruct Hw as [<- | [<- | [<- | []]]]; repeat split; vm_compute; auto. }
  destruct Hl as (Hl & Hcap & Hin).
  destruct (same_letters_case w u Hl Hs) as (H1 & _ & H3).
  exists w, u. repeat split; trivial. congruence.
Qed.

Lemma parseType_range text t :
  parseType text = Some t -> In t lineages.
Proof.
  unfold parseType. destruct text as [ | c0 text]; [discriminate | ].
  destruct (exec false re_code (c0 :: text)) as [m | ] eqn:Ec.
  - destruct (parseType_of_match _ _ Ec) as (L & lineage & Hg & Hin & Hty).
    unfold parseType in Hty. rewrite Ec in Hty. rewrite Hty. intros [= <-].
    destruct Hin as [[= <- <-] | [[= <- <-] | [[= <- <-] | []]]]; vm_compute; auto.
  - rewrite exec_words_sih.
    destruct (exec true re_sih (c0 :: text)) as [m | ] eqn:Ew; [ | discriminate].
    destruct (lineage_capture _ _ Ew) as (w & u & Hin & Hg & _ & Hcap).
    intros [= <-]. unfold capture1. rewrite Hg, Hcap. exact Hin.
Qed.

(** X1: [parseType] returns null or one of the three lineage names
    Indica, Sativa, Hybrid, spelled with a capital first letter, however
    the word is spelled in the text. *)
Theorem parseType_lineage text :
  parseType text = None \/ exists t, parseType text = Some t /\ In t lineages.
Proof.
  destruct (parseType text) as [t | ] eqn:E; [right | now left].
  exists t. split; trivial. now apply (parseType_range text).
Qed.

(** X2: the [bucket] of the record [scrapeTrulieveLabPdf] returns is the
    one [bucketFromType] gives for its [type]: indica_leaning for Indica,
    sativa_leaning for Sativa, hybrid otherwise; in particular the
    fallback to [guessBucketFromText], taken when [parseType] returns null,
    always gives hybrid. *)
Theorem scraped_bucket_by_type text :
  scraped_bucket text = bucketFromType (parseType text).
Proof.
  unfold scraped_bucket.
  destruct (parseType text) as [t | ] eqn:E.
  - destruct (parseType_range _ _ E) as [<- | [<- | [<- | []]]]; reflexivity.
  - cbn [truthy]. unfold guessBucketFromText.
    destruct text as [ | c0 text]; [reflexivity | ].
    destruct (exec false re_code (c0 :: text)) as [m | ] eqn:Ec.
    + destruct (parseType_of_match _ _ Ec) as (L & lineage & _ & _ & Hty). congruence.
    + unfold parseType in E. rewrite Ec, exec_words_sih in E.
      destruct (exec true re_sih (c0 :: text)); [discriminate | reflexivity].
Qed.

Lemma lineage_word_buckets w u m text :
  In w lineages -> toLowerCase u = toLowerCase w ->
  exec true re_sih text = Some m -> group 1 m = Some u ->
  typeToBucket (Some u) = guessBucketFromText text.
Proof.
  intros Hw Hu Hm Hg. unfold guessBucketFromText, typeToBucket, capture1.
  rewrite Hm, Hg, Hu.
  destruct Hw as [<- | [<- | [<- | []]]]; reflexivity.
Qed.

(** X3: where a lineage word stands in the text, [extractType] returns
    it as it is spelled, and the bucket [typeToBucket] gives for that type
    (the bucket of a scanned COA) is the bucket [guessBucketFromText] reads
    from the same text. *)
Theorem typeToBucket_extractType text u :
  pickSih text = Some u ->
  extractType text = Some u /\
  typeToBucket (extractType text) = guessBucketFromText text.
Proof.
  intros H. unfold pickSih in H.
  destruct (exec true re_sih text) as [m | ] eqn:Hm; [ | discriminate].
  destruct (lineage_capture _ _ Hm) as (w & u' & Hw & Hg & Hlow & Hcap).
  assert (u' = u) as -> by congruence.
  assert (He : extractType text = Some u).
  { unfold extractType, pickSih. rewrite Hm, Hg.
    destruct u as [ | c u]; [ | reflexivity].
    destruct Hw as [<- | [<- | [<- | []]]]; discriminate Hcap. }
  split; trivial. rewrite He. exact (lineage_word_buckets w u m text Hw Hlow Hm Hg).
Qed.

(** The row "Type: sativa dominant" gives the type "sativa" and the
    bucket sativa_leaning on both paths. *)
Lemma typeToBucket_extractType_witness :
  pickSih (js "Type: sativa dominant") = Some (js "sativa") /\
  extractType (js "Type: sativa dominant") = Some (js "sativa") /\
  typeToBucket (extractType (js "Type: sativa dominant"))
    = guessBucketFromText (js "Type: sativa dominant").
Proof.
  split; [vm_compute; reflexivity | ].
  apply (typeToBucket_extractType (js "Type: sativa dominant") (js "sativa")).
  vm_compute. reflexivity.
Defined.

(** ** The array STRAINS *)

Section StoreFacts.

Variable strain : Type.
Variable id : strain -> str.

(** [upsertStrain] replaces the first entry of its id, or puts the
    object in front. *)
Lemma upsertStrain_cons s x t :
  Db.upsertStrain id s (x :: t) =
    if Db.same_id id s x then s :: t
    else match Db.findIndex (Db.same_id id s) t with
         | Some _ => x :: Db.upsertStrain id s t
         | None => s :: x :: t
         end.
Proof.
  unfold Db.upsertStrain. cbn [Db.findIndex].
  destruct (Db.same_id id s x); [reflexivity | ].
  destruct (Db.findIndex (Db.same_id id s) t); reflexivity.
Qed.

Lemma findIndex_none (p : strain -> bool) : forall l,
  Db.findIndex p l = None <-> forall x, In x l -> p x = false.
Proof.
  induction l as [ | x t IH]; cbn [Db.findIndex]; [split; [intros _ y [] | trivial] | ].
  destruct (p x) eqn:E.
  - split; [discriminate | ]. intros H. rewrite (H x) in E; [discriminate | now left].
  - destruct (Db.findIndex p t); cbn [option_map].
    + split; [discriminate | ]. intros H.
      assert (Hn : Some n = None) by (apply IH; intros y Hy; apply H; now right).
      discriminate Hn.
    + split; trivial. intros _ y [<- | Hy]; trivial. now apply IH.
Qed.

Lemma upsertStrain_absent s l :
  Db.findIndex (Db.same_id id s) l = None ->
  Db.upsertStrain id s l = s :: l /\ ~ In (id s) (map id l).
Proof.
  intros H. split.
  - unfold Db.upsertStrain. now rewrite H.
  - intros Hin. apply in_map_iff in Hin as (x & Hx & Hin).
    apply (proj1 (findIndex_none _ _) H) in Hin. unfold Db.same_id in Hin.
    rewrite Hx, str_eqb_refl in Hin. discriminate.
Qed.

Lemma upsertStrain_present s : forall l i,
  Db.findIndex (Db.same_id id s) l = Some i ->
  map id (Db.upsertStrain id s l) = map id l /\
  List.length (Db.upsertStrain id s l) = List.length l.
Proof.
  induction l as [ | x t IH]; intros i; [discriminate | ].
  rewrite upsertStrain_cons. cbn [Db.findIndex].
  destruct (Db.same_id id s x) eqn:E.
  - intros _. unfold Db.same_id in E. apply str_eqb_eq in E.
    cbn [map List.length]. now rewrite E.
  - destruct (Db.findIndex (Db.same_id id s) t) as [j | ]; [ | discriminate].
    intros _. destruct (IH j eq_refl) as [H1 H2]. cbn [map List.length]. now rewrite H1, H2.
Qed.

Lemma upsertStrain_In s x : forall l,
  In x (Db.upsertStrain id s l) -> x = s \/ In x l.
Proof.
  induction l as [ | y t IH].
  - intros [<- | []]. now left.
  - rewrite upsertStrain_cons. destruct (Db.same_id id s y).
    + intros [<- | Hx]; [now left | now right; right].
    + destruct (Db.findIndex _ t).
      * intros [<- | Hx]; [now right; left | ].
        destruct (IH Hx) as [-> | Hx']; [now left | now right; right].
      * intros [<- | Hx]; [now left | now right].
Qed.

Lemma stored_upsertStrain s l : Db.stored id (id s) (Db.upsertStrain id s l) = Some s.
Proof.
  induction l as [ | x t IH].
  - unfold Db.upsertStrain, Db.stored. cbn. now rewrite str_eqb_refl.
  - rewrite upsertStrain_cons. unfold Db.stored in *.
    destruct (Db.same_id id s x) eqn:E; [cbn [find]; now rewrite str_eqb_refl | ].
    destruct (Db.findIndex (Db.same_id id s) t); cbn [find].
    + unfold Db.same_id in E. now rewrite E.
    + now rewrite str_eqb_refl.
Qed.

Lemma stored_other s k l :
  k <> id s -> Db.stored id k (Db.upsertStrain id s l) = Db.stored id k l.
Proof.
  intros Hk. assert (Hs : str_eqb (id s) k = false) by (apply str_eqb_neq; congruence).
  induction l as [ | x t IH].
  - unfold Db.upsertStrain, Db.stored. cbn. now rewrite Hs.
  - rewrite upsertStrain_cons. unfold Db.stored in *.
    destruct (Db.same_id id s x) eqn:E.
    + unfold Db.same_id in E. apply str_eqb_eq in E. cbn [find]. now rewrite E, Hs.
    + destruct (Db.findIndex (Db.same_id id s) t); cbn [find].
      * now rewrite IH.
      * now rewrite Hs.
Qed.

(** X4: after [upsertStrain(s)] the first entry of [STRAINS] whose id is
    that of [s] is [s] itself, and under every other id the first entry is
    the one it was before. *)
Theorem upsertStrain_stored s l k :
  Db.stored id k (Db.upsertStrain id s l)
  = if str_eqb k (id s) then Some s else Db.stored id k l.
Proof.
  destruct (str_eqb k (id s)) eqn:E.
  - apply str_eqb_eq in E. subst k. apply stored_upsertStrain.
  - apply stored_other. intros ->. now rewrite str_eqb_refl in E.
Qed.

(** X5: [upsertStrain] keeps the ids of [STRAINS] pairwise distinct, and
    the array grows, by one entry, exactly when no entry has the id. *)
Theorem upsertStrain_unique s l :
  NoDup (map id l) ->
  NoDup (map id (Db.upsertStrain id s l)) /\
  List.length (Db.upsertStrain id s l) =
    if existsb (fun x => str_eqb (id x) (id s)) l then List.length l else S (List.length l).
Proof.
  intros Hnd.
  destruct (Db.findIndex (Db.same_id id s) l) as [i | ] eqn:F.
  - destruct (upsertStrain_present s l i F) as [Hm Hl]. rewrite Hm, Hl.
    split; trivial.
    assert (H : existsb (fun x => str_eqb (id x) (id s)) l = true).
    { destruct (existsb _ l) eqn:E; trivial.
      assert (Hn : Db.findIndex (Db.same_id id s) l = None).
      { apply findIndex_none. intros x Hx.
        destruct (Db.same_id id s x) eqn:Ex; trivial.
        assert (Ht : existsb (fun x => str_eqb (id x) (id s)) l = true)
          by (apply existsb_exists; now exists x).
        congruence. }
      congruence. }
    now rewrite H.
  - pose proof (proj1 (findIndex_none _ _) F) as Hall.
    destruct (upsertStrain_absent s l F) as [-> Hnin].
    split; [now constructor | ].
    assert (H : existsb (fun x => str_eqb (id x) (id s)) l = false).
    { destruct (existsb _ l) eqn:E; trivial.
      apply existsb_exists in E as (x & Hx & Ex). apply Hall in Hx.
      unfold Db.same_id in Hx. congruence. }
    now rewrite H.
Qed.

(** X7: upserting an object a second time changes nothing. *)
Theorem upsertStrain_twice s l :
  Db.upsertStrain id s (Db.upsertStrain id s l) = Db.upsertStrain id s l.
Proof.
  induction l as [ | x t IH].
  - unfold Db.upsertStrain. cbn. unfold Db.same_id. now rewrite str_eqb_refl.
  - rewrite upsertStrain_cons. destruct (Db.same_id id s x) eqn:E.
    + rewrite upsertStrain_cons. unfold Db.same_id. now rewrite str_eqb_refl.
    + destruct (Db.findIndex (Db.same_id id s) t) as [i | ] eqn:F.
      * rewrite upsertStrain_cons, E.
        assert (H : exists j,
                  Db.findIndex (Db.same_id id s) (Db.upsertStrain id s t) = Some j).
        { destruct (Db.findIndex (Db.same_id id s) (Db.upsertStrain id s t))
            as [j | ] eqn:G; eauto.
          exfalso. apply upsertStrain_absent in G as [_ G].
          pose proof (stored_upsertStrain s t) as Hst. unfold Db.stored in Hst.
          apply find_some in Hst as [Hin _].
          apply G. apply in_map, Hin. }
        destruct H as (j & ->). now rewrite IH.
      * rewrite upsertStrain_cons. unfold Db.same_id. now rewrite str_eqb_refl.
Qed.

End StoreFacts.

(** Two objects with the ids "og1" and "ak47", and a new version of the
    first: the ids stay distinct and the array keeps its two entries. *)
Lemma upsertStrain_unique_witness :
  NoDup (map fst [(js "og1", 1); (js "ak47", 2)]) /\
  NoDup (map fst (Db.upsertStrain fst (js "og1", 3) [(js "og1", 1); (js "ak47", 2)])) /\
  List.length (Db.upsertStrain fst (js "og1", 3) [(js "og1", 1); (js "ak47", 2)]) =
    if existsb (fun x => str_eqb (fst x) (fst (js "og1", 3)))
               [(js "og1", 1); (js "ak47", 2)]
    then List.length [(js "og1", 1); (js "ak47", 2)]
    else S (List.length [(js "og1", 1); (js "ak47", 2)]).
Proof.
  assert (H : NoDup (map fst [(js "og1", 1); (js "ak47", 2)])).
  { repeat constructor; simpl; intuition discriminate. }
  split; [exact H | ].
  exact (upsertStrain_unique (str * nat) fst (js "og1", 3) [(js "og1", 1); (js "ak47", 2)] H).
Defined.

(** ** The terpene ranking of the PDF scraper *)

Lemma In_firstn {A} n (l : list A) x : In x (firstn n l) -> In x l.
Proof.
  intros H. rewrite <- (firstn_skipn n l). apply in_or_app. now left.
Qed.

(** X8: every name [pickTopTerpenes] of server.mjs returns is that of a
    pair with a finite percentage above zero; at most [max] names are
    returned, in the order of the comparator. *)
Theorem lab_pickTopTerpenes_positive pairs max :
  exists rows,
    Lab.pickTopTerpenes pairs max = map name rows /\
    List.length rows <= max /\ Sorted in_order rows /\
    forall p, In p rows ->
      In p pairs /\ Lab.isFinite (Lab.pct p) = true /\ flt zero (Lab.pct p) = true.
Proof.
  unfold Lab.pickTopTerpenes. eexists. split; [reflexivity | ].
  split; [apply firstn_le_length | ]. split.
  - apply firstn_sorted. apply sort_by_sorted.
  - intros p Hp. apply In_firstn in Hp.
    eapply Permutation_in in Hp; [ | apply Permutation_sym, sort_by_perm].
    apply filter_In in Hp as [Hin Hpos]. unfold Lab.positive_pct in Hpos.
    apply andb_prop in Hpos as [H1 H2]. now repeat split.
Qed.

(** X9: no pair with a finite percentage above zero is dropped while
    there is room: with at most [max] such pairs, the names returned are
    theirs. *)
Theorem lab_pickTopTerpenes_all pairs max :
  List.length (filter Lab.positive_pct pairs) <= max ->
  Permutation (Lab.pickTopTerpenes pairs max) (map name (filter Lab.positive_pct pairs)).
Proof.
  intros H. unfold Lab.pickTopTerpenes.
  rewrite firstn_all2.
  - apply Permutation_map, Permutation_sym, sort_by_perm.
  - rewrite <- (Permutation_length (sort_by_perm _ _)). exact H.
Qed.

(** Of limonene at 1.2, myrcene at 0 and pinene at 0.4 the first and the
    last are returned, limonene first. *)
Lemma lab_pickTopTerpenes_all_witness :
  List.length (filter Lab.positive_pct
     [ Row (js "Limonene") (parseFloat (js "1.2")); Row (js "Myrcene") zero;
       Row (js "Pinene") (parseFloat (js "0.4")) ]) <= 3 /\
  Lab.pickTopTerpenes
     [ Row (js "Limonene") (parseFloat (js "1.2")); Row (js "Myrcene") zero;
       Row (js "Pinene") (parseFloat (js "0.4")) ] 3 = [js "Limonene"; js "Pinene"] /\
  Permutation
    (Lab.pickTopTerpenes
       [ Row (js "Limonene") (parseFloat (js "1.2")); Row (js "Myrcene") zero;
         Row (js "Pinene") (parseFloat (js "0.4")) ] 3)
    (map name (filter Lab.positive_pct
       [ Row (js "Limonene") (parseFloat (js "1.2")); Row (js "Myrcene") zero;
         Row (js "Pinene") (parseFloat (js "0.4")) ])).
Proof.
  assert (H : List.length (filter Lab.positive_pct
     [ Row (js "Limonene") (parseFloat (js "1.2")); Row (js "Myrcene") zero;
       Row (js "Pinene") (parseFloat (js "0.4")) ]) <= 3) by (vm_compute; lia).
  split; [exact H | ]. split; [vm_compute; reflexivity | ].
  exact (lab_pickTopTerpenes_all _ 3 H).
Defined.

(** ** Global replacement, left to right *)

Lemma take_drop_while ok s : take_while ok s ++ drop_while ok s = s.
Proof.
  induction s as [ | c t IH]; simpl; trivial.
  destruct (ok c); simpl; [now rewrite IH | reflexivity].
Qed.

Lemma skipn_take_while ok s : skipn (List.length (take_while ok s)) s = drop_while ok s.
Proof.
  induction s as [ | c t IH]; simpl; trivial. destruct (ok c); simpl; trivial.
Qed.

Lemma firstn_take_while ok s : firstn (List.length (take_while ok s)) s = take_while ok s.
Proof.
  induction s as [ | c t IH]; simpl; trivial. destruct (ok c); simpl; [now rewrite IH | trivial].
Qed.

Section ScanFacts.

Variables (ic : bool) (r : regex) (at_ : scanner) (f : mres -> str)
          (g : str -> list (nat * str) -> str).
Hypothesis Hscan : scans ic r at_.
Hypothesis Hf : forall m, f m = g (m_text m) (m_caps m).

Lemma search_skip prev c t idx :
  at_ (c :: t) = None ->
  search ic r prev (c :: t) idx = search ic r (Some c) t (S idx).
Proof.
  intros H. cbn [search]. destruct Hscan as [Hm _]. now rewrite Hm, H.
Qed.

Lemma all_matches_skip fuel prev c t idx :
  at_ (c :: t) = None ->
  all_matches fuel ic r prev (c :: t) idx = all_matches fuel ic r (Some c) t (S idx).
Proof.
  intros H. destruct fuel as [ | fuel]; [reflexivity | ].
  cbn [all_matches]. now rewrite search_skip.
Qed.

Lemma all_matches_first fuel prev s idx m ms :
  all_matches fuel ic r prev s idx = m :: ms -> idx <= m_index m.
Proof.
  destruct fuel as [ | fuel]; [discriminate | ]. cbn [all_matches].
  destruct (search ic r prev s idx) as [m' | ] eqn:E; [ | discriminate].
  apply search_sound in E as (pre & s' & _ & Hi & _).
  destruct (m_text m'), (m_after m'); intros [= <- _]; lia.
Qed.

Lemma replace_loop_skip pre c t ms :
  match ms with [] => True | m :: _ => S (List.length pre) <= m_index m end ->
  replace_loop f (pre ++ c :: t) (List.length pre) ms
  = c :: replace_loop f (pre ++ c :: t) (S (List.length pre)) ms.
Proof.
  assert (Hs : skipn (List.length pre) (pre ++ c :: t) = c :: t).
  { rewrite skipn_app, Nat.sub_diag, skipn_all. reflexivity. }
  assert (Hs' : skipn (S (List.length pre)) (pre ++ c :: t) = t).
  { replace (pre ++ c :: t) with ((pre ++ [c]) ++ t) by now rewrite <- app_assoc.
    replace (S (List.length pre)) with (List.length (pre ++ [c]))
      by (rewrite length_app; simpl; lia).
    rewrite skipn_app, Nat.sub_diag, skipn_all. reflexivity. }
  destruct ms as [ | m ms]; cbn [replace_loop]; intros H.
  - now rewrite Hs, Hs'.
  - rewrite Hs, Hs'.
    replace (m_index m - List.length pre) with (S (m_index m - S (List.length pre))) by lia.
    reflexivity.
Qed.

Lemma replace_loop_scan : forall fuel2 s pre prev fuel1,
  List.length s < fuel2 -> List.length s < fuel1 ->
  replace_loop f (pre ++ s) (List.length pre)
    (all_matches fuel1 ic r prev s (List.length pre))
  = rewrite_with at_ g fuel2 s.
Proof.
  induction fuel2 as [ | fuel2 IH]; intros s pre prev fuel1 H2 H1; [lia | ].
  destruct fuel1 as [ | fuel1]; [lia | ].
  cbn [rewrite_with]. destruct (at_ s) as [[u caps] | ] eqn:E.
  - destruct Hscan as [Hm Hne]. destruct (Hne _ _ _ E) as [Hu Hpre].
    assert (Hs : s = u ++ skipn (List.length u) s).
    { rewrite <- Hpre at 1. now rewrite firstn_skipn. }
    set (rest := skipn (List.length u) s) in *.
    assert (Hsearch : search ic r prev s (List.length pre)
                      = Some (MRes (List.length pre) u caps (unit_before prev u) rest)).
    { destruct s as [ | c t]; cbn [search]; rewrite Hm, E; reflexivity. }
    cbn [all_matches]. rewrite Hsearch. cbn [m_text m_after m_index m_last].
    destruct u as [ | c0 u0] eqn:Eu; [contradiction | ]. rewrite <- Eu in *.
    cbn [replace_loop m_index m_text]. rewrite Nat.sub_diag. cbn [firstn app].
    rewrite Hf. cbn [m_text m_caps]. f_equal.
    rewrite Hs at 1. rewrite app_assoc.
    replace (List.length pre + List.length u) with (List.length (pre ++ u))
      by now rewrite length_app.
    assert (Hlen : List.length rest < List.length s).
    { rewrite Hs at 1. rewrite length_app. subst u. simpl. lia. }
    apply IH; lia.
  - destruct s as [ | c t].
    + cbn [all_matches search]. destruct Hscan as [Hm _]. rewrite Hm, E.
      cbn [replace_loop]. rewrite app_nil_r. apply skipn_all.
    + rewrite all_matches_skip by trivial. rewrite replace_loop_skip.
      * f_equal. replace (pre ++ c :: t) with ((pre ++ [c]) ++ t) by now rewrite <- app_assoc.
        replace (S (List.length pre)) with (List.length (pre ++ [c]))
          by (rewrite length_app; simpl; lia).
        apply IH; simpl in *; lia.
      * destruct (all_matches _ _ _ _ _ _) as [ | m ms] eqn:Ea; trivial.
        now apply all_matches_first in Ea.
Qed.

(** [replace] with a global pattern that [at_] describes is the
    left-to-right rewriting by [at_]. *)
Lemma replaceAll_scan s :
  replaceAll ic r f s = rewrite_with at_ g (S (List.length s)) s.
Proof.
  unfold replaceAll, matchAll.
  apply (replace_loop_scan (S (List.length s)) s [] None (S (List.length s))); lia.
Qed.

End ScanFacts.

Lemma unit_test_eat ic r ok :
  unit_test ic r = Some ok ->
  groups_of r = [] /\ forall k st, rmatch ic r k st = eat st ok k.
Proof.
  destruct r; try discriminate; intros [= <-]; split; reflexivity.
Qed.

Lemma scans_unit ic r ok : unit_test ic r = Some ok -> scans ic r (unit_scan ok).
Proof.
  intros H. destruct (unit_test_eat _ _ _ H) as [_ Heat]. split.
  - intros prev s idx. unfold match_here. rewrite Heat. unfold eat, unit_scan.
    cbn [ms_rest]. destruct s as [ | c t]; trivial. destruct (ok c); trivial.
    cbn [ms_caps ms_prev ms_rest]. now rewrite consumed_one.
  - intros s u caps. unfold unit_scan. destruct s as [ | c t]; [discriminate | ].
    destruct (ok c); [ | discriminate]. intros [= <- _]. split; [discriminate | reflexivity].
Qed.

Lemma repeat_run m ok :
  (forall k st, m k st = eat st ok k) ->
  forall rest fuel lo prev caps,
    lo + List.length rest < fuel ->
    repeat m [] true fuel lo None Some (MState prev rest caps)
    = if Nat.leb lo (List.length (take_while ok rest))
      then Some (MState (unit_before prev (take_while ok rest)) (drop_while ok rest) caps)
      else None.
Proof.
  intros Hm. induction rest as [ | ch tl IH]; intros fuel lo prev caps Hfuel;
    (destruct fuel as [ | fuel]; [lia | ]); cbn [repeat option_map]; rewrite Hm;
    unfold eat; cbn [ms_rest ms_prev ms_caps caps_clear fold_right take_while drop_while List.length].
  - destruct lo as [ | lo]; reflexivity.
  - destruct (ok ch) eqn:E.
    + cbn [ms_rest List.length].
      replace (Nat.eqb (List.length tl) (S (List.length tl))) with false
        by (symmetry; apply Nat.eqb_neq; lia).
      rewrite andb_false_r. rewrite IH by (simpl in Hfuel; lia).
      rewrite unit_before_cons. cbn [List.length].
      destruct lo as [ | lo]; cbn [Nat.eqb negb Nat.pred Nat.leb]; reflexivity.
    + destruct lo as [ | lo]; reflexivity.
Qed.

Lemma scans_run ic r ok lo :
  unit_test ic r = Some ok -> 1 <= lo -> scans ic (Rep true lo None r) (run_scan ok lo).
Proof.
  intros H Hlo. destruct (unit_test_eat _ _ _ H) as [Hg Heat]. split.
  - intros prev s idx. unfold match_here. cbn [rmatch]. rewrite Hg.
    rewrite (repeat_run _ ok Heat) by (cbn [ms_rest]; lia).
    unfold run_scan. destruct (Nat.leb lo _); trivial.
    cbn [ms_caps ms_prev ms_rest]. rewrite skipn_take_while.
    f_equal. f_equal. rewrite <- (take_drop_while ok s) at 1. apply consumed_app.
  - intros s u caps. unfold run_scan.
    destruct (Nat.leb_spec lo (List.length (take_while ok s))); [ | discriminate].
    intros [= <- _]. split; [ | apply firstn_take_while].
    intros E. rewrite E in *. simpl in *. lia.
Qed.

(** Closed forms of the rewriting. *)
Lemma rewrite_unit ok rep : forall fuel s,
  List.length s < fuel ->
  rewrite_with (unit_scan ok) (fun _ _ => rep) fuel s
  = flat_map (fun c => if ok c then rep else [c]) s.
Proof.
  induction fuel as [ | fuel IH]; intros s H; [lia | ].
  destruct s as [ | c t]; [reflexivity | ].
  cbn [rewrite_with unit_scan flat_map]. destruct (ok c); cbn [List.length skipn app];
    rewrite IH by (simpl in H; lia); reflexivity.
Qed.

Lemma filter_take_while_out ok s :
  filter (fun c => negb (ok c)) (take_while ok s) = [].
Proof.
  induction s as [ | c t IH]; simpl; trivial. destruct (ok c) eqn:E; simpl; trivial.
  now rewrite E.
Qed.

Lemma rewrite_run_delete ok : forall fuel s,
  List.length s < fuel ->
  rewrite_with (run_scan ok 1) (fun _ _ => []) fuel s = filter (fun c => negb (ok c)) s.
Proof.
  induction fuel as [ | fuel IH]; intros s H; [lia | ].
  destruct s as [ | c t]; [reflexivity | ].
  cbn [rewrite_with]. unfold run_scan. cbn [take_while filter].
  destruct (ok c) eqn:E; cbn [List.length Nat.leb negb skipn app].
  - rewrite skipn_take_while. rewrite IH.
    + rewrite <- (take_drop_while ok t) at 2.
      now rewrite filter_app, filter_take_while_out.
    + pose proof (f_equal (@List.length _) (take_drop_while ok t)) as Hl.
      rewrite length_app in Hl. simpl in H. lia.
  - rewrite IH by (simpl in H; lia). reflexivity.
Qed.

(** Deleting the matches of a one-unit pattern, or of its runs. *)
Lemma replaceAll_delete_units ic r ok s :
  unit_test ic r = Some ok ->
  replaceAll ic r (fun _ => []) s = filter (fun c => negb (ok c)) s.
Proof.
  intros H.
  rewrite (replaceAll_scan ic r (unit_scan ok) (fun _ => []) (fun _ _ => []))
    by (trivial; now apply scans_unit).
  rewrite rewrite_unit by lia.
  induction s as [ | c t IH]; simpl; trivial. destruct (ok c); simpl; now rewrite IH.
Qed.

Lemma replaceAll_delete_runs ic r ok s :
  unit_test ic r = Some ok ->
  replaceAll ic (plus r) (fun _ => []) s = filter (fun c => negb (ok c)) s.
Proof.
  intros H. unfold plus.
  rewrite (replaceAll_scan ic _ (run_scan ok 1) (fun _ => []) (fun _ _ => []))
    by (trivial; apply scans_run; trivial).
  apply rewrite_run_delete. lia.
Qed.

(** ** Ids *)

Lemma toId_filter name :
  toId name = filter id_unit (toLowerCase (match name with Some s => s | None => [] end)).
Proof.
  unfold toId.
  rewrite (replaceAll_delete_runs false _ (cls_mem false true [rng "a" "z"; rng "0" "9"]))
    by reflexivity.
  apply filter_ext. intros c. unfold cls_mem, id_unit.
  cbn [existsb cset_mem rng js]. 
  change (rng "a" "z") with (CRange 97%N 122%N). change (rng "0" "9") with (CRange 48%N 57%N).
  cbn [existsb cset_mem].
  destruct (in_range 97%N 122%N c), (in_range 48%N 57%N c); reflexivity.
Qed.

Lemma toLowerUnit_id_unit c : id_unit c = true -> toLowerUnit c = c.
Proof.
  unfold id_unit. rewrite orb_true_iff, !in_range_spec. intros H.
  rewrite toLowerUnit_ascii by lia.
  destruct (in_range 65%N 90%N c) eqn:E; trivial. apply in_range_spec in E. lia.
Qed.

Lemma toId_units name : forallb id_unit (toId name) = true.
Proof.
  rewrite toId_filter. apply forallb_forall. intros c Hc. now apply filter_In in Hc.
Qed.

(** X15: an id made by [toId] holds only small letters a-z and digits
    0-9, and [toId] leaves an id as it is; for a name of Latin-1 units,
    [toId] keeps, in their order, the units of the lower-cased name that
    are small letters or digits and drops every other unit. *)
Theorem toId_normal name :
  (forallb latin1 (match name with Some s => s | None => [] end) = true ->
   toId name
   = filter id_unit (toLowerCase (match name with Some s => s | None => [] end))) /\
  forallb id_unit (toId name) = true /\ toId (Some (toId name)) = toId name.
Proof.
  split; [intros _; apply toId_filter | ]. split; [apply toId_units | ].
  pose proof (toId_units name) as Hu. revert Hu. generalize (toId name) as x.
  intros x Hu. rewrite toId_filter. cbv beta iota.
  assert (Hl : toLowerCase x = x).
  { unfold toLowerCase. rewrite <- (map_id x) at 2.
    apply map_ext_in. intros c Hc. apply toLowerUnit_id_unit.
    rewrite forallb_forall in Hu. now apply Hu. }
  rewrite Hl. now apply forallb_filter_id.
Qed.

(** ** Whitespace in strain names *)

Lemma space_cls c : cls_mem false false [CSpace] c = is_space c.
Proof. unfold cls_mem. cbn [existsb cset_mem xorb]. now rewrite orb_false_r. Qed.

Lemma collapse_spaces_rewrite s :
  collapse_spaces s
  = rewrite_with (run_scan is_space 2) (fun _ _ => js " ") (S (List.length s)) s.
Proof.
  unfold collapse_spaces, re_spaces2, atleast, space.
  rewrite (replaceAll_scan false _ (run_scan (cls_mem false false [CSpace]) 2)
             (fun _ => js " ") (fun _ _ => js " "))
    by (trivial; apply scans_run; (reflexivity || lia)).
  generalize (S (List.length s)). intros fuel. revert s.
  induction fuel as [ | fuel IH]; intros s; cbn [rewrite_with]; trivial.
  assert (E : run_scan (cls_mem false false [CSpace]) 2 s = run_scan is_space 2 s).
  { unfold run_scan. replace (take_while (cls_mem false false [CSpace]) s)
      with (take_while is_space s); trivial.
    clear. induction s as [ | c t IH]; cbn [take_while]; trivial. rewrite space_cls.
    destruct (is_space c); now rewrite ?IH. }
  rewrite E. destruct (run_scan is_space 2 s) as [[u caps] | ]; [now rewrite IH | ].
  destruct s; now rewrite ?IH.
Qed.

Lemma hd_space_drop_while s : hd_space (drop_while is_space s) = false.
Proof.
  induction s as [ | c t IH]; simpl; trivial. destruct (is_space c) eqn:E; simpl; trivial.
Qed.

Lemma take_while_nil_hd s : take_while is_space s = [] -> hd_space s = false.
Proof. destruct s as [ | c t]; simpl; trivial. now destruct (is_space c). Qed.

Lemma single_spaced_cons c out :
  single_spaced out = true -> (is_space c && hd_space out = false) ->
  single_spaced (c :: out) = true.
Proof.
  intros H1 H2. cbn [single_spaced]. rewrite H1, andb_true_r.
  destruct out; simpl in *; now rewrite H2.
Qed.

Lemma rewrite_spaces : forall fuel s,
  List.length s < fuel ->
  single_spaced (rewrite_with (run_scan is_space 2) (fun _ _ => js " ") fuel s) = true /\
  (hd_space s = false ->
   hd_space (rewrite_with (run_scan is_space 2) (fun _ _ => js " ") fuel s) = false).
Proof.
  induction fuel as [ | fuel IH]; intros s H; [lia | ].
  destruct s as [ | c t]; [now split | ].
  cbn [rewrite_with].
  destruct (run_scan is_space 2 (c :: t)) as [[u caps] | ] eqn:R;
    unfold run_scan in R; cbn [take_while hd_space] in *.
  - destruct (is_space c) eqn:E; [ | discriminate R].
    destruct (Nat.leb _ _); [ | discriminate R]. injection R as <- <-.
    cbn [List.length]. 
    change (skipn (S (List.length (take_while is_space t))) (c :: t))
      with (skipn (List.length (take_while is_space t)) t).
    rewrite skipn_take_while.
    destruct (IH (drop_while is_space t)) as [H1 H2].
    { pose proof (f_equal (@List.length _) (take_drop_while is_space t)) as Hl.
      rewrite length_app in Hl. simpl in H. lia. }
    split; [ | discriminate].
    match goal with
    | |- context [js " " ++ ?x] => change (js " " ++ x) with (32%N :: x)
    end.
    apply single_spaced_cons; trivial.
    rewrite H2, andb_false_r; trivial. apply hd_space_drop_while.
  - destruct (IH t) as [H1 H2]; [simpl in H; lia | ].
    destruct (is_space c) eqn:E.
    + split; [ | discriminate].
      apply single_spaced_cons; trivial. rewrite H2, andb_false_r; trivial.
      apply take_while_nil_hd.
      destruct (take_while is_space t) as [ | d u]; [reflexivity | discriminate R].
    + split.
      * apply single_spaced_cons; trivial. now rewrite E.
      * intros _. simpl. now rewrite ?E.
Qed.

Lemma single_spaced_app a b :
  single_spaced (a ++ b) = true -> single_spaced a = true /\ single_spaced b = true.
Proof.
  induction a as [ | c a IH]; cbn [app]; [now split | ].
  cbn [single_spaced]. intros H. apply andb_prop in H as [H1 H2].
  destruct (IH H2) as [Ha Hb]. split; trivial. rewrite Ha, andb_true_r.
  destruct a as [ | d a]; cbn [app] in *; trivial.
  now destruct (is_space c).
Qed.

Lemma trimStart_drop s : trimStart s = drop_while is_space s.
Proof. induction s as [ | c t IH]; simpl; trivial. now destruct (is_space c). Qed.

Lemma trimStart_suffix s : exists a, s = a ++ trimStart s.
Proof.
  rewrite trimStart_drop. exists (take_while is_space s). symmetry. apply take_drop_while.
Qed.

Lemma trimEnd_prefix s : exists b, s = trimEnd s ++ b.
Proof.
  unfold trimEnd. destruct (trimStart_suffix (rev s)) as (a & Ha).
  exists (rev a). rewrite <- rev_app_distr, <- Ha. symmetry. apply rev_involutive.
Qed.

Lemma trimStart_fixed s : hd_space s = false -> trimStart s = s.
Proof. destruct s as [ | c t]; simpl; trivial. now intros ->. Qed.

Lemma hd_space_trimStart s : hd_space (trimStart s) = false.
Proof. rewrite trimStart_drop. apply hd_space_drop_while. Qed.

Lemma trim_fixed s : trim (trim s) = trim s.
Proof.
  unfold trim. set (a := trimStart s).
  assert (Ha : hd_space a = false) by apply hd_space_trimStart.
  assert (Hv : hd_space (trimEnd a) = false).
  { destruct (trimEnd_prefix a) as (b & Hb).
    destruct (trimEnd a) as [ | c v]; trivial. rewrite Hb in Ha. exact Ha. }
  rewrite (trimStart_fixed _ Hv). unfold trimEnd at 1.
  unfold trimEnd. rewrite rev_involutive.
  rewrite (trimStart_fixed (trimStart (rev a))) by apply hd_space_trimStart.
  reflexivity.
Qed.

Lemma single_spaced_trim s : single_spaced s = true -> single_spaced (trim s) = true.
Proof.
  intros H. unfold trim.
  destruct (trimStart_suffix s) as (a & Ha). rewrite Ha in H.
  apply single_spaced_app in H as [_ H].
  destruct (trimEnd_prefix (trimStart s)) as (b & Hb). rewrite Hb in H.
  now apply single_spaced_app in H as [H _].
Qed.

Lemma scans_breaks : scans false (Alt (Chr 13%N) (Chr 10%N)) (unit_scan is_break).
Proof.
  split.
  - intros prev s idx. unfold match_here, unit_scan, is_break.
    destruct s as [ | c t]; cbn [rmatch eat ms_rest canon]; trivial.
    destruct (N.eqb 13 c); cbn [orb ms_caps ms_prev ms_rest].
    + now rewrite consumed_one.
    + destruct (N.eqb 10 c); trivial. cbn [ms_caps ms_prev ms_rest]. now rewrite consumed_one.
  - intros s u caps. unfold unit_scan. destruct s as [ | c t]; [discriminate | ].
    destruct (is_break c); [ | discriminate]. intros [= <- _]. split; [discriminate | reflexivity].
Qed.

(** The rewriting keeps what holds of every unit of the input and of
    every replacement. *)
Lemma rewrite_with_Forall (P : char -> Prop) at_ g :
  (forall u caps, Forall P (g u caps)) ->
  forall fuel s, Forall P s -> Forall P (rewrite_with at_ g fuel s).
Proof.
  intros Hg. induction fuel as [ | fuel IH]; intros s Hs; cbn [rewrite_with]; trivial.
  destruct (at_ s) as [[u caps] | ].
  - apply Forall_app. split; [apply Hg | ]. apply IH.
    rewrite <- (firstn_skipn (List.length u) s) in Hs. now apply Forall_app in Hs.
  - destruct s as [ | c t]; trivial. inversion Hs; subst. constructor; auto.
Qed.

Lemma Forall_trim (P : char -> Prop) s : Forall P s -> Forall P (trim s).
Proof.
  intros H. unfold trim.
  destruct (trimStart_suffix s) as (a & Ha). rewrite Ha in H.
  apply Forall_app in H as [_ H].
  destruct (trimEnd_prefix (trimStart s)) as (b & Hb). rewrite Hb in H.
  now apply Forall_app in H as [H _].
Qed.

Lemma clean_value_one_line v :
  Forall (fun c => is_break c = false) (clean_value v).
Proof.
  unfold clean_value. apply Forall_trim. rewrite collapse_spaces_rewrite.
  apply rewrite_with_Forall; [intros; repeat constructor | ].
  rewrite (replaceAll_scan false _ (unit_scan is_break) (fun _ => js " ") (fun _ _ => js " "))
    by (trivial; apply scans_breaks).
  rewrite rewrite_unit by lia.
  induction v as [ | c t IH]; cbn [flat_map]; [constructor | ].
  apply Forall_app. split; trivial.
  destruct (is_break c) eqn:E; repeat constructor. exact E.
Qed.

Lemma clean_value_normal v :
  trim (clean_value v) = clean_value v /\ single_spaced (clean_value v) = true.
Proof.
  unfold clean_value. split; [apply trim_fixed | ].
  apply single_spaced_trim. rewrite collapse_spaces_rewrite.
  apply rewrite_spaces. lia.
Qed.

(** X16: a strain name that [parseStrain] returns is trimmed, holds no
    two whitespace units side by side and no carriage return or line
    feed. *)
Theorem parseStrain_normal text v :
  parseStrain text = Some v ->
  trim v = v /\ single_spaced v = true /\ Forall (fun c => is_break c = false) v.
Proof.
  unfold parseStrain. induction strain_patterns as [ | re pats IH]; [discriminate | ].
  cbn [first_match]. destruct (exec true re text) as [m | ]; [ | exact IH].
  intros [= <-]. destruct (clean_value_normal (capture1 m)) as [H1 H2].
  repeat split; trivial. apply clean_value_one_line.
Qed.

(** The value of a "Sample Alias" row with doubled and trailing blanks. *)
Lemma parseStrain_normal_witness :
  parseStrain (js "Sample Alias:  Blue   Dream ") = Some (js "Blue Dream") /\
  trim (js "Blue Dream") = js "Blue Dream" /\ single_spaced (js "Blue Dream") = true /\
  Forall (fun c => is_break c = false) (js "Blue Dream").
Proof.
  split; [vm_compute; reflexivity | ].
  apply (parseStrain_normal (js "Sample Alias:  Blue   Dream ")). vm_compute. reflexivity.
Defined.

(** ** Units and numbers *)

Lemma search_unit ic r ok :
  unit_test ic r = Some ok ->
  forall s prev idx,
    search ic r prev s idx = None <-> existsb ok s = false.
Proof.
  intros H. destruct (scans_unit ic r ok H) as [Hm _].
  induction s as [ | c t IH]; intros prev idx; cbn [search existsb]; rewrite Hm;
    cbn [unit_scan]; [tauto | ].
  destruct (ok c); cbn [orb]; [split; discriminate | apply IH].
Qed.

Lemma test_unit ic r ok s :
  unit_test ic r = Some ok -> test ic r s = existsb ok s.
Proof.
  intros H. unfold test, exec.
  pose proof (search_unit ic r ok H s None 0) as Hs.
  destruct (search ic r None s 0); destruct (existsb ok s); trivial.
  - destruct Hs as [_ Hs]. discriminate Hs; trivial.
  - destruct Hs as [Hs _]. discriminate Hs; trivial.
Qed.

(** X17: a unit token that holds a percent sign is read as percent, whatever
    else it holds. *)
Theorem unitFrom_percent_first s :
  In 37%N s -> unitFrom s = Some Percent.
Proof.
  intros H. unfold unitFrom. destruct s as [ | c t]; [destruct H | ]. cbv zeta.
  rewrite (test_unit false (chr "%") (fun ch : char => N.eqb 37 ch)) by reflexivity.
  assert (E : existsb (fun ch : char => N.eqb 37 ch) (toLowerCase (c :: t)) = true).
  { apply existsb_exists. exists 37%N. split; [ | reflexivity].
    unfold toLowerCase. apply in_map_iff. exists 37%N. split; [reflexivity | exact H]. }
  now rewrite E.
Qed.

(** The token "mg/g (%)" is read as percent. *)
Lemma unitFrom_percent_first_witness :
  In 37%N (js "mg/g (%)") /\ unitFrom (js "mg/g (%)") = Some Percent.
Proof.
  assert (H : In 37%N (js "mg/g (%)")) by (vm_compute; tauto).
  split; [exact H | ]. exact (unitFrom_percent_first (js "mg/g (%)") H).
Defined.


Lemma digit_cls c : cls_mem false false [CDigit] c = is_digit c.
Proof. unfold cls_mem. cbn [existsb cset_mem xorb]. now rewrite orb_false_r. Qed.

(** A match of [/-?\d+(?:\.\d+)?/] begins with a digit, or with a hyphen
    and a digit. *)
Lemma float_needs_digit prev s idx m :
  match_here false re_float prev s idx = Some m -> existsb is_digit s = true.
Proof.
  unfold match_here. 
  let nf := eval vm_compute in re_float in change re_float with nf.
  destruct (rmatch _ _ _ _) as [z | ] eqn:E; [ | discriminate]. intros _. clear m.
  revert E. run.
  destruct s as [ | c t]; run; [discriminate | ].
  rewrite digit_cls.
  destruct (is_digit c) eqn:Hc; [intros _; cbn [existsb]; now rewrite Hc | ].
  destruct (N.eqb 45 c); [ | discriminate].
  replace (Nat.eqb (List.length t) (S (List.length t))) with false
    by (symmetry; apply Nat.eqb_neq; lia).
  run.
  destruct t as [ | d t]; run; [discriminate | ].
  rewrite digit_cls.
  destruct (is_digit d) eqn:Hd; [intros _; cbn [existsb]; rewrite Hd; now rewrite orb_true_r | ].
  discriminate.
Qed.

Lemma rep0_total m gs fuel hi k st :
  k st <> None -> repeat m gs true (S fuel) 0 hi k st <> None.
Proof.
  intros Hk. cbn [repeat Nat.eqb negb].
  destruct hi as [[ | hi] | ]; trivial; destruct (m _ _); trivial; discriminate.
Qed.

Lemma rmatch_seq ic a b k st :
  rmatch ic (Seq a b) k st = rmatch ic a (rmatch ic b k) st.
Proof. reflexivity. Qed.

Lemma rmatch_rep ic g lo hi r k st :
  rmatch ic (Rep g lo hi r) k st
  = repeat (rmatch ic r) (groups_of r) g (S (lo + List.length (ms_rest st))) lo hi k st.
Proof. reflexivity. Qed.

(** The pattern matches wherever a digit stands. *)
Lemma float_at_digit prev d b idx :
  is_digit d = true -> match_here false re_float prev (d :: b) idx <> None.
Proof.
  intros Hd. unfold match_here.
  assert (H : rmatch false re_float Some (MState prev (d :: b) []) <> None).
  { unfold re_float, seqs, opt, plus. cbn [fold_right].
    rewrite rmatch_seq, rmatch_rep. apply rep0_total.
    rewrite rmatch_seq, rmatch_rep.
    cbn [repeat Nat.eqb negb option_map].
    unfold digit at 1. cbn [rmatch eat ms_rest ms_prev ms_caps groups_of caps_clear fold_right].
    rewrite digit_cls, Hd. cbn [andb Nat.eqb Nat.pred].
    change (1 + List.length (d :: b)) with (S (List.length (d :: b))).
    apply rep0_total. cbn [Nat.add]. apply rep0_total. discriminate. }
  destruct (rmatch _ _ _ _); [discriminate | contradiction].
Qed.

Lemma existsb_first {A} (p : A -> bool) l :
  existsb p l = true ->
  exists a d b, l = a ++ d :: b /\ p d = true.
Proof.
  intros H. apply existsb_exists in H as (d & Hin & Hd).
  apply in_split in Hin as (a & b & ->). now exists a, d, b.
Qed.

(** X18: [toFloatSafe] returns null exactly for the strings that hold
    no digit; a string with a digit, wherever it stands, gives a number. *)
Theorem toFloatSafe_digit s :
  toFloatSafe (Some s) = None <-> existsb is_digit s = false.
Proof.
  unfold toFloatSafe.
  rewrite (replaceAll_delete_units false (chr ",") (fun ch : char => N.eqb 44 ch))
    by reflexivity.
  set (s' := filter _ s).
  assert (Hs : existsb is_digit s' = existsb is_digit s).
  { unfold s'. clear. induction s as [ | c t IH]; [reflexivity | ].
    cbn [filter existsb]. destruct (N.eqb_spec 44 c) as [<- | Hc]; cbn [negb existsb].
    - exact IH.
    - now rewrite IH. }
  rewrite <- Hs. split.
  - destruct (exec false re_float s') as [m | ] eqn:E; [discriminate | ]. intros _.
    destruct (existsb is_digit s') eqn:Ed; trivial.
    apply existsb_first in Ed as (a & d & b & Hs' & Hd).
    pose proof (float_at_digit (unit_before None a) d b (0 + List.length a) Hd) as Hm.
    destruct (match_here _ _ _ _ _) as [m | ] eqn:Em; [ | contradiction].
    destruct (search_complete false re_float a None (d :: b) 0 m Em) as (m' & Hm' & _).
    unfold exec in E. rewrite Hs' in E. congruence.
  - intros Hd. destruct (exec false re_float s') as [m | ] eqn:E; trivial.
    apply search_sound in E as (pre & s2 & Hpre & _ & Hhere).
    apply float_needs_digit in Hhere.
    rewrite Hpre, existsb_app, Hhere, orb_true_r in Hd. discriminate.
Qed.

(** ** The type of a COA *)

Lemma letter_no_space c : is_letter c = true -> is_space c = false.
Proof.
  unfold is_letter. rewrite orb_true_iff, !in_range_spec. intros H.
  unfold is_space.
  assert (E1 : in_range 9%N 13%N c = false) by (apply in_range_false; lia).
  assert (E2 : in_range 8192%N 8202%N c = false) by (apply in_range_false; lia).
  rewrite E1, E2.
  repeat match goal with
         | |- context [N.eqb c ?k] =>
             replace (N.eqb c k) with false by (symmetry; apply N.eqb_neq; lia)
         end.
  reflexivity.
Qed.

Lemma same_letters_letters w : forall u,
  forallb is_letter w = true -> same_letters true w u -> forallb is_letter u = true.
Proof.
  intros u Hw Hs. induction Hs as [ | c ch w u Hc Hs IH]; [reflexivity | ].
  cbn [forallb] in *. apply andb_prop in Hw as [Hl Hw]. rewrite (IH Hw), andb_true_r.
  destruct (canon_of_letter c Hl) as (U & HU & HcU & _).
  rewrite HcU in Hc. symmetry in Hc. apply (canon_capital ch U HU) in Hc.
  unfold is_letter. apply orb_true_iff. rewrite !in_range_spec. lia.
Qed.

Lemma trimEnd_fixed s : hd_space (rev s) = false -> trimEnd s = s.
Proof.
  intros H. unfold trimEnd. rewrite (trimStart_fixed _ H). apply rev_involutive.
Qed.

Lemma trim_letters u : forallb is_letter u = true -> trim u = u.
Proof.
  intros H. unfold trim.
  assert (Hsp : forall l, forallb is_letter l = true -> hd_space l = false).
  { intros [ | c l] Hl; trivial. cbn [forallb] in Hl. apply andb_prop in Hl as [Hc _].
    now apply letter_no_space. }
  rewrite (trimStart_fixed u (Hsp u H)). apply trimEnd_fixed. apply Hsp.
  rewrite forallb_forall in *. intros c Hc. apply H. now apply in_rev.
Qed.

(** A lineage word found in a text is six letters. *)
Lemma pickSih_letters text u :
  pickSih text = Some u -> forallb is_letter u = true /\ u <> [].
Proof.
  unfold pickSih. destruct (exec true re_sih text) as [m | ] eqn:Hm; [ | discriminate].
  intros Hg. destruct (search_sound _ _ _ _ _ _ Hm) as (pre & s & _ & _ & Hhere).
  rewrite re_sih_word3 in Hhere.
  destruct (word3_match _ _ _ _ _ _ _ Hhere) as (w & u' & Hw & Hs & Hg').
  assert (u' = u) as -> by congruence.
  assert (Hl : forallb is_letter w = true /\ w <> []).
  { destruct Hw as [<- | [<- | [<- | []]]]; split; (reflexivity || discriminate). }
  destruct Hl as [Hl Hne]. split; [now apply (same_letters_letters w) | ].
  intros ->. inversion Hs. congruence.
Qed.

(** X19: the type [extractType] returns is never the empty string and
    has no whitespace at either end. *)
Theorem extractType_clean text t :
  extractType text = Some t -> t <> [] /\ trim t = t.
Proof.
  unfold extractType.
  destruct (pickSih text) as [[ | c sih] | ] eqn:E1; cbn [truthy].
  2:{ intros [= <-]. split; [discriminate | ].
      apply trim_letters. now apply (pickSih_letters text). }
  all: unfold pickTypeRow;
    destruct (exec true re_type_row text) as [m | ]; [ | discriminate];
    destruct (trim (capture1 m)) as [ | c0 row] eqn:Er; cbn [truthy]; [discriminate | ];
    destruct (pickSih (c0 :: row)) as [[ | c1 tail] | ] eqn:E2; cbn [truthy];
    intros [= <-]; (split; [discriminate | ]);
    try (apply trim_letters; now apply (pickSih_letters (c0 :: row)));
    rewrite <- Er; apply trim_fixed.
Qed.

(** The value of a "Type:" row that names no lineage, cut at the doubled
    blank. *)
Lemma extractType_clean_witness :
  extractType (js "Type:  Pre-Roll   Batch 7") = Some (js "Pre-Roll") /\
  js "Pre-Roll" <> [] /\ trim (js "Pre-Roll") = js "Pre-Roll".
Proof.
  split; [vm_compute; reflexivity | ].
  apply (extractType_clean (js "Type:  Pre-Roll   Batch 7")). vm_compute. reflexivity.
Defined.

(** ** Canonical names have the form of a key *)

Lemma toLowerUnit_fixed v :
  in_range 65%N 90%N v = false -> in_range 192%N 222%N v = false ->
  in_range 913%N 937%N v = false -> toLowerUnit v = v.
Proof. intros H1 H2 H3. unfold toLowerUnit. now rewrite H1, H2, H3. Qed.

Lemma toLowerUnit_twice c : toLowerUnit (toLowerUnit c) = toLowerUnit c.
Proof.
  unfold toLowerUnit at 2 3.
  destruct (in_range 65%N 90%N c) eqn:E1.
  { apply in_range_spec in E1. apply toLowerUnit_fixed; apply in_range_false; lia. }
  destruct (in_range 192%N 222%N c && negb (N.eqb c 215)) eqn:E2.
  { apply andb_prop in E2 as [E2 _]. apply in_range_spec in E2.
    apply toLowerUnit_fixed; apply in_range_false; lia. }
  destruct (in_range 913%N 937%N c && negb (N.eqb c 930)) eqn:E3.
  { apply andb_prop in E3 as [E3 _]. apply in_range_spec in E3.
    apply toLowerUnit_fixed; apply in_range_false; lia. }
  unfold toLowerUnit. now rewrite E1, E2, E3.
Qed.

Lemma map_fixed {A} (f : A -> A) l : Forall (fun a => f a = a) l -> map f l = l.
Proof. induction 1 as [ | a l Ha Hl IH]; simpl; congruence. Qed.

Lemma raw_key_form name : key_form (trim (toLowerCase name)) = true.
Proof.
  unfold key_form. apply andb_true_intro. split; apply str_eqb_eq.
  - unfold toLowerCase at 1. apply map_fixed. apply Forall_trim.
    unfold toLowerCase. apply Forall_forall. intros c Hc.
    apply in_map_iff in Hc as (c' & <- & _). apply toLowerUnit_twice.
  - apply trim_fixed.
Qed.

Lemma lookup_In k tbl v : lookup k tbl = Some v -> In v (map snd tbl).
Proof.
  induction tbl as [ | [k' v'] t IH]; simpl; [discriminate | ].
  destruct (str_eqb k k'); [intros [= ->]; now left | intros H; right; now apply IH].
Qed.

Lemma canonTerp_key name n : canonTerp name = Some n -> key_form n = true.
Proof.
  unfold canonTerp. destruct name as [ | c0 name]; [discriminate | ].
  destruct (lookup _ SYN) as [v | ] eqn:El.
  - intros [= <-]. apply lookup_In in El.
    assert (Hall : forallb key_form (map snd SYN) = true) by (vm_compute; reflexivity).
    rewrite forallb_forall in Hall. now apply Hall.
  - destruct (test true re_alpha_pinene _); [intros [= <-]; vm_compute; reflexivity | ].
    destruct (test true re_beta_pinene _); [intros [= <-]; vm_compute; reflexivity | ].
    destruct (test true re_pinene _); [intros [= <-]; vm_compute; reflexivity | ].
    destruct (find _ KNOWN_TERPENES) as [t | ] eqn:Ef; intros [= <-].
    + apply find_some in Ef as [Hin _].
      assert (Hall : forallb key_form KNOWN_TERPENES = true) by (vm_compute; reflexivity).
      rewrite forallb_forall in Hall. now apply Hall.
    + exact (raw_key_form (c0 :: name)).
Qed.

(** X20: for a name of Latin-1 units whose trimmed lower-case form is
    no property name a plain object inherits (on these names
    [String.prototype.toLowerCase] and [SYN[raw]] are the table and the
    lookup used here), a name [canonTerp] returns is in the form of a
    key: lower case, with no whitespace at either end, whether it comes
    from [SYN], from [KNOWN_TERPENES], from a pinene pattern or from the
    input itself. *)
Theorem canonTerp_key_form name n :
  forallb latin1 name = true ->
  ~ In (trim (toLowerCase name)) inherited_keys ->
  canonTerp name = Some n -> toLowerCase n = n /\ trim n = n.
Proof.
  intros _ _ H. apply canonTerp_key in H. unfold key_form in H.
  apply andb_prop in H as [H1 H2]. now apply str_eqb_eq in H1, H2.
Qed.

(** The name " Beta-Myrcene " with blanks and capitals. *)
Lemma canonTerp_key_form_witness :
  forallb latin1 (js "  Beta-Myrcene ") = true /\
  ~ In (trim (toLowerCase (js "  Beta-Myrcene "))) inherited_keys /\
  canonTerp (js "  Beta-Myrcene ") = Some (js "myrcene") /\
  toLowerCase (js "myrcene") = js "myrcene" /\ trim (js "myrcene") = js "myrcene".
Proof.
  assert (H1 : forallb latin1 (js "  Beta-Myrcene ") = true) by (vm_compute; reflexivity).
  assert (H2 : ~ In (trim (toLowerCase (js "  Beta-Myrcene "))) inherited_keys).
  { vm_compute. intros [H | [H | []]]; discriminate H. }
  split; [exact H1 | ]. split; [exact H2 | ].
  split; [vm_compute; reflexivity | ].
  apply (canonTerp_key_form (js "  Beta-Myrcene ") (js "myrcene") H1 H2).
  vm_compute. reflexivity.
Defined.

(** ** Ids made by [makeId] *)

Lemma id_unit_no_space c : id_unit c = true -> is_space c = false.
Proof.
  unfold id_unit. rewrite orb_true_iff, !in_range_spec. intros H.
  unfold is_space.
  assert (E1 : in_range 9%N 13%N c = false) by (apply in_range_false; lia).
  assert (E2 : in_range 8192%N 8202%N c = false) by (apply in_range_false; lia).
  rewrite E1, E2.
  repeat match goal with
         | |- context [N.eqb c ?k] =>
             replace (N.eqb c k) with false by (symmetry; apply N.eqb_neq; lia)
         end.
  reflexivity.
Qed.

Lemma id_units_key_form s : forallb id_unit s = true -> toLowerCase s = s /\ trim s = s.
Proof.
  intros H. split.
  - unfold toLowerCase. apply map_fixed. apply Forall_forall. intros c Hc.
    apply toLowerUnit_id_unit. rewrite forallb_forall in H. now apply H.
  - assert (Hsp : forall l, forallb id_unit l = true -> hd_space l = false).
    { intros [ | c l] Hl; trivial. cbn [forallb] in Hl. apply andb_prop in Hl as [Hc _].
      now apply id_unit_no_space. }
    unfold trim. rewrite (trimStart_fixed s (Hsp s H)). apply trimEnd_fixed. apply Hsp.
    rewrite forallb_forall in *. intros c Hc. apply H. now apply in_rev.
Qed.

(** X22: for an object without an id of its own, [makeId] returns a
    string of small letters a-z and digits 0-9 only (the digits of the last
    path segment of the code, or [toId] of the name), whatever the URL
    parser makes of the code; such an id is lower case and trimmed, the
    form in which [GET /api/strains/:id] compares ids. *)
Theorem makeId_form (pathname : str -> option str) code name :
  forallb id_unit (Ids.makeId pathname None code name) = true /\
  toLowerCase (Ids.makeId pathname None code name) = Ids.makeId pathname None code name /\
  trim (Ids.makeId pathname None code name) = Ids.makeId pathname None code name.
Proof.
  assert (H : forallb id_unit (Ids.makeId pathname None code name) = true).
  { unfold Ids.makeId. pose proof (toId_units name) as Hn.
    destruct code as [c | ]; trivial. destruct (pathname c) as [path | ]; trivial.
    rewrite (replaceAll_delete_runs false _ (cls_mem false true [CDigit])) by reflexivity.
    destruct (filter _ _) as [ | d ds] eqn:E; trivial.
    rewrite <- E. apply forallb_forall. intros x Hx. apply filter_In in Hx as [_ Hx].
    unfold cls_mem in Hx. cbn [existsb cset_mem xorb] in Hx.
    unfold id_unit. apply orb_true_iff. right. unfold is_digit in Hx.
    destruct (in_range 48%N 57%N x); trivial; discriminate Hx. }
  split; trivial. now apply id_units_key_form.
Qed.

(** X6: with ids written in small letters a-z and digits 0-9, the form
    [toId] and [makeId] give, the object just upserted is the one
    [GET /api/strains/:id] finds under its id. *)
Theorem getStrain_upsertStrain {strain} (id : strain -> str) s l :
  (forall x, In x l -> forallb id_unit (id x) = true) ->
  forallb id_unit (id s) = true ->
  Db.getStrain id (id s) (Db.upsertStrain id s l) = Some s.
Proof.
  intros Hl Hs. unfold Db.getStrain.
  destruct (id_units_key_form (id s) Hs) as [Hlow Htrim]. rewrite Htrim, Hlow.
  rewrite <- (stored_upsertStrain strain id s l). unfold Db.stored.
  assert (Hin : forall x, In x (Db.upsertStrain id s l) -> toLowerCase (id x) = id x).
  { intros x Hx. apply id_units_key_form.
    destruct (upsertStrain_In strain id s x l Hx) as [-> | Hx']; auto. }
  induction (Db.upsertStrain id s l) as [ | x t IH]; [reflexivity | ].
  cbn [find]. rewrite (Hin x) by now left.
  destruct (str_eqb (id x) (id s)); trivial. apply IH. intros y Hy. apply Hin. now right.
Qed.

(** The object with the id "ak47" is found after it was put beside
    "og1". *)
Lemma getStrain_upsertStrain_witness :
  (forall x, In x [(js "og1", 1)] -> forallb id_unit (fst x) = true) /\
  forallb id_unit (fst (js "ak47", 2)) = true /\
  Db.getStrain fst (fst (js "ak47", 2)) (Db.upsertStrain fst (js "ak47", 2) [(js "og1", 1)])
    = Some (js "ak47", 2).
Proof.
  assert (H1 : forall x, In x [(js "og1", 1)] -> forallb id_unit (fst x) = true).
  { intros x [<- | []]. reflexivity. }
  assert (H2 : forallb id_unit (fst (js "ak47", 2)) = true) by reflexivity.
  split; [exact H1 | ]. split; [exact H2 | ].
  exact (getStrain_upsertStrain fst (js "ak47", 2) [(js "og1", 1)] H1 H2).
Defined.

(** ** The collection step *)

Lemma flt_lex x y : flt x y = true -> lex_lt (forder x) (forder y).
Proof.
  unfold flt, SFltb, SFcompare, lex_lt.
  destruct x as [sx | [ | ] | | [ | ] mx ex], y as [sy | [ | ] | | [ | ] my ey];
    cbn [forder fst snd]; try discriminate; try (intros _; lia).
  - change (Pos.compare_cont Eq) with Pos.compare.
    destruct (Z.compare_spec ex ey); cbn [CompOpp]; try discriminate; try (intros _; lia).
    destruct (Pos.compare_spec mx my); cbn [CompOpp]; try discriminate. intros _. lia.
  - change (Pos.compare_cont Eq) with Pos.compare.
    destruct (Z.compare_spec ex ey); try discriminate; try (intros _; lia).
    destruct (Pos.compare_spec mx my); try discriminate. intros _. lia.
Qed.

Lemma lex_flt x y :
  x <> S754_nan -> y <> S754_nan -> lex_lt (forder x) (forder y) -> flt x y = true.
Proof.
  unfold flt, SFltb, SFcompare, lex_lt.
  destruct x as [sx | [ | ] | | [ | ] mx ex], y as [sy | [ | ] | | [ | ] my ey];
    cbn [forder fst snd]; intros Hx Hy H; try congruence; try reflexivity; try lia.
  - change (Pos.compare_cont Eq) with Pos.compare.
    destruct (Z.compare_spec ex ey); cbn [CompOpp]; try reflexivity; try lia.
    destruct (Pos.compare_spec mx my); cbn [CompOpp]; try reflexivity; lia.
  - change (Pos.compare_cont Eq) with Pos.compare.
    destruct (Z.compare_spec ex ey); try reflexivity; try lia.
    destruct (Pos.compare_spec mx my); try reflexivity; lia.
Qed.

Lemma flt_not_nan x y : flt x y = true -> x <> S754_nan /\ y <> S754_nan.
Proof.
  unfold flt, SFltb, SFcompare.
  destruct x as [sx | [ | ] | | [ | ] mx ex], y as [sy | [ | ] | | [ | ] my ey];
    try discriminate; intros _; split; discriminate.
Qed.

(** [<] on numbers is irreflexive and transitive. *)
Lemma flt_irrefl x : flt x x = false.
Proof.
  destruct (flt x x) eqn:E; trivial. apply flt_lex in E. unfold lex_lt in E. lia.
Qed.

Lemma flt_trans x y z : flt x y = true -> flt y z = true -> flt x z = true.
Proof.
  intros H1 H2.
  destruct (flt_not_nan _ _ H1) as [Hx _], (flt_not_nan _ _ H2) as [_ Hz].
  apply flt_lex in H1, H2. apply lex_flt; trivial. unfold lex_lt in *. lia.
Qed.

Lemma best_get_set_same k r best : best_get k (best_set k r best) = Some r.
Proof.
  induction best as [ | [k' r'] t IH]; simpl.
  - now rewrite str_eqb_refl.
  - destruct (str_eqb k k') eqn:E; simpl; [now rewrite str_eqb_refl | now rewrite E].
Qed.

Lemma best_get_set_other k k' r best :
  k' <> k -> best_get k' (best_set k r best) = best_get k' best.
Proof.
  intros Hk. induction best as [ | [k0 r0] t IH]; simpl.
  - rewrite str_eqb_neq; trivial.
  - destruct (str_eqb k k0) eqn:E; simpl.
    + apply str_eqb_eq in E. subst k0. now rewrite str_eqb_neq.
    + now rewrite IH.
Qed.

Lemma keep_best_max rows best r :
  best_max rows best -> best_max (rows ++ [r]) (keep_best best r).
Proof.
  intros [Hmax Hin]. unfold keep_best.
  assert (Hset : forall prev,
            (best_get (name r) best = None \/
             (best_get (name r) best = Some prev /\ flt (percent prev) (percent r) = true)) ->
            best_max (rows ++ [r]) (best_set (name r) r best)).
  { intros prev Hprev. split.
    - intros r0 Hr0. apply in_app_or in Hr0 as [Hr0 | [<- | []]].
      + destruct (list_eq_dec N.eq_dec (name r0) (name r)) as [E | E].
        * rewrite E, best_get_set_same. exists r. split; trivial.
          destruct (Hmax r0 Hr0) as (b & Hb & Hle). rewrite E in Hb.
          destruct Hprev as [Hn | [Hp Hlt]]; [congruence | ].
          assert (b = prev) as -> by congruence.
          destruct (flt (percent r) (percent r0)) eqn:F; trivial.
          rewrite (flt_trans _ _ _ Hlt F) in Hle. discriminate.
        * rewrite best_get_set_other by trivial. now apply Hmax.
      + rewrite best_get_set_same. exists r. split; trivial. apply flt_irrefl.
    - intros k b Hb. destruct (list_eq_dec N.eq_dec k (name r)) as [E | E].
      + subst k. rewrite best_get_set_same in Hb. injection Hb as <-.
        split; trivial. apply in_or_app. right. now left.
      + rewrite best_get_set_other in Hb by trivial.
        destruct (Hin k b Hb). split; trivial. apply in_or_app. now left. }
  destruct (best_get (name r) best) as [prev | ] eqn:G.
  - destruct (flt (percent prev) (percent r)) eqn:F.
    + apply (Hset prev). right. now split.
    + split.
      * intros r0 Hr0. apply in_app_or in Hr0 as [Hr0 | [<- | []]]; [now apply Hmax | ].
        exists prev. now split.
      * intros k b Hb. destruct (Hin k b Hb). split; trivial. apply in_or_app. now left.
  - apply (Hset r). now left.
Qed.

Lemma fold_keep_best_max rows2 : forall rows1 best,
  best_max rows1 best -> best_max (rows1 ++ rows2) (fold_left keep_best rows2 best).
Proof.
  induction rows2 as [ | r rows2 IH]; intros rows1 best H; cbn [fold_left].
  - now rewrite app_nil_r.
  - replace (rows1 ++ r :: rows2) with ((rows1 ++ [r]) ++ rows2)
      by now rewrite <- app_assoc.
    apply IH. now apply keep_best_max.
Qed.

Lemma best_get_In k b best : best_get k best = Some b -> In (k, b) best.
Proof.
  induction best as [ | [k' r'] t IH]; simpl; [discriminate | ].
  destruct (str_eqb k k') eqn:E.
  - apply str_eqb_eq in E. subst. intros [= ->]. now left.
  - intros H. right. now apply IH.
Qed.

Lemma In_best_get k b best :
  NoDup (map fst best) -> In (k, b) best -> best_get k best = Some b.
Proof.
  induction best as [ | [k' r'] t IH]; simpl; [tauto | ].
  intros Hnd [[= -> ->] | Hin].
  - now rewrite str_eqb_refl.
  - inversion Hnd as [ | ? ? Hn Hnd']; subst.
    destruct (str_eqb k k') eqn:E; [ | now apply IH].
    apply str_eqb_eq in E. subst k'. exfalso. apply Hn.
    apply in_map_iff. now exists (k, b).
Qed.

Lemma collect_best_max text :
  best_max (terpene_rows text) (fold_left keep_best (terpene_rows text) []).
Proof.
  apply (fold_keep_best_max (terpene_rows text) [] []).
  split; [intros r [] | discriminate].
Qed.

Lemma collect_rows_read text b :
  In b (collectTerpenesAsPercent text) -> In b (terpene_rows text).
Proof.
  unfold collectTerpenesAsPercent. intros Hb.
  destruct (collect_best_max text) as [_ Hin].
  destruct (fold_keep_best_ok (terpene_rows text) []) as [Hnd _].
  { split; constructor. }
  apply in_map_iff in Hb as ([k b'] & <- & Hkb). cbn [snd].
  apply In_best_get in Hkb; trivial. now apply Hin in Hkb.
Qed.

(** X10: of the readings of one terpene, [collectTerpenesAsPercent]
    keeps one that no other reading of that terpene exceeds: every row it
    returns was read from a line, and every row read has its name in the
    result, with a percentage that is not below its own. *)
Theorem collectTerpenesAsPercent_keeps_max text :
  (forall b, In b (collectTerpenesAsPercent text) -> In b (terpene_rows text)) /\
  (forall r, In r (terpene_rows text) ->
     exists b, In b (collectTerpenesAsPercent text) /\ name b = name r /\
               flt (percent b) (percent r) = false).
Proof.
  split; [apply collect_rows_read | ].
  intros r Hr. unfold collectTerpenesAsPercent.
  destruct (collect_best_max text) as [Hmax Hin].
  destruct (Hmax r Hr) as (b & Hb & Hle). exists b.
  destruct (Hin _ _ Hb) as [_ Hname]. repeat split; trivial.
  apply best_get_In in Hb. apply in_map_iff. now exists (name r, b).
Qed.

Lemma terpene_row_ok ph line r :
  terpene_row ph line = Some r ->
  name r <> [] /\ key_form (name r) = true /\ isNaN (percent r) = false.
Proof.
  unfold terpene_row.
  destruct (exec true nameRegex _) as [nm | ]; [ | discriminate].
  destruct (canonTerp _) as [[ | c nam] | ] eqn:Ec; try discriminate.
  apply canonTerp_key in Ec.
  destruct (pick_measure _ _) as [pick | ]; [ | discriminate].
  destruct (toFloatSafe _) as [val | ]; [ | discriminate].
  destruct (or_else _ _) as [u | ]; [ | discriminate].
  match goal with |- match ?x with _ => _ end = _ -> _ => destruct x as [v | ] end;
    [ | discriminate].
  destruct (isNaN v) eqn:E; [discriminate | ].
  intros [= <-]. split; [discriminate | split; [exact Ec | exact E]].
Qed.

Lemma filter_map_In {A B} (f : A -> option B) l b :
  In b (filter_map f l) -> exists a, In a l /\ f a = Some b.
Proof.
  induction l as [ | a t IH]; simpl; [tauto | ].
  destruct (f a) as [b' | ] eqn:E.
  - intros [<- | H]; [exists a; auto | ]. destruct (IH H) as (a' & Ha & Hf). exists a'. auto.
  - intros H. destruct (IH H) as (a' & Ha & Hf). exists a'. auto.
Qed.

Lemma terpene_rows_ok text r :
  In r (terpene_rows text) ->
  name r <> [] /\ key_form (name r) = true /\ isNaN (percent r) = false.
Proof.
  intros Hr. apply filter_map_In in Hr as (line & _ & Hr).
  now apply terpene_row_ok in Hr.
Qed.

(** X11: the rows that leave the collection step have pairwise distinct
    names, each in the form of a key (lower case, no whitespace at either
    end) and none empty, and percentages that are numbers. *)
Theorem collectTerpenesAsPercent_rows text :
  NoDup (map name (collectTerpenesAsPercent text)) /\
  Forall (fun r => name r <> [] /\ key_form (name r) = true /\ isNaN (percent r) = false)
         (collectTerpenesAsPercent text).
Proof.
  split; [apply collect_names_NoDup | ].
  apply Forall_forall. intros r Hr. apply (terpene_rows_ok text).
  now apply collect_rows_read.
Qed.

Lemma existsb_str_eqb n l : existsb (str_eqb n) l = true <-> In n l.
Proof.
  rewrite existsb_exists. split.
  - intros (x & Hx & E). apply str_eqb_eq in E. now subst.
  - intros H. exists n. split; trivial. apply str_eqb_refl.
Qed.

Lemma keep_best_keys best r :
  map fst (keep_best best r) = note_name (map fst best) (name r).
Proof.
  unfold keep_best, note_name.
  destruct (best_get (name r) best) as [prev | ] eqn:G.
  - assert (Hin : In (name r) (map fst best)).
    { apply best_get_In in G. apply in_map_iff. now exists (name r, prev). }
    assert (E : existsb (str_eqb (name r)) (map fst best) = true)
      by now apply existsb_str_eqb.
    rewrite E. destruct (flt _ _); trivial. now apply best_set_keys_present.
  - pose proof (best_get_none _ _ G) as Hout.
    assert (E : existsb (str_eqb (name r)) (map fst best) = false).
    { destruct (existsb _ _) eqn:E; trivial. apply existsb_str_eqb in E. contradiction. }
    rewrite E. now apply best_set_keys_fresh.
Qed.

Lemma fold_keep_best_keys rows : forall best,
  map fst (fold_left keep_best rows best)
  = fold_left note_name (map name rows) (map fst best).
Proof.
  induction rows as [ | r rows IH]; intros best; cbn [fold_left map]; trivial.
  now rewrite IH, keep_best_keys.
Qed.

(** X21: [collectTerpenesAsPercent] lists the terpenes in the order in
    which their names are first read from the text; a later, larger
    reading replaces the row where it stands. *)
Theorem collectTerpenesAsPercent_order text :
  map name (collectTerpenesAsPercent text) = first_seen (map name (terpene_rows text)).
Proof.
  unfold collectTerpenesAsPercent, first_seen.
  change (@nil str) with (map fst (@nil (str * row))).
  rewrite <- (fold_keep_best_keys (terpene_rows text) []).
  destruct (fold_keep_best_ok (terpene_rows text) []) as [_ Hnm].
  { split; constructor. }
  rewrite map_map. apply map_ext_Forall.
  eapply Forall_impl; [ | exact Hnm]. intros a Ha. exact Ha.
Qed.

(** ** The ranking of coa-scraper *)

Lemma ranked_names_perm (rows : list row) :
  Permutation
    (map name (if has_name "alpha-pinene" (sort_by by_percent_desc rows)
                  || has_name "beta-pinene" (sort_by by_percent_desc rows)
               then sort_by by_percent_desc
                      (map halve_pinene (sort_by by_percent_desc rows))
               else sort_by by_percent_desc rows))
    (map name rows).
Proof.
  destruct (_ || _).
  - rewrite <- sort_by_perm, map_map.
    erewrite map_ext; [ | intros a; apply halve_pinene_name].
    apply Permutation_map, Permutation_sym, sort_by_perm.
  - apply Permutation_map, Permutation_sym, sort_by_perm.
Qed.

Lemma pickTopTerpenes_rows text limit n :
  In n (pickTopTerpenes text limit) ->
  exists r, In r (terpene_rows text) /\ name r = n.
Proof.
  unfold pickTopTerpenes.
  pose proof (collect_rows_read text) as Hsub.
  destruct (collectTerpenesAsPercent text) as [ | r0 rows0] eqn:E; [intros [] | ].
  intros Hn. rewrite <- firstn_map in Hn. apply In_firstn in Hn.
  eapply Permutation_in in Hn; [ | apply ranked_names_perm].
  apply in_map_iff in Hn as (r & <- & Hr). exists r. split; trivial. now apply Hsub.
Qed.

Lemma existsb_perm {A} (p : A -> bool) l l' :
  Permutation l l' -> existsb p l = existsb p l'.
Proof.
  induction 1 as [ | x l l' _ IH | x y l | l l' l'' _ IH1 _ IH2]; cbn [existsb].
  - reflexivity.
  - now rewrite IH.
  - destruct (p x), (p y); reflexivity.
  - congruence.
Qed.

(** The names returned are the first [limit] names of a ranking of the
    collected rows. *)
Lemma pickTopTerpenes_top text limit :
  exists ranked,
    Permutation ranked (adjusted (collectTerpenesAsPercent text)) /\
    Sorted in_order ranked /\
    pickTopTerpenes text limit = map name (firstn limit ranked).
Proof.
  unfold pickTopTerpenes, adjusted.
  destruct (collectTerpenesAsPercent text) as [ | r rows0] eqn:E.
  - exists []. repeat split; try constructor. now rewrite firstn_nil.
  - set (rows := r :: rows0).
    assert (Hh : forall n, has_name n (sort_by by_percent_desc rows) = has_name n rows).
    { intros n. unfold has_name. apply existsb_perm, Permutation_sym, sort_by_perm. }
    rewrite !Hh. destruct (_ || _).
    + eexists. split; [ | split; [apply sort_by_sorted | reflexivity]].
      eapply Permutation_trans; [apply Permutation_sym, sort_by_perm | ].
      apply Permutation_map, Permutation_sym, sort_by_perm.
    + eexists. split; [ | split; [apply sort_by_sorted | reflexivity]].
      apply Permutation_sym, sort_by_perm.
Qed.

(** X12: for every limit, [pickTopTerpenes] returns at most [limit]
    names, pairwise distinct, none empty, in the form of a key, each the
    canonical name of a row read from the text; they are the first [limit]
    names of a ranking of the collected rows (the percent of pinene halved
    where alpha- or beta-pinene is among them) in which no row is followed
    by one that the comparator [b.percent - a.percent] puts before it. *)
Theorem pickTopTerpenes_contract text limit :
  List.length (pickTopTerpenes text limit) <= limit /\
  NoDup (pickTopTerpenes text limit) /\
  Forall (fun n => n <> [] /\ key_form n = true /\
                   exists r, In r (terpene_rows text) /\ name r = n)
         (pickTopTerpenes text limit) /\
  exists ranked,
    Permutation ranked (adjusted (collectTerpenesAsPercent text)) /\
    Sorted in_order ranked /\
    pickTopTerpenes text limit = map name (firstn limit ranked).
Proof.
  split; [apply pickTopTerpenes_length | ].
  split; [apply pickTopTerpenes_NoDup | ]. split.
  - apply Forall_forall. intros n Hn.
    destruct (pickTopTerpenes_rows text limit n Hn) as (r & Hr & <-).
    destruct (terpene_rows_ok text r Hr) as (H1 & H2 & _).
    split; [exact H1 | split; [exact H2 | now exists r]].
  - apply pickTopTerpenes_top.
Qed.

(** X13: no terpene read is dropped while there is room: when the
    collection holds at most [limit] rows, the names returned are the
    names collected. *)
Theorem pickTopTerpenes_all text limit :
  List.length (collectTerpenesAsPercent text) <= limit ->
  Permutation (pickTopTerpenes text limit) (map name (collectTerpenesAsPercent text)).
Proof.
  intros Hlen. unfold pickTopTerpenes.
  destruct (collectTerpenesAsPercent text) as [ | r0 rows0] eqn:E; [constructor | ].
  rewrite firstn_all2; [apply ranked_names_perm | ].
  rewrite <- (length_map name), (Permutation_length (ranked_names_perm _)), length_map.
  exact Hlen.
Qed.

(** Two lines, two terpenes, limit 3: both names are returned, the
    larger reading first. *)
Lemma pickTopTerpenes_all_witness :
  List.length (collectTerpenesAsPercent
                 (js "Myrcene 0.4%" ++ LF ++ js "Limonene 1.2%")) <= 3 /\
  pickTopTerpenes (js "Myrcene 0.4%" ++ LF ++ js "Limonene 1.2%") 3
    = [js "limonene"; js "myrcene"] /\
  Permutation
    (pickTopTerpenes (js "Myrcene 0.4%" ++ LF ++ js "Limonene 1.2%") 3)
    (map name (collectTerpenesAsPercent (js "Myrcene 0.4%" ++ LF ++ js "Limonene 1.2%"))).
Proof.
  assert (H : List.length (collectTerpenesAsPercent
                 (js "Myrcene 0.4%" ++ LF ++ js "Limonene 1.2%")) <= 3)
    by (vm_compute; lia).
  split; [exact H | ]. split; [vm_compute; reflexivity | ].
  exact (pickTopTerpenes_all _ 3 H).
Defined.

(** ** Where the overflow correction exits *)

(** X14: the loop of [fixPercentOverflow] exits on every binary64 number
    but +Infinity, and on +Infinity it does not: +Infinity is above 100
    and +Infinity / 10 is +Infinity. *)
Theorem fixPercentOverflow_exits_iff v :
  valid v = true -> (exists r, fixPercentOverflow_runs v r) <-> v <> pinf.
Proof.
  intros Hv. split.
  - intros (r & Hr) ->. exact (runs_pinf_never r Hr).
  - intros Hinf. destruct (fixLoop_runs v Hv Hinf) as (r & Hr & _). now exists r.
Qed.

(** The number 1050 is valid and is not +Infinity: the loop exits. *)
Lemma fixPercentOverflow_exits_iff_witness :
  valid overflowed = true /\
  ((exists r, fixPercentOverflow_runs overflowed r) <-> overflowed <> pinf).
Proof.
  split; [reflexivity | ].
  apply (fixPercentOverflow_exits_iff overflowed). reflexivity.
Defined.

(* ===================================================================== *)
(** * The readings of [parseTHC] *)
(* ===================================================================== *)

Import Lang Readings Reports.

(** ** The matcher against what a pattern derives *)

Lemma unit_before_app prev u v :
  unit_before prev (u ++ v) = unit_before (unit_before prev u) v.
Proof.
  revert prev. induction u as [ | c u IH]; intros prev; [reflexivity | ].
  cbn [app]. rewrite !unit_before_cons. apply IH.
Qed.

Lemma unit_before_nil prev : unit_before prev [] = prev.
Proof. reflexivity. Qed.


Lemma eat_sound ic r ok :
  (forall k st, rmatch ic r k st = eat st ok k) ->
  (forall ch p a, ok ch = true -> derives ic r p [ch] a) ->
  sound ic r (rmatch ic r).
Proof.
  intros Heat Hd k st z. rewrite Heat. unfold eat.
  destruct (ms_rest st) as [ | ch tl] eqn:E; [discriminate | ].
  destruct (ok ch) eqn:Hok; [ | discriminate]. intros H.
  exists [ch], tl, (ms_caps st). repeat split; trivial. now apply Hd.
Qed.

Lemma repeat_sound ic r m g :
  sound ic r m ->
  forall fuel lo hi k st z,
    repeat m (groups_of r) g fuel lo hi k st = Some z ->
    exists u a caps',
      ms_rest st = u ++ a /\ derives ic (Rep g lo hi r) (ms_prev st) u a /\
      k (MState (unit_before (ms_prev st) u) a caps') = Some z /\
      (groups_of r = [] -> caps' = ms_caps st).
Proof.
  intros Hm. induction fuel as [ | fuel IH]; intros lo hi k st z; cbn [repeat];
    [discriminate | ].
  set (d := fun st' : mstate =>
     if Nat.eqb lo 0 && Nat.eqb (List.length (ms_rest st')) (List.length (ms_rest st))
     then None
     else repeat m (groups_of r) g fuel (Nat.pred lo) (option_map Nat.pred hi) k st').
  set (xr := MState (ms_prev st) (ms_rest st) (caps_clear (groups_of r) (ms_caps st))).
  assert (Hstop : forall lo' hi', (lo' = 0 \/ hi' = Some 0) -> k st = Some z ->
            exists u a caps',
              ms_rest st = u ++ a /\ derives ic (Rep g lo' hi' r) (ms_prev st) u a /\
              k (MState (unit_before (ms_prev st) u) a caps') = Some z /\
              (groups_of r = [] -> caps' = ms_caps st)).
  { intros lo' hi' Hc H. exists [], (ms_rest st), (ms_caps st).
    repeat split; trivial.
    - destruct Hc as [-> | ->]; constructor.
    - destruct st; exact H. }
  assert (Hmore : hi <> Some 0 -> m d xr = Some z ->
            exists u a caps',
              ms_rest st = u ++ a /\ derives ic (Rep g lo hi r) (ms_prev st) u a /\
              k (MState (unit_before (ms_prev st) u) a caps') = Some z /\
              (groups_of r = [] -> caps' = ms_caps st)).
  { intros Hhi H. apply Hm in H as (u1 & a1 & caps1 & Hr1 & Hd1 & Hk1 & Hc1).
    cbn [xr ms_rest ms_prev ms_caps] in *. unfold d in Hk1. cbn [ms_rest] in Hk1.
    destruct (Nat.eqb lo 0 && Nat.eqb (List.length a1) (List.length (ms_rest st))) eqn:Echk;
      [discriminate | ].
    apply IH in Hk1 as (u2 & a & caps' & Hr2 & Hd2 & Hk2 & Hc2).
    cbn [ms_rest ms_prev ms_caps] in *.
    exists (u1 ++ u2), a, caps'. repeat split.
    - rewrite Hr1, Hr2. now rewrite app_assoc.
    - apply d_rep_more; trivial.
      + intros -> ->. cbn [app] in Hr1. rewrite Hr1 in Echk.
        rewrite !Nat.eqb_refl in Echk. discriminate.
      + now rewrite <- Hr2.
    - now rewrite unit_before_app.
    - intros Hg. rewrite (Hc2 Hg), (Hc1 Hg). now rewrite Hg. }
  destruct hi as [ [ | hi] | ].
  - apply Hstop. now right.
  - destruct (Nat.eqb_spec lo 0) as [-> | Hlo]; cbn [negb].
    + destruct g.
      * destruct (m d xr) eqn:E; [intros [= <-]; now apply Hmore | apply Hstop; now left].
      * destruct (k st) eqn:E; [intros [= <-]; apply Hstop; [now left | trivial]
                               | now apply Hmore].
    + now apply Hmore.
  - destruct (Nat.eqb_spec lo 0) as [-> | Hlo]; cbn [negb].
    + destruct g.
      * destruct (m d xr) eqn:E; [intros [= <-]; now apply Hmore | apply Hstop; now left].
      * destruct (k st) eqn:E; [intros [= <-]; apply Hstop; [now left | trivial]
                               | now apply Hmore].
    + now apply Hmore.
Qed.

(** The matcher is sound: what it matches the pattern derives. *)
Lemma rmatch_sound ic r : sound ic r (rmatch ic r).
Proof.
  induction r as [ | c | | neg items | r1 IH1 r2 IH2 | r1 IH1 r2 IH2
                 | greedy lo hi r IH | i r IH | | r IH | ].
  - intros k st z H. cbn [rmatch] in H. exists [], (ms_rest st), (ms_caps st).
    repeat split; trivial; [constructor | destruct st; exact H].
  - apply (eat_sound ic (Chr c) (fun ch => N.eqb (canon ic c) (canon ic ch))); trivial.
    intros ch p a H. apply N.eqb_eq in H. now constructor.
  - apply (eat_sound ic Dot (fun ch => negb (is_line_terminator ch))); trivial.
    intros ch p a H. apply negb_true_iff in H. now constructor.
  - apply (eat_sound ic (Cls neg items) (cls_mem ic neg items)); trivial.
    intros ch p a H. now constructor.
  - intros k st z H. cbn [rmatch] in H.
    apply IH1 in H as (u1 & a1 & caps1 & Hr1 & Hd1 & H & Hc1).
    apply IH2 in H as (u2 & a & caps2 & Hr2 & Hd2 & H & Hc2).
    cbn [ms_rest ms_prev ms_caps] in *.
    exists (u1 ++ u2), a, caps2. repeat split.
    + rewrite Hr1, Hr2. now rewrite app_assoc.
    + constructor; trivial. now rewrite <- Hr2.
    + now rewrite unit_before_app.
    + cbn [groups_of]. intros Hg. apply app_eq_nil in Hg as [Hg1 Hg2].
      now rewrite (Hc2 Hg2), (Hc1 Hg1).
  - intros k st z H. cbn [rmatch] in H.
    destruct (rmatch ic r1 k st) eqn:E.
    + injection H as ->. apply IH1 in E as (u & a & caps' & Hr & Hd & H & Hc).
      exists u, a, caps'. repeat split; trivial; [now apply d_alt_l | ].
      cbn [groups_of]. intros Hg. apply app_eq_nil in Hg as [Hg1 Hg2]. auto.
    + apply IH2 in H as (u & a & caps' & Hr & Hd & H & Hc).
      exists u, a, caps'. repeat split; trivial; [now apply d_alt_r | ].
      cbn [groups_of]. intros Hg. apply app_eq_nil in Hg as [Hg1 Hg2]. auto.
  - intros k st z H. cbn [rmatch] in H. now apply (repeat_sound ic r _ greedy IH) in H.
  - intros k st z H. cbn [rmatch] in H.
    apply IH in H as (u & a & caps' & Hr & Hd & H & Hc).
    cbn [ms_prev ms_rest ms_caps] in H.
    eexists u, a, _. split; [exact Hr | ]. split; [now constructor | ].
    split; [exact H | ]. cbn [groups_of]. discriminate.
  - intros k st z H. cbn [rmatch] in H.
    destruct (at_boundary st) eqn:E; [ | discriminate].
    exists [], (ms_rest st), (ms_caps st). repeat split; trivial;
      [now constructor | destruct st; exact H].
  - intros k st z H. cbn [rmatch] in H.
    destruct (rmatch ic r Some st) as [z0 | ] eqn:E; [ | discriminate].
    apply IH in E as (v & w & caps0 & Hr & Hd & [= <-] & Hc).
    exists [], (ms_rest st), caps0. repeat split; trivial.
    + rewrite Hr. now constructor.
  - intros k st z H. cbn [rmatch] in H.
    destruct (ms_rest st) eqn:E; [ | discriminate].
    exists [], [], (ms_caps st). repeat split; trivial;
      [constructor | destruct st; cbn in *; subst; exact H].
Qed.

(** The matcher is complete: where the pattern derives a string after
    which the continuation succeeds, the matcher succeeds. *)
Lemma rmatch_complete ic r p u a :
  derives ic r p u a ->
  forall k caps,
    (forall caps', k (MState (unit_before p u) a caps') <> None) ->
    rmatch ic r k (MState p (u ++ a) caps) <> None.
Proof.
  induction 1 as [ p a | c ch p a Hc | ch p a Hc | neg items ch p a Hc
                 | r1 r2 p u1 u2 a _ IH1 _ IH2 | r1 r2 p u a _ IH | r1 r2 p u a _ IH
                 | g lo r p a | g hi r p a
                 | g lo hi r p u1 u2 a Hhi Hne _ IH1 _ IH2
                 | i r p u a _ IH | p a Hb | r p v w _ IH | p ];
    intros k caps Hk.
  - apply Hk.
  - cbn [rmatch app]. unfold eat. cbn [ms_rest ms_caps]. rewrite Hc, N.eqb_refl. apply Hk.
  - cbn [rmatch app]. unfold eat. cbn [ms_rest ms_caps]. rewrite Hc. apply Hk.
  - cbn [rmatch app]. unfold eat. cbn [ms_rest ms_caps]. rewrite Hc. apply Hk.
  - cbn [rmatch]. rewrite <- app_assoc. apply IH1. intros caps'. apply IH2.
    intros caps''. rewrite <- unit_before_app. apply Hk.
  - cbn [rmatch]. specialize (IH k caps Hk). destruct (rmatch ic r1 k _); [discriminate | ].
    contradiction.
  - cbn [rmatch]. destruct (rmatch ic r1 k _); [discriminate | ]. now apply IH.
  - cbn [rmatch repeat app]. apply Hk.
  - change (unit_before p []) with p in Hk. specialize (Hk caps).
    cbn [rmatch repeat app Nat.eqb negb].
    destruct hi as [ [ | hi] | ]; trivial; destruct g;
      try (destruct (rmatch ic r _ _); [discriminate | exact Hk]);
      destruct (k _); [discriminate | contradiction | discriminate | contradiction].
  - rewrite rmatch_rep. cbn [repeat ms_rest ms_prev ms_caps].
    set (st := MState p ((u1 ++ u2) ++ a) caps).
    set (d := fun st' : mstate =>
       if Nat.eqb lo 0 && Nat.eqb (List.length (ms_rest st')) (List.length ((u1 ++ u2) ++ a))
       then None
       else repeat (rmatch ic r) (groups_of r) g (lo + List.length ((u1 ++ u2) ++ a))
              (Nat.pred lo) (option_map Nat.pred hi) k st').
    assert (Hk' : forall caps'',
              k (MState (unit_before (unit_before p u1) u2) a caps'') <> None).
    { intros caps''. rewrite <- unit_before_app. apply Hk. }
    assert (Hlen : Nat.eqb lo 0 && Nat.eqb (List.length (u2 ++ a))
                                     (List.length ((u1 ++ u2) ++ a)) = false).
    { destruct (Nat.eqb_spec lo 0) as [-> | Hlo]; trivial. cbn [andb].
      apply Nat.eqb_neq. rewrite !length_app.
      destruct u1; [now contradiction Hne | simpl; lia]. }
    assert (Hfuel : Nat.pred lo + List.length (u2 ++ a)
                    < lo + List.length ((u1 ++ u2) ++ a)).
    { rewrite !length_app. destruct lo; [ | simpl; lia].
      destruct u1; [now contradiction Hne | simpl; lia]. }
    assert (Hd : rmatch ic r d
                   (MState p ((u1 ++ u2) ++ a) (caps_clear (groups_of r) caps)) <> None).
    { rewrite <- app_assoc. apply IH1. intros caps'. unfold d. cbn [ms_rest].
      rewrite Hlen. specialize (IH2 k caps' Hk'). rewrite rmatch_rep in IH2.
      cbn [ms_rest] in IH2.
      rewrite (repeat_fuel _ _ _ (rmatch_local ic r) _
                 (S (Nat.pred lo + List.length (u2 ++ a)))); trivial.
      cbn [ms_rest]. lia. }
    fold d.
    destruct hi as [ [ | hi] | ]; [now contradiction Hhi | | ];
      destruct (negb (Nat.eqb lo 0)); trivial;
      destruct g; destruct (rmatch ic r d _); try discriminate; try contradiction;
      destruct (k _); discriminate.
  - cbn [rmatch]. apply IH. intros caps'. cbn [ms_prev ms_rest]. apply Hk.
  - cbn [rmatch app]. unfold at_boundary. cbn [ms_prev ms_rest]. rewrite Hb. apply Hk.
  - cbn [rmatch app]. specialize (IH Some caps).
    destruct (rmatch ic r Some _) as [z | ]; [apply Hk | apply IH; discriminate].
  - cbn [rmatch app ms_rest]. apply Hk.
Qed.

(** ** Units under the [i] flag *)

Lemma canon_plain a ch :
  (a < 65 \/ 90 < a < 128)%N -> canon true ch = a -> ch = a.
Proof.
  intros Ha. unfold canon.
  destruct (N.leb_spec 128 ch) as [Hhi | Hlo]; cbn [andb].
  - destruct (N.ltb_spec (toUpperUnit ch) 128); [lia | ].
    intros <-. lia.
  - rewrite (toUpperUnit_ascii ch Hlo).
    destruct (in_range 97%N 122%N ch) eqn:E; [ | trivial].
    apply in_range_spec in E. lia.
Qed.

Lemma canon_plain_self a :
  (a < 97 \/ 122 < a < 128)%N -> canon true a = a.
Proof.
  intros Ha. unfold canon.
  replace (N.leb 128 a) with false by (symmetry; apply N.leb_gt; lia).
  cbn [andb]. rewrite toUpperUnit_ascii by lia.
  destruct (in_range 97%N 122%N a) eqn:E; trivial. apply in_range_spec in E. lia.
Qed.

Lemma canon_digit ch : is_digit (canon true ch) = is_digit ch.
Proof.
  unfold is_digit.
  destruct (in_range 48%N 57%N (canon true ch)) eqn:E.
  - apply in_range_spec in E.
    assert (Hc : ch = canon true ch) by (apply canon_plain; [lia | trivial]).
    symmetry. apply in_range_spec. rewrite Hc. exact E.
  - destruct (in_range 48%N 57%N ch) eqn:E'; trivial.
    apply in_range_spec in E'. rewrite canon_plain_self in E by lia.
    apply in_range_false in E. lia.
Qed.

Lemma nondigit_cls ic ch :
  cls_mem ic true [rng "0" "9"] ch = negb (is_digit ch).
Proof.
  unfold cls_mem.
  assert (H : existsb (fun it => cset_mem ic it ch) [rng "0" "9"] = is_digit ch).
  { change (rng "0" "9") with (CRange 48%N 57%N). cbn [existsb cset_mem].
    rewrite orb_false_r. destruct ic; [ | reflexivity].
    rewrite <- canon_digit. generalize (canon true ch) as x. intros x.
    change (units 48%N 57%N) with [48; 49; 50; 51; 52; 53; 54; 55; 56; 57]%N.
    cbn [existsb]. rewrite !canon_plain_self by lia.
    unfold is_digit.
    destruct (in_range 48%N 57%N x) eqn:E.
    - apply in_range_spec in E. rewrite !orb_true_iff, !N.eqb_eq. lia.
    - apply in_range_false in E.
      repeat match goal with
             | |- context [N.eqb ?a x] =>
                 replace (N.eqb a x) with false by (symmetry; apply N.eqb_neq; lia)
             end.
      reflexivity. }
  rewrite H. reflexivity.
Qed.

Lemma digit_cls_ic ic c : cls_mem ic false [CDigit] c = is_digit c.
Proof. unfold cls_mem. cbn [existsb cset_mem xorb]. now rewrite orb_false_r. Qed.

Lemma space_cls_ic ic c : cls_mem ic false [CSpace] c = is_space c.
Proof. unfold cls_mem. cbn [existsb cset_mem xorb]. now rewrite orb_false_r. Qed.

Lemma sep_cls ic c : cls_mem ic false [c1 "."; c1 ","] c = is_sep c.
Proof.
  unfold cls_mem, is_sep. change (c1 ".") with (CChar 46%N). change (c1 ",") with (CChar 44%N).
  cbn [existsb cset_mem xorb]. rewrite orb_false_r.
  destruct ic.
  - rewrite (canon_plain_self 46), (canon_plain_self 44) by lia.
    destruct (N.eqb_spec c 46) as [-> | H46]; [reflexivity | ].
    destruct (N.eqb_spec c 44) as [-> | H44]; [reflexivity | ].
    destruct (N.eqb_spec 46 (canon true c)) as [E | _].
    { symmetry in E. apply canon_plain in E; [contradiction | lia]. }
    destruct (N.eqb_spec 44 (canon true c)) as [E | _]; trivial.
    symmetry in E. apply canon_plain in E; [contradiction | lia].
  - cbn [canon]. now rewrite (N.eqb_sym 46 c), (N.eqb_sym 44 c).
Qed.

(** ** What the quantified classes derive *)

Lemma derives_unit_inv ic r ok p u a :
  unit_test ic r = Some ok -> derives ic r p u a ->
  exists ch, u = [ch] /\ ok ch = true.
Proof.
  destruct r; try discriminate; intros [= <-] H; inversion H; subst; eexists; split;
    try reflexivity; trivial.
  - now apply N.eqb_eq.
  - now apply negb_true_iff.
Qed.

Lemma derives_unit ic r ok p ch a :
  unit_test ic r = Some ok -> ok ch = true -> derives ic r p [ch] a.
Proof.
  destruct r; try discriminate; intros [= <-] H; constructor; trivial.
  - now apply N.eqb_eq.
  - now apply negb_true_iff.
Qed.

Lemma derives_rep_unit_inv ic r ok :
  unit_test ic r = Some ok ->
  forall R p u a, derives ic R p u a ->
  forall g lo hi, R = Rep g lo hi r -> within hi lo ->
    forallb ok u = true /\ lo <= List.length u /\ within hi (List.length u).
Proof.
  intros Hr R p u a H.
  induction H as [ | | | | | | | g0 lo0 r0 p a | g0 hi0 r0 p a
                 | g0 lo0 hi0 r0 p u1 u2 a Hhi Hne H1 _ H2 IH2 | | | | ];
    intros g lo hi E Hv; try discriminate E; injection E as <- <- <- <-.
  - cbn in *. repeat split; trivial.
  - cbn. repeat split; trivial; try lia; destruct hi0; cbn; trivial; lia.
  - destruct (derives_unit_inv _ _ _ _ _ _ Hr H1) as (ch & -> & Hch).
    destruct (IH2 g0 (Nat.pred lo0) (option_map Nat.pred hi0) eq_refl) as (Hf & Hlo & Hhi').
    { destruct hi0 as [h | ]; cbn in *; trivial. lia. }
    cbn [app forallb List.length]. rewrite Hch, Hf. repeat split; [lia | ].
    destruct hi0 as [h | ]; cbn in *; trivial.
    destruct h; [now contradiction Hhi | lia].
Qed.

Lemma derives_rep_unit ic r ok :
  unit_test ic r = Some ok ->
  forall u g lo hi p a,
    forallb ok u = true -> lo <= List.length u -> within hi (List.length u) ->
    derives ic (Rep g lo hi r) p u a.
Proof.
  intros Hr. induction u as [ | c t IH]; intros g lo hi p a Hf Hlo Hhi.
  - cbn in Hlo. assert (lo = 0) as -> by lia. constructor.
  - cbn [forallb] in Hf. apply andb_prop in Hf as [Hc Hf].
    change (c :: t) with ([c] ++ t). apply d_rep_more.
    + intros ->. cbn in Hhi. lia.
    + discriminate.
    + now apply (derives_unit ic r ok).
    + apply IH; trivial.
      * cbn in Hlo. lia.
      * destruct hi as [h | ]; cbn in *; trivial. lia.
Qed.

Lemma derives_opt_inv ic r p u a :
  derives ic (opt r) p u a -> u = [] \/ derives ic r p u a.
Proof.
  unfold opt. intros H. inversion H; subst; auto.
  match goal with H2 : derives _ (Rep _ _ (option_map _ _) _) _ _ _ |- _ =>
    cbn in H2; inversion H2; subst end.
  - rewrite app_nil_r. now right.
  - rewrite app_nil_r. now right.
  - match goal with Hn : Some 0 <> Some 0 |- _ => now contradiction Hn end.
Qed.

Lemma derives_opt ic r p u a :
  u <> [] -> derives ic r p u a -> derives ic (opt r) p u a.
Proof.
  intros Hne H. unfold opt. rewrite <- (app_nil_r u). apply d_rep_more; trivial.
  - discriminate.
  - cbn. constructor.
Qed.

(** ** The value pattern *)

Lemma forallb_ext_eq {A} (f g : A -> bool) l :
  (forall x, f x = g x) -> forallb f l = forallb g l.
Proof. intros H. induction l; simpl; now rewrite ?H, ?IHl. Qed.

Lemma value_derives ic n p cap a :
  1 <= n -> (derives ic (re_value n) p cap a <-> number_text n cap).
Proof.
  intros Hn. unfold re_value, between. split.
  - intros H. inversion H as [ | | | | r1 r2 p0 whole rest a0 Hw Hrest | | | | | | | | | ]; subst.
    destruct (derives_rep_unit_inv ic digit (cls_mem ic false [CDigit]) eq_refl
                _ _ _ _ Hw true 1 (Some n) eq_refl Hn) as (Hf & Hlo & Hhi).
    rewrite (forallb_ext_eq _ is_digit) in Hf by apply digit_cls_ic.
    exists whole, rest. repeat split; trivial.
    apply derives_opt_inv in Hrest as [-> | Hrest]; [now left | right].
    inversion Hrest as [ | | | | r1 r2 p1 s frac a1 Hs Hfrac | | | | | | | | | ]; subst.
    inversion Hs; subst.
    destruct (derives_rep_unit_inv ic digit (cls_mem ic false [CDigit]) eq_refl
                _ _ _ _ Hfrac true 1 (Some 2) eq_refl) as (Hf2 & Hlo2 & Hhi2);
      [cbn; lia | ].
    rewrite (forallb_ext_eq _ is_digit) in Hf2 by apply digit_cls_ic.
    match goal with Hc : cls_mem _ _ _ _ = true |- _ => rewrite sep_cls in Hc end.
    eexists _, frac. repeat split; trivial.
  - intros (whole & rest & -> & [Hlo Hhi] & Hf & Hrest).
    constructor.
    + apply (derives_rep_unit ic digit (cls_mem ic false [CDigit])); trivial.
      now rewrite (forallb_ext_eq _ is_digit) by apply digit_cls_ic.
    + destruct Hrest as [-> | (s & frac & -> & Hs & [Hlo2 Hhi2] & Hf2)].
      * constructor.
      * apply derives_opt; [discriminate | ].
        change (s :: frac) with ([s] ++ frac). constructor.
        -- constructor. now rewrite sep_cls.
        -- apply (derives_rep_unit ic digit (cls_mem ic false [CDigit])); trivial.
           now rewrite (forallb_ext_eq _ is_digit) by apply digit_cls_ic.
Qed.

Lemma thc_value_eq label n unit :
  thc_value label n unit
  = Seq label (Seq (between 0 40 (Cls true [rng "0" "9"]))
      (Seq (Grp 1 (re_value n)) (Seq (star space) (Seq unit Eps)))).
Proof. reflexivity. Qed.

(** A match of a value pattern is a reading at the head of the input,
    and captures its value text. *)
Lemma match_here_reading label n unit prev s idx m :
  groups_of label = [] -> groups_of unit = [] -> 1 <= n ->
  match_here true (thc_value label n unit) prev s idx = Some m ->
  exists lab gap cap sp un post,
    s = lab ++ gap ++ cap ++ sp ++ un ++ post /\
    derives true label prev lab (gap ++ cap ++ sp ++ un ++ post) /\
    forallb (fun c => negb (is_digit c)) gap = true /\ List.length gap <= 40 /\
    number_text n cap /\ forallb is_space sp = true /\
    derives true unit (unit_before prev (lab ++ gap ++ cap ++ sp)) un post /\
    group 1 m = Some cap.
Proof.
  intros Hgl Hgu Hn. rewrite thc_value_eq. unfold match_here.
  destruct (rmatch _ _ _ _) as [z | ] eqn:E; [ | discriminate]. intros [= <-].
  cbn [rmatch] in E.
  apply (rmatch_sound true label) in E as (lab & a1 & caps1 & Hr1 & Hd1 & E & _).
  cbn [ms_rest ms_prev ms_caps] in *.
  apply (rmatch_sound true (between 0 40 (Cls true [rng "0" "9"]))) in E
    as (gap & a2 & caps2 & Hr2 & Hd2 & E & _).
  cbn [ms_rest ms_prev ms_caps] in *.
  apply (rmatch_sound true (re_value n)) in E as (cap & a3 & caps3 & Hr3 & Hd3 & E & _).
  cbn [ms_rest ms_prev ms_caps] in *.
  rewrite Hr3, consumed_app in E.
  change (rmatch true (star space) (rmatch true unit (rmatch true Eps Some)))
    with (rmatch true (Seq (star space) (Seq unit Eps)) Some) in E.
  apply (rmatch_sound true (Seq (star space) (Seq unit Eps))) in E
    as (u3 & post & caps4 & Hr4 & Hd4 & [= <-] & Hc4).
  cbn [ms_rest ms_prev ms_caps groups_of app] in *.
  rewrite Hgu in Hc4. specialize (Hc4 eq_refl). subst caps4.
  inversion Hd4 as [ | | | | r1 r2 p0 sp un' a0 Hsp Hun | | | | | | | | | ]; subst.
  inversion Hun as [ | | | | r1 r2 p1 un e a1 Hun1 Heps | | | | | | | | | ]; subst.
  inversion Heps; subst. rewrite app_nil_r in *. cbn [app] in *.
  destruct (derives_rep_unit_inv true (Cls true [rng "0" "9"])
              (cls_mem true true [rng "0" "9"]) eq_refl
              _ _ _ _ Hd2 true 0 (Some 40) eq_refl) as (Hf2 & _ & Hhi2); [cbn; lia | ].
  rewrite (forallb_ext_eq _ (fun c => negb (is_digit c))) in Hf2 by apply nondigit_cls.
  destruct (derives_rep_unit_inv true space (cls_mem true false [CSpace]) eq_refl
              _ _ _ _ Hsp true 0 None eq_refl) as (Hf4 & _ & _); [exact I | ].
  rewrite (forallb_ext_eq _ is_space) in Hf4 by apply space_cls_ic.
  apply value_derives in Hd3; trivial.
  rewrite <- app_assoc in *.
  exists lab, gap, cap, sp, un, post. repeat split; trivial.
  rewrite !unit_before_app. exact Hun1.
Qed.

(** The pattern matches wherever a reading stands. *)
Lemma reading_match_here label n unit prev lab gap cap sp un post idx :
  1 <= n ->
  derives true label prev lab (gap ++ cap ++ sp ++ un ++ post) ->
  forallb (fun c => negb (is_digit c)) gap = true -> List.length gap <= 40 ->
  number_text n cap -> forallb is_space sp = true ->
  derives true unit (unit_before prev (lab ++ gap ++ cap ++ sp)) un post ->
  match_here true (thc_value label n unit) prev
    (lab ++ gap ++ cap ++ sp ++ un ++ post) idx <> None.
Proof.
  intros Hn Hl Hg Hg40 Hcap Hsp Hun. rewrite thc_value_eq. unfold match_here.
  assert (H : derives true
                (Seq label (Seq (between 0 40 (Cls true [rng "0" "9"]))
                   (Seq (Grp 1 (re_value n)) (Seq (star space) (Seq unit Eps)))))
                prev (lab ++ gap ++ cap ++ sp ++ un ++ []) post).
  { apply d_seq; [rewrite <- !app_assoc; exact Hl | ].
    apply d_seq.
    { apply (derives_rep_unit true _ (cls_mem true true [rng "0" "9"]));
        [reflexivity | | lia | exact Hg40].
      now rewrite (forallb_ext_eq _ (fun c => negb (is_digit c))) by apply nondigit_cls. }
    apply d_seq.
    { apply d_grp. apply value_derives; trivial. }
    apply d_seq.
    { apply (derives_rep_unit true _ (cls_mem true false [CSpace]));
        [reflexivity | | lia | exact I].
      now rewrite (forallb_ext_eq _ is_space) by apply space_cls_ic. }
    apply d_seq; [ | apply d_eps].
    rewrite <- !unit_before_app. exact Hun. }
  pose proof (rmatch_complete _ _ _ _ _ H Some [] (fun _ => ltac:(discriminate))) as Hm.
  rewrite app_nil_r, <- !app_assoc in Hm.
  destruct (rmatch _ _ _ _); [discriminate | contradiction].
Qed.

(** ** Greedy runs before a continuation *)

Lemma repeat_run_then m ok :
  (forall k st, m k st = eat st ok k) ->
  forall rest fuel lo prev caps k z,
    lo + List.length rest < fuel ->
    lo <= List.length (take_while ok rest) ->
    k (MState (unit_before prev (take_while ok rest)) (drop_while ok rest) caps) = Some z ->
    repeat m [] true fuel lo None k (MState prev rest caps) = Some z.
Proof.
  intros Hm. induction rest as [ | ch tl IH]; intros fuel lo prev caps k z Hfuel Hlo Hk;
    (destruct fuel as [ | fuel]; [lia | ]); cbn [repeat option_map]; rewrite Hm;
    unfold eat; cbn [ms_rest ms_prev ms_caps caps_clear fold_right take_while drop_while
                     List.length] in *.
  - assert (lo = 0) as -> by lia. exact Hk.
  - destruct (ok ch) eqn:E.
    + cbn [ms_rest List.length].
      replace (Nat.eqb (List.length tl) (S (List.length tl))) with false
        by (symmetry; apply Nat.eqb_neq; lia).
      rewrite andb_false_r. rewrite unit_before_cons in Hk. cbn [List.length] in Hlo.
      rewrite (IH fuel (Nat.pred lo) (Some ch) caps k z); trivial; try lia.
      destruct lo; reflexivity.
    + cbn [List.length] in Hlo. assert (lo = 0) as -> by lia. exact Hk.
Qed.

Lemma take_while_all ok s rest :
  forallb ok s = true -> hd_ok ok rest = false ->
  take_while ok (s ++ rest) = s /\ drop_while ok (s ++ rest) = rest.
Proof.
  intros Hs Hr. induction s as [ | c t IH]; cbn [app forallb] in *.
  - destruct rest as [ | d r]; [now split | ]. cbn in *. now rewrite Hr.
  - apply andb_prop in Hs as [Hc Ht]. cbn [take_while drop_while]. rewrite Hc.
    destruct (IH Ht) as [-> ->]. now split.
Qed.

(** An optional part: taken when it matches and something was consumed
    before the continuation succeeds, skipped otherwise. *)
Lemma rmatch_opt ic r k st :
  ms_rest st <> [] ->
  rmatch ic (opt r) k st
  = match rmatch ic r
            (fun st' => if Nat.eqb (List.length (ms_rest st')) (List.length (ms_rest st))
                        then None else k st')
            (MState (ms_prev st) (ms_rest st) (caps_clear (groups_of r) (ms_caps st))) with
    | Some z => Some z
    | None => k st
    end.
Proof.
  intros Hne. unfold opt. cbn [rmatch repeat Nat.eqb negb andb option_map Nat.pred Nat.add].
  match goal with |- match ?a with _ => _ end = match ?b with _ => _ end =>
    replace a with b; [reflexivity | ] end.
  apply rmatch_local. intros st' _.
  destruct (Nat.eqb _ _); trivial.
  destruct (ms_rest st) as [ | c t]; [contradiction | ]. reflexivity.
Qed.

Lemma rmatch_opt_end ic r k st :
  ms_rest st = [] -> rmatch ic (opt r) k st = k st.
Proof.
  intros E. unfold opt. cbn [rmatch repeat Nat.eqb negb andb option_map Nat.pred Nat.add].
  destruct (rmatch ic r _ _) as [z | ] eqn:H; trivial.
  apply rmatch_answers in H as (st' & Hs & H). cbn [ms_rest] in *.
  unfold shorter in Hs. cbn [ms_rest] in Hs. rewrite E in *. cbn [List.length] in *.
  destruct (ms_rest st'); [ | simpl in Hs; lia]. discriminate.
Qed.

Lemma rmatch_chr ic c k st :
  rmatch ic (Chr c) k st = eat st (fun ch => N.eqb (canon ic c) (canon ic ch)) k.
Proof. reflexivity. Qed.

Lemma digit_not c x : is_digit c = true -> (x < 48 \/ 57 < x)%N -> N.eqb x c = false.
Proof.
  unfold is_digit. rewrite in_range_spec. intros Hc Hx. apply N.eqb_neq. lia.
Qed.

(** [/-?\d+(?:\.\d+)?/] at the head of a number: the whole number is
    matched. *)
Lemma float_match (D rest : str) prev idx :
  D <> [] -> forallb is_digit D = true ->
  rest = [] \/ (exists F : str, rest = 46%N :: F /\ F <> [] /\ forallb is_digit F = true) ->
  exists m, match_here false re_float prev (D ++ rest) idx = Some m /\ m_text m = D ++ rest.
Proof.
  intros HD Hd Hrest.
  set (okd := cls_mem false false [CDigit]).
  assert (Hokd : forall s, forallb is_digit s = true -> forallb okd s = true).
  { intros s Hs. now rewrite (forallb_ext_eq okd is_digit) by apply digit_cls. }
  assert (Hhd : hd_ok okd rest = false).
  { destruct Hrest as [-> | (F & -> & _)]; reflexivity. }
  destruct (take_while_all okd D rest (Hokd D Hd) Hhd) as [Htw Hdw].
  assert (Hlen : 1 <= List.length D) by (destruct D; [contradiction | simpl; lia]).
  assert (H : exists p, rmatch false re_float Some (MState prev (D ++ rest) [])
                        = Some (MState p [] [])).
  { unfold re_float, seqs. cbn [fold_right].
    destruct D as [ | d0 D']; [contradiction | ].
    cbn [forallb] in Hd. apply andb_prop in Hd as [Hd0 Hd'].
    rewrite rmatch_seq, rmatch_opt by discriminate.
    change (chr "-") with (Chr 45%N). rewrite rmatch_chr. unfold eat at 1.
    cbn [ms_rest ms_prev ms_caps app canon].
    rewrite (digit_not d0 45) by (trivial; lia).
    change (d0 :: D' ++ rest) with ((d0 :: D') ++ rest).
    rewrite rmatch_seq. unfold plus at 1. rewrite rmatch_rep.
    set (k2 := rmatch false (Seq (opt (Seq (chr ".") (plus digit))) Eps) Some).
    assert (Hk2 : exists p,
              k2 (MState (unit_before prev (d0 :: D')) rest []) = Some (MState p [] [])).
    { unfold k2. rewrite rmatch_seq.
      destruct Hrest as [-> | (F & -> & HF & Hf)].
      - rewrite rmatch_opt_end by reflexivity. cbn [rmatch]. eauto.
      - rewrite rmatch_opt by discriminate.
        rewrite rmatch_seq. change (chr ".") with (Chr 46%N). rewrite rmatch_chr.
        unfold eat at 1. cbn [ms_rest ms_prev ms_caps canon groups_of app caps_clear fold_right].
        rewrite N.eqb_refl. unfold plus at 1. rewrite rmatch_rep.
        destruct (take_while_all okd F [] (Hokd F Hf) eq_refl) as [Htw' Hdw'].
        rewrite app_nil_r in *.
        erewrite (repeat_run_then (rmatch false digit) okd).
        + eauto.
        + reflexivity.
        + cbn [ms_rest]. lia.
        + rewrite Htw'. destruct F; [contradiction | simpl; lia].
        + rewrite Htw', Hdw'. cbn [ms_rest List.length Nat.eqb rmatch]. reflexivity. }
    destruct Hk2 as (p & Hk2). exists p.
    apply (repeat_run_then (rmatch false digit) okd).
    - reflexivity.
    - cbn [ms_rest]. lia.
    - rewrite Htw. exact Hlen.
    - rewrite Htw, Hdw. exact Hk2. }
  destruct H as (p & H). unfold match_here. rewrite H. eexists. split; [reflexivity | ].
  cbn [m_text]. rewrite <- (app_nil_r (D ++ rest)) at 1. apply consumed_app.
Qed.

(** ** The number read from a value text *)

Lemma digits_value_natural s : forall acc,
  forallb is_digit s = true ->
  digits_value acc s = Some (fold_left (fun a c => 10 * a + digit_value c)%Z s acc).
Proof.
  induction s as [ | c t IH]; intros acc H; [reflexivity | ].
  cbn [forallb] in H. apply andb_prop in H as [Hc Ht].
  cbn [digits_value fold_left]. rewrite Hc. now rewrite IH.
Qed.

Lemma split_dot_digits (D rest : str) :
  forallb is_digit D = true ->
  split_dot (D ++ rest) = (D ++ fst (split_dot rest), snd (split_dot rest)).
Proof.
  intros H. induction D as [ | c t IH]; cbn [app].
  - now destruct (split_dot rest).
  - cbn [forallb] in H. apply andb_prop in H as [Hc Ht].
    cbn [split_dot]. rewrite (N.eqb_sym c 46), (digit_not c 46) by (trivial; lia).
    now rewrite (IH Ht).
Qed.

(** [parseFloat] on digits, or on digits, a point and digits. *)
Lemma parseFloat_decimal (D F : str) :
  D <> [] -> forallb is_digit D = true -> forallb is_digit F = true ->
  parseFloat (D ++ match F with [] => [] | _ => 46%N :: F end)
  = ratio false (natural (D ++ F)) (pow10 (List.length F)).
Proof.
  intros HD Hd Hf. unfold parseFloat.
  destruct D as [ | d0 D']; [contradiction | ]. cbn [app].
  pose proof Hd as Hd2. cbn [forallb] in Hd2. apply andb_prop in Hd2 as [Hd0 _].
  rewrite (N.eqb_sym d0 45), (digit_not d0 45) by (trivial; lia).
  change (d0 :: D' ++ ?x) with ((d0 :: D') ++ x).
  rewrite (split_dot_digits (d0 :: D')) by exact Hd.
  destruct F as [ | f0 F'].
  - cbn [split_dot fst snd app List.length pow10]. rewrite !app_nil_r.
    rewrite digits_value_natural by exact Hd. reflexivity.
  - cbn [split_dot N.eqb Pos.eqb fst snd].
    rewrite app_nil_r. cbn [app].
    rewrite digits_value_natural.
    + reflexivity.
    + change (d0 :: D' ++ f0 :: F') with ((d0 :: D') ++ f0 :: F').
      now rewrite forallb_app, Hd, Hf.
Qed.

Lemma decimal_value_decimal (D F : str) :
  forallb is_digit D = true ->
  decimal_value (D ++ match F with [] => [] | _ => 46%N :: F end)
  = ratio false (natural (D ++ F)) (pow10 (List.length F)).
Proof.
  intros Hd. unfold decimal_value. destruct F as [ | f0 F'].
  - destruct (take_while_all is_digit D [] Hd eq_refl) as [-> ->]. reflexivity.
  - destruct (take_while_all is_digit D (46%N :: f0 :: F') Hd eq_refl) as [-> ->].
    reflexivity.
Qed.

Lemma filter_digits (ok : char -> bool) s :
  (forall c, is_digit c = true -> ok c = true) ->
  forallb is_digit s = true -> filter ok s = s.
Proof.
  intros Hok. induction s as [ | c t IH]; intros H; [reflexivity | ].
  cbn [forallb] in H. apply andb_prop in H as [Hc Ht].
  cbn [filter]. rewrite (Hok c Hc). now rewrite IH.
Qed.

Lemma exec_float_number (D rest : str) :
  D <> [] -> forallb is_digit D = true ->
  rest = [] \/ (exists F : str, rest = 46%N :: F /\ F <> [] /\ forallb is_digit F = true) ->
  exists m, exec false re_float (D ++ rest) = Some m /\ m_text m = D ++ rest.
Proof.
  intros HD Hd Hrest.
  destruct (float_match D rest None 0 HD Hd Hrest) as (m & Hm & Ht).
  exists m. split; trivial. unfold exec. destruct (D ++ rest); cbn [search]; now rewrite Hm.
Qed.

(** [toFloatSafe] on a value text: a number, and for a text without a
    comma the number its digits denote. *)
Lemma toFloatSafe_number n cap :
  number_text n cap ->
  exists v, toFloatSafe (Some cap) = Some v /\ (~ In 44%N cap -> v = decimal_value cap).
Proof.
  intros (whole & rest & -> & [Hlo _] & Hw & Hrest).
  assert (HD : whole <> []) by (destruct whole; [simpl in Hlo; lia | discriminate]).
  assert (Hkeep : forall c, is_digit c = true -> negb (N.eqb 44 c) = true).
  { intros c Hc. now rewrite (digit_not c 44) by (trivial; lia). }
  unfold toFloatSafe.
  rewrite (replaceAll_delete_units false (chr ",") (fun ch : char => N.eqb 44 ch))
    by reflexivity.
  rewrite filter_app, (filter_digits _ whole Hkeep Hw).
  destruct Hrest as [-> | (s & frac & -> & Hs & [Hlo2 _] & Hf)].
  - cbn [filter].
    destruct (exec_float_number whole [] HD Hw) as (m & Hm & Ht); [now left | ].
    pose proof (parseFloat_decimal whole [] HD Hw eq_refl) as Hp.
    pose proof (decimal_value_decimal whole [] Hw) as Hv.
    cbv delta [char str] in *. rewrite Hm, Ht, Hp, Hv. eauto.
  - assert (HF : frac <> []) by (destruct frac; [simpl in Hlo2; lia | discriminate]).
    cbn [filter]. rewrite (filter_digits _ frac Hkeep Hf).
    unfold is_sep in Hs. apply orb_prop in Hs as [Hs | Hs]; apply N.eqb_eq in Hs; subst s.
    + cbn [N.eqb Pos.eqb negb].
      destruct (exec_float_number whole (46%N :: frac) HD Hw) as (m & Hm & Ht).
      { right. now exists frac. }
      pose proof (parseFloat_decimal whole frac HD Hw Hf) as Hp.
      pose proof (decimal_value_decimal whole frac Hw) as Hv.
      destruct frac as [ | f0 frac']; [contradiction | ].
      cbv delta [char str] in *. rewrite Hm, Ht, Hp, Hv. eauto.
    + cbn [N.eqb Pos.eqb negb].
      destruct (exec_float_number (whole ++ frac) []) as (m & Hm & Ht).
      * destruct whole; [contradiction | discriminate].
      * now rewrite forallb_app, Hw, Hf.
      * now left.
      * rewrite app_nil_r in Hm. cbv delta [char str] in *. rewrite Hm.
        eexists. split; [reflexivity | ].
        intros Hno. exfalso. apply Hno. apply in_or_app. right. now left.
Qed.

(** ** What a value pattern reads *)

Lemma reading_found label n unit flat i cap :
  1 <= n -> reading_at label n unit flat i cap ->
  exists m, exec true (thc_value label n unit) flat = Some m /\ m_index m <= i.
Proof.
  intros Hn (pre & lab & gap & sp & un & post & -> & <- & Hl & Hg & Hg40 & Hcap & Hsp & Hun).
  rewrite !unit_before_app in Hun. rewrite <- !unit_before_app in Hun.
  pose proof (reading_match_here label n unit (unit_before None pre) lab gap cap sp un post
                (0 + List.length pre) Hn Hl Hg Hg40 Hcap Hsp) as Hm.
  rewrite <- unit_before_app in Hm. specialize (Hm Hun).
  destruct (match_here _ _ _ _ _) as [m0 | ] eqn:E; [ | contradiction].
  destruct (search_complete true _ pre None _ 0 m0 E) as (m & Hs & Hle).
  exists m. split; trivial.
Qed.

Lemma match_reading label n unit flat m :
  groups_of label = [] -> groups_of unit = [] -> 1 <= n ->
  exec true (thc_value label n unit) flat = Some m ->
  exists cap, reading_at label n unit flat (m_index m) cap /\ group 1 m = Some cap.
Proof.
  intros Hgl Hgu Hn Hm.
  destruct (search_sound _ _ _ _ _ _ Hm) as (pre & s & -> & Hidx & Hhere).
  destruct (match_here_reading _ _ _ _ _ _ _ Hgl Hgu Hn Hhere)
    as (lab & gap & cap & sp & un & post & -> & Hl & Hg & Hg40 & Hcap & Hsp & Hun & Hgrp).
  exists cap. split; trivial.
  exists pre, lab, gap, sp, un, post. repeat split; trivial.
  - simpl in Hidx. lia.
  - rewrite unit_before_app. exact Hun.
Qed.

(** [firstNumber] with a value pattern reads the leftmost reading. *)
Lemma firstNumber_reads label n unit flat :
  groups_of label = [] -> groups_of unit = [] -> 1 <= n ->
  reads (reading_at label n unit) flat (firstNumber (thc_value label n unit) flat).
Proof.
  intros Hgl Hgu Hn. unfold firstNumber.
  destruct (exec true (thc_value label n unit) flat) as [m | ] eqn:E.
  - destruct (match_reading _ _ _ _ _ Hgl Hgu Hn E) as (cap & Hat & Hgrp).
    rewrite Hgrp.
    assert (Hcap : number_text n cap).
    { destruct Hat as (pre & lab & gap & sp & un & post & _ & _ & _ & _ & _ & Hcap & _).
      exact Hcap. }
    destruct (toFloatSafe_number n cap Hcap) as (v & -> & Hv).
    exists (m_index m), cap. repeat split; trivial.
    intros k cap' Hk. destruct (reading_found _ _ _ _ _ _ Hn Hk) as (m' & Hm' & Hle).
    assert (m' = m) as -> by congruence. exact Hle.
  - intros i cap Hat. destruct (reading_found _ _ _ _ _ _ Hn Hat) as (m & Hm & _).
    congruence.
Qed.


Lemma reads_same (R R' : str -> nat -> str -> Prop) flat v :
  (forall i cap, R flat i cap <-> R' flat i cap) -> reads R flat v -> reads R' flat v.
Proof.
  intros HR. destruct v as [x | ]; cbn [reads].
  - intros (j & cap & Hat & Hleft & Hv). exists j, cap. repeat split; trivial.
    + now apply HR.
    + intros k cap' Hk. apply (Hleft k cap'). now apply HR.
  - intros Hno i cap Hat. apply (Hno i cap). now apply HR.
Qed.

(** ** Rounding to two decimals *)


(** At most one integer is nearest. *)
Lemma nearest_hundredfold_unique m e n n' :
  nearest_hundredfold m e n -> nearest_hundredfold m e n' -> n = n'.
Proof.
  unfold nearest_hundredfold. intros H H'.
  assert (Hd : (0 < 2 ^ Z.max (- e) 0)%Z) by (apply Z.pow_pos_nonneg; lia).
  set (d := (2 ^ Z.max (- e) 0)%Z) in *. nia.
Qed.

(** ** The chain of [parseTHC] *)




(** ** The label of the total *)

Lemma derives_lit ic w : forall u p a,
  same_letters ic w u -> derives ic (lit_of w) p u a.
Proof.
  unfold lit_of.
  induction w as [ | c w IH]; intros u p a H; inversion H; subst; cbn [fold_right].
  - constructor.
  - match goal with |- derives _ _ _ (?ch :: ?t) _ => change (ch :: t) with ([ch] ++ t) end.
    constructor; [now constructor | now apply IH].
Qed.

Lemma derives_lit_inv ic w : forall u p a,
  derives ic (lit_of w) p u a -> same_letters ic w u.
Proof.
  unfold lit_of.
  induction w as [ | c w IH]; intros u p a H; cbn [fold_right] in H.
  - inversion H; subst. constructor.
  - inversion H as [ | | | | r1 r2 p0 u1 u2 a0 H1 H2 | | | | | | | | | ]; subst.
    inversion H1; subst. cbn [app]. constructor; trivial. now apply IH in H2.
Qed.

(** The first and the last unit of a spelling of a word of letters are
    letters. *)
Lemma spelling_last (w u : str) q :
  w <> [] -> forallb is_letter w = true -> same_letters true w u ->
  opt_word (unit_before q u) = true.
Proof.
  intros Hw Hl Hs.
  destruct (exists_last Hw) as (w0 & c & ->).
  apply Forall2_app_inv_l in Hs as (u0 & u1 & Hs0 & Hs1 & ->).
  inversion Hs1 as [ | c' ch w' u' Hc Hnil]; subst. inversion Hnil; subst.
  rewrite unit_before_app. cbn [unit_before map last opt_word].
  rewrite forallb_app in Hl. apply andb_prop in Hl as [_ Hl]. cbn [forallb] in Hl.
  rewrite andb_true_r in Hl.
  destruct (canon_of_letter c Hl) as (U & HU & HcU & _).
  rewrite HcU in Hc. symmetry in Hc. apply (canon_capital ch U HU) in Hc.
  unfold is_word. apply orb_true_iff. left. apply orb_true_iff.
  destruct Hc as [-> | ->]; [left; apply orb_true_iff; right | left; apply orb_true_iff; left];
    apply in_range_spec; lia.
Qed.

Lemma spelling_first (w u b : str) :
  w <> [] -> forallb is_letter w = true -> same_letters true w u ->
  opt_word (hd_error (u ++ b)) = true.
Proof.
  intros Hw Hl Hs. destruct Hs as [ | c ch w' u' Hc Hs]; [contradiction | ].
  cbn [app hd_error opt_word]. cbn [forallb] in Hl. apply andb_prop in Hl as [Hl _].
  destruct (canon_of_letter c Hl) as (U & HU & HcU & _).
  rewrite HcU in Hc. symmetry in Hc. apply (canon_capital ch U HU) in Hc.
  unfold is_word. apply orb_true_iff. left. apply orb_true_iff.
  destruct Hc as [-> | ->]; [left; apply orb_true_iff; right | left; apply orb_true_iff; left];
    apply in_range_spec; lia.
Qed.

Lemma spaces_derive ic (ws : str) p a :
  derives ic (plus space) p ws a <-> ws <> [] /\ forallb is_space ws = true.
Proof.
  unfold plus. split.
  - intros H.
    destruct (derives_rep_unit_inv ic space (cls_mem ic false [CSpace]) eq_refl
                _ _ _ _ H true 1 None eq_refl I) as (Hf & Hlo & _).
    rewrite (forallb_ext_eq _ is_space) in Hf by apply space_cls_ic.
    split; trivial. intros ->. simpl in Hlo. lia.
  - intros [Hne Hf].
    apply (derives_rep_unit ic _ (cls_mem ic false [CSpace])); [reflexivity | | | exact I].
    + now rewrite (forallb_ext_eq _ is_space) by apply space_cls_ic.
    + destruct ws; [contradiction | simpl; lia].
Qed.

(** The label pattern of the total derives exactly the labels. *)
Lemma l_total_label prev lab next :
  derives true l_total prev lab next <-> total_label prev lab next.
Proof.
  unfold l_total, seqs. cbn [fold_right]. split.
  - intros H.
    inversion H as [ | | | | r1 r2 p0 b0 u0 a0 Hb0 H0 | | | | | | | | | ]; subst.
    inversion Hb0 as [ | | | | | | | | | | | p1 a1 Hbefore | | ]; subst. cbn [app] in *.
    inversion H0 as [ | | | | r1 r2 p0 t u1 a0 Ht H1 | | | | | | | | | ]; subst.
    inversion H1 as [ | | | | r1 r2 p0 ws u2 a0 Hws H2 | | | | | | | | | ]; subst.
    inversion H2 as [ | | | | r1 r2 p0 mid u3 a0 Hmid H3 | | | | | | | | | ]; subst.
    inversion H3 as [ | | | | r1 r2 p0 h u4 a0 Hh H4 | | | | | | | | | ]; subst.
    inversion H4 as [ | | | | r1 r2 p0 b1 u5 a0 Hb1 H5 | | | | | | | | | ]; subst.
    inversion Hb1 as [ | | | | | | | | | | | p1 a1 Hafter | | ]; subst.
    inversion H5; subst. cbn [app] in *. rewrite ?app_nil_r in *.
    apply (derives_lit_inv true (js "Total")) in Ht.
    apply (derives_lit_inv true (js "THC")) in Hh.
    apply spaces_derive in Hws as [Hws Hsp].
    rewrite <- !app_assoc in Hbefore.
    rewrite (spelling_first (js "Total") t _ ltac:(discriminate) eq_refl Ht) in Hbefore.
    rewrite (spelling_last (js "THC") h _ ltac:(discriminate) eq_refl Hh) in Hafter.
    exists t, ws, mid, h. repeat split; trivial.
    + apply derives_opt_inv in Hmid as [-> | Hmid]; [now left | right].
      inversion Hmid as [ | | | | r1 r2 p0 a ws' a0 Ha Hws' | | | | | | | | | ]; subst.
      apply (derives_lit_inv true (js "Active")) in Ha.
      apply spaces_derive in Hws' as [Hws' Hsp'].
      now exists a, ws'.
    + now destruct (opt_word prev).
    + now destruct (opt_word (hd_error next)).
  - intros (t & ws & mid & h & -> & Ht & Hws & Hsp & Hmid & Hh & Hprev & Hnext).
    change (t ++ ws ++ mid ++ h) with ([] ++ t ++ ws ++ mid ++ h).
    apply d_seq.
    { constructor. rewrite Hprev. cbn [xorb]. rewrite <- !app_assoc.
      apply (spelling_first (js "Total")); trivial; discriminate. }
    apply d_seq; [now apply (derives_lit true (js "Total")) | ].
    apply d_seq; [now apply spaces_derive | ].
    replace h with (h ++ [] ++ []) by now rewrite !app_nil_r.
    apply d_seq.
    { destruct Hmid as [-> | (a & ws' & -> & Ha & Hws' & Hsp')]; [constructor | ].
      apply derives_opt; [destruct Ha; [destruct ws'; [contradiction | ] | ]; discriminate | ].
      apply d_seq; [now apply (derives_lit true (js "Active")) | now apply spaces_derive]. }
    apply d_seq; [now apply (derives_lit true (js "THC")) | ].
    apply d_seq; [ | constructor].
    constructor. cbn [app]. rewrite Hnext. rewrite xorb_false_r.
    apply (spelling_last (js "THC")); trivial; discriminate.
Qed.

Lemma percent_derives p un post :
  derives true u_pct p un post <-> un = js "%".
Proof.
  change u_pct with (Chr 37%N). change (js "%") with [37%N]. split.
  - intros H. inversion H as [ | c ch p0 a0 Hc | | | | | | | | | | | | ]; subst.
    f_equal. apply canon_plain; [lia | ]. now rewrite <- Hc.
  - intros ->. now constructor.
Qed.


















Lemma percent_sign_derives p un post :
  derives true u_pct p un post <-> percent_sign un.
Proof. apply percent_derives. Qed.

(** A reading in words is a reading of the patterns that derive the label
    and the unit. *)
Lemma reading_derives (L U : regex) label unit n flat i cap :
  (forall p l nx, derives true L p l nx <-> label p l nx) ->
  (forall p u a, derives true U p u a <-> unit u) ->
  (reading label n unit flat i cap <-> reading_at L n U flat i cap).
Proof.
  intros HL HU. split.
  - intros (pre & lab & gap & sp & un & post & -> & Hi & Hl & Hg & Hg40 & Hcap & Hsp & Hun).
    exists pre, lab, gap, sp, un, post. repeat split; trivial.
    + now apply HL.
    + now apply HU.
  - intros (pre & lab & gap & sp & un & post & -> & Hi & Hl & Hg & Hg40 & Hcap & Hsp & Hun).
    exists pre, lab, gap, sp, un, post. repeat split; trivial.
    + now apply HL.
    + now apply HU in Hun.
Qed.

(** The readings of the total in percent are the readings of its value
    pattern. *)
Lemma total_percent_reading flat i cap :
  total_percent_at flat i cap <-> reading_at l_total 2 u_pct flat i cap.
Proof. apply reading_derives; [apply l_total_label | apply percent_sign_derives]. Qed.

(** [firstNumber] reads the leftmost reading in words. *)
Lemma reads_words (L U : regex) label unit n flat :
  (forall p l nx, derives true L p l nx <-> label p l nx) ->
  (forall p u a, derives true U p u a <-> unit u) ->
  groups_of L = [] -> groups_of U = [] -> 1 <= n ->
  reads (reading label n unit) flat (firstNumber (thc_value L n U) flat).
Proof.
  intros HL HU Hg Hg' Hn. apply (reads_same (reading_at L n U)).
  - intros i cap. symmetry. now apply reading_derives.
  - now apply firstNumber_reads.
Qed.



(** ** One reading at a place *)

Lemma app_same_length {A} (a a' b b' : list A) :
  a ++ b = a' ++ b' -> List.length a = List.length a' -> a = a' /\ b = b'.
Proof.
  revert a'. induction a as [ | x a IH]; intros [ | y a'] H Hl; try discriminate Hl.
  - now split.
  - injection H as -> H. injection Hl as Hl. destruct (IH a' H Hl) as [-> ->]. now split.
Qed.

Lemma spelling_no_digit (w u : str) :
  forallb is_letter w = true -> same_letters true w u ->
  forallb (fun c => negb (is_digit c)) u = true.
Proof.
  intros Hw Hs. induction Hs as [ | c ch w u Hc Hs IH]; [reflexivity | ].
  cbn [forallb] in *. apply andb_prop in Hw as [Hl Hw]. rewrite (IH Hw), andb_true_r.
  destruct (canon_of_letter c Hl) as (U & HU & HcU & _).
  rewrite HcU in Hc. symmetry in Hc. apply (canon_capital ch U HU) in Hc.
  apply negb_true_iff. unfold is_digit. apply in_range_false. lia.
Qed.

Lemma space_no_digit c : is_space c = true -> is_digit c = false.
Proof.
  intros Hs. destruct (is_digit c) eqn:Hd; trivial.
  unfold is_digit in Hd. apply in_range_spec in Hd.
  unfold is_space in Hs.
  assert (E1 : in_range 9%N 13%N c = false) by (apply in_range_false; lia).
  assert (E2 : in_range 8192%N 8202%N c = false) by (apply in_range_false; lia).
  rewrite E1, E2 in Hs.
  repeat match type of Hs with
         | context [N.eqb c ?k] =>
             replace (N.eqb c k) with false in Hs by (symmetry; apply N.eqb_neq; lia)
         end.
  discriminate Hs.
Qed.

Lemma spaces_no_digit (ws : str) :
  forallb is_space ws = true -> forallb (fun c => negb (is_digit c)) ws = true.
Proof.
  intros H. apply forallb_forall. intros c Hc. rewrite forallb_forall in H.
  now rewrite (space_no_digit c (H c Hc)).
Qed.

(** The label of the total holds no digit. *)
Lemma total_label_no_digit prev lab next :
  total_label prev lab next -> forallb (fun c => negb (is_digit c)) lab = true.
Proof.
  intros (t & ws & mid & h & -> & Ht & _ & Hsp & Hmid & Hh & _).
  rewrite !forallb_app.
  rewrite (spelling_no_digit (js "Total") t eq_refl Ht), (spaces_no_digit ws Hsp),
          (spelling_no_digit (js "THC") h eq_refl Hh).
  destruct Hmid as [-> | (a & ws' & -> & Ha & _ & Hsp')]; [reflexivity | ].
  rewrite forallb_app, (spelling_no_digit (js "Active") a eq_refl Ha),
          (spaces_no_digit ws' Hsp'). reflexivity.
Qed.

Lemma sep_no_digit c : is_sep c = true -> is_digit c = false.
Proof.
  unfold is_sep. intros H. apply orb_prop in H as [H | H]; apply N.eqb_eq in H; now subst.
Qed.

(** A value text followed by whitespace and a percent sign is read off
    the text that begins with it. *)
Lemma value_text_of n cap sp (post : str) :
  number_text n cap -> forallb is_space sp = true ->
  value_text (cap ++ sp ++ js "%" ++ post) = cap.
Proof.
  intros (whole & rest & -> & _ & Hw & Hrest) Hsp.
  set (z := sp ++ js "%" ++ post).
  assert (Hz : exists c t, z = c :: t /\ is_digit c = false /\ is_sep c = false).
  { unfold z. destruct sp as [ | c sp'].
    - exists 37%N, post. now split.
    - exists c, (sp' ++ js "%" ++ post). split; [reflexivity | ].
      cbn [forallb] in Hsp. apply andb_prop in Hsp as [Hc _].
      split; [now apply space_no_digit | ].
      destruct (is_sep c) eqn:E; trivial. unfold is_sep in E.
      apply orb_prop in E as [E | E]; apply N.eqb_eq in E; subst c; discriminate Hc. }
  destruct Hz as (c & t & Hz & Hcd & Hcs).
  unfold value_text. rewrite <- app_assoc.
  destruct Hrest as [-> | (s & frac & -> & Hs & _ & Hf)].
  - cbn [app]. rewrite Hz.
    destruct (take_while_all is_digit whole (c :: t) Hw) as [-> ->]; [exact Hcd | ].
    rewrite Hcs. now rewrite app_nil_r.
  - cbn [app].
    destruct (take_while_all is_digit whole (s :: frac ++ z) Hw) as [-> ->];
      [cbn [hd_ok]; now apply sep_no_digit | ].
    rewrite Hs, Hz.
    destruct (take_while_all is_digit frac (c :: t) Hf) as [-> _]; [exact Hcd | ].
    reflexivity.
Qed.

Lemma number_text_digit n cap (z : str) :
  number_text n cap -> hd_ok (fun c => negb (is_digit c)) (cap ++ z) = false.
Proof.
  intros (whole & rest & -> & [Hlo _] & Hw & _).
  destruct whole as [ | d w]; [simpl in Hlo; lia | ].
  cbn [forallb] in Hw. apply andb_prop in Hw as [Hd _]. cbn [app hd_ok]. now rewrite Hd.
Qed.

(** At one index stands at most one reading of the total. *)
Lemma total_percent_unique flat i cap cap' :
  total_percent_at flat i cap -> total_percent_at flat i cap' -> cap = cap'.
Proof.
  intros (pre & lab & gap & sp & un & post & -> & Hi & Hl & Hg & _ & Hcap & Hsp & ->)
         (pre' & lab' & gap' & sp' & un' & post' & E & Hi' & Hl' & Hg' & _ & Hcap' & Hsp' & ->).
  destruct (app_same_length _ _ _ _ E ltac:(congruence)) as [_ E1].
  apply total_label_no_digit in Hl, Hl'.
  assert (Hd : forallb (fun c => negb (is_digit c)) (lab ++ gap) = true)
    by now rewrite forallb_app, Hl, Hg.
  assert (Hd' : forallb (fun c => negb (is_digit c)) (lab' ++ gap') = true)
    by now rewrite forallb_app, Hl', Hg'.
  rewrite !(app_assoc lab), !(app_assoc lab') in E1.
  pose proof (take_while_all _ _ (cap ++ sp ++ js "%" ++ post) Hd
                (number_text_digit 2 cap _ Hcap)) as [_ H1].
  pose proof (take_while_all _ _ (cap' ++ sp' ++ js "%" ++ post') Hd'
                (number_text_digit 2 cap' _ Hcap')) as [_ H2].
  rewrite E1, H2 in H1.
  rewrite <- (value_text_of 2 cap sp post Hcap Hsp),
          <- (value_text_of 2 cap' sp' post' Hcap' Hsp').
  now rewrite H1.
Qed.

(** ** The direct reading *)

(** C1, the claim as stated fails: beside THCA and Delta-9 readings stands
    "Total THC: 18.567%", a value with three decimals, and [parseTHC]
    returns the computed 18.04, not the total; and for "Total THC: 18,5%"
    it returns 185. *)
Lemma parseTHC_total_not_returned :
  parseTHC doc_total_three_decimals = Thc (Some (parseFloat (js "18.04"))) /\
  parseTHC doc_total_three_decimals <> Thc (Some (parseFloat (js "18.567"))) /\
  parseTHC doc_total_comma = Thc (Some (parseFloat (js "185"))) /\
  parseTHC doc_total_comma <> Thc (Some (parseFloat (js "18.5"))).
Proof.
  split; [vm_compute; reflexivity | ]. split; [vm_compute; discriminate | ].
  split; [vm_compute; reflexivity | vm_compute; discriminate].
Qed.

(** C1, amended: for every text in whose normalized form a reading of the
    total in percent stands (the label "Total THC" or "Total Active THC"
    in any case, at most 40 units that are no digits, a value of one or
    two digits with at most two decimals, whitespace or nothing, and the
    percent sign), with or without THCA and Delta-9 readings, [parseTHC]
    returns the number of the leftmost such reading and not the computed
    value (no reading stands further left, and at its index stands no
    other); where the value text has no comma, that number is the decimal
    number its digits denote. *)
Theorem parseTHC_direct_reading text i cap :
  total_percent_at (normalizeForTHC text) i cap ->
  exists j cap' v,
    j <= i /\ total_percent_at (normalizeForTHC text) j cap' /\
    (forall k cap'', total_percent_at (normalizeForTHC text) k cap'' ->
       j <= k /\ (k = j -> cap'' = cap')) /\
    (~ In 44%N cap' -> v = decimal_value cap') /\
    parseTHC text = Thc (Some v).
Proof.
  intros Hat.
  pose proof (reads_words l_total u_pct total_label percent_sign 2 (normalizeForTHC text)
                l_total_label percent_sign_derives eq_refl eq_refl ltac:(lia)) as Hr.
  unfold parseTHC, total_pct.
  destruct (firstNumber _ _) as [v | ].
  - destruct Hr as (j & cap' & Hat' & Hleft & Hv).
    exists j, cap', v. repeat split; trivial.
    + now apply (Hleft i cap).
    + now apply (Hleft k cap'').
    + intros ->. now apply (total_percent_unique (normalizeForTHC text) j).
  - now contradiction (Hr i cap).
Qed.

(** A report whose total is laid out over two lines with blanks around
    the decimal point, beside THCA 20% and Delta-9 0.5%: the normalization
    makes the reading "Total THC: 18.50 %", the total 18.5 is returned, and
    the components would give 18.04. The example of the specification,
    "Total THC: 18.5%" beside the same components, gives 18.5 too. *)
Lemma parseTHC_direct_reading_witness :
  normalizeForTHC doc_total_split
    = js "Total THC: 18.50 % THCA: 20%, Delta-9 THC: 0.5%" /\
  total_percent_at (normalizeForTHC doc_total_split) 0 (js "18.50") /\
  decimal_value (js "18.50") = parseFloat (js "18.5") /\
  computed (thca_of (normalizeForTHC doc_total_split))
           (d9_of (normalizeForTHC doc_total_split)) = parseFloat (js "18.04") /\
  parseTHC doc_total_split = Thc (Some (parseFloat (js "18.5"))) /\
  parseTHC doc_total_and_parts = Thc (Some (parseFloat (js "18.5"))) /\
  exists j cap' v,
    j <= 0 /\ total_percent_at (normalizeForTHC doc_total_split) j cap' /\
    (forall k cap'',
       total_percent_at (normalizeForTHC doc_total_split) k cap'' ->
       j <= k /\ (k = j -> cap'' = cap')) /\
    (~ In 44%N cap' -> v = decimal_value cap') /\
    parseTHC doc_total_split = Thc (Some v).
Proof.
  assert (Hn : normalizeForTHC doc_total_split
               = js "Total THC: 18.50 % THCA: 20%, Delta-9 THC: 0.5%")
    by (vm_compute; reflexivity).
  assert (H : total_percent_at (normalizeForTHC doc_total_split) 0 (js "18.50")).
  { rewrite Hn.
    exists [], (js "Total THC"), (js ": "), (js " "), (js "%"),
           (js " THCA: 20%, Delta-9 THC: 0.5%").
    split; [vm_compute; reflexivity | ]. split; [reflexivity | ].
    split.
    { exists (js "Total"), (js " "), [], (js "THC").
      split; [vm_compute; reflexivity | ]. split; [repeat constructor | ].
      split; [discriminate | ]. split; [vm_compute; reflexivity | ].
      split; [now left | ]. split; [repeat constructor | ].
      split; [reflexivity | vm_compute; reflexivity]. }
    split; [vm_compute; reflexivity | ]. split; [vm_compute; lia | ].
    split; [ | split; [vm_compute; reflexivity | reflexivity]].
    exists (js "18"), (js ".50"). split; [vm_compute; reflexivity | ].
    split; [vm_compute; lia | ]. split; [vm_compute; reflexivity | ].
    right. exists 46%N, (js "50").
    split; [vm_compute; reflexivity | ]. split; [vm_compute; reflexivity | ].
    split; [vm_compute; lia | vm_compute; reflexivity]. }
  split; [exact Hn | ]. split; [exact H | ].
  split; [vm_compute; reflexivity | ]. split; [vm_compute; reflexivity | ].
  split; [vm_compute; reflexivity | ]. split; [vm_compute; reflexivity | ].
  exact (parseTHC_direct_reading doc_total_split 0 (js "18.50") H).
Defined.

(** ** The computed value *)



